(** * proactivity-toolkit: RateLimiter and TaskQueue

    A shallow embedding of [src/RateLimiter.ts] (token bucket with a minimum
    spacing between admissions) and of the [TaskQueue] class (bounded
    concurrency work queue), with the properties of the specification
    stated and proved over the embedding.

    Modelling domain.  JavaScript numbers are modelled as [Z]: timestamps
    are integral milliseconds, token counts and configuration values are
    integers in the range where double arithmetic is exact.  The division
    [Math.floor (elapsed / intervalMs)] is [Z.div], which is the floor of
    the quotient for a positive divisor; statements that depend on its
    value assume [0 < intervalMs].  An optional configuration field is an
    [option Z]; the test [if (x)] of the source is JavaScript truthiness
    (present and non-zero).

    Effects.  Each synchronous method body is a computation in ExtLib's
    state monad.  [Date.now ()] reads a clock owned by the environment:
    the environment decides how much time passes before each reading
    (field [elapse]), so that a call sequence "at arbitrary times" is a
    run under an arbitrary [elapse].  The asynchronous methods are cut at
    their [await] points: one definition per synchronous segment, and the
    loop around them with explicit fuel. *)

From Stdlib Require Import ZArith List Bool Lia Permutation.
From Stdlib Require String.
From ExtLib Require Import Structures.Monad Structures.MonadState.
From ExtLib Require Import Data.Monads.StateMonad.
Import ListNotations.
Import MonadNotation.
Local Open Scope monad_scope.
Local Open Scope Z_scope.

(** JavaScript truthiness of an optional number: [undefined] and [0] are
    falsy.  The result carries the number when it is truthy. *)
Definition truthy (x : option Z) : option Z :=
  match x with
  | Some d => if d =? 0 then None else Some d
  | None => None
  end.

(** [a || b] on an optional number [a] with a numeric default [b]. *)
Definition or_default (x : option Z) (d : Z) : Z :=
  match truthy x with
  | Some v => v
  | None => d
  end.

(** ** The environment: wall clock and timers *)

Record Env : Type := mkEnv {
  now    : Z;          (* the last value the clock showed *)
  elapse : nat -> Z;   (* time passing before the k-th clock reading *)
  tick   : nat;        (* number of clock readings so far *)
  slept  : list Z      (* durations handed to [sleep], oldest first *)
}.

Definition env_read (e : Env) : Z * Env :=
  let t := now e + elapse e (tick e) in
  (t, mkEnv t (elapse e) (S (tick e)) (slept e)).

(** A timer of [ms] milliseconds fires no earlier than [ms] later; a
    non-positive delay fires at once. *)
Definition env_sleep (ms : Z) (e : Env) : Env :=
  mkEnv (now e + Z.max 0 ms) (elapse e) (tick e) (slept e ++ [ms]).

(** ** RateLimiter *)

Module RateLimiter.

Record Config : Type := mkConfig {
  tokensPerInterval : Z;
  intervalMs        : Z;
  minDelayMs        : option Z
}.

Record Limiter : Type := mkLimiter {
  config      : Config;
  tokens      : Z;
  lastRefill  : Z;
  lastAcquire : Z
}.

Record World : Type := mkWorld {
  this : Limiter;
  env  : Env
}.

Definition set_tokens (v : Z) (l : Limiter) : Limiter :=
  mkLimiter (config l) v (lastRefill l) (lastAcquire l).
Definition set_lastRefill (v : Z) (l : Limiter) : Limiter :=
  mkLimiter (config l) (tokens l) v (lastAcquire l).
Definition set_lastAcquire (v : Z) (l : Limiter) : Limiter :=
  mkLimiter (config l) (tokens l) (lastRefill l) v.

(** [Date.now ()] *)
Definition Date_now : state World Z :=
  w <- get ;;
  let r := env_read (env w) in
  put (mkWorld (this w) (snd r)) ;;
  ret (fst r).

(** Reading and writing the fields of [this]. *)
Definition read {A : Type} (f : Limiter -> A) : state World A :=
  w <- get ;; ret (f (this w)).
Definition write (f : Limiter -> Limiter) : state World unit :=
  w <- get ;; put (mkWorld (f (this w)) (env w)).

(** [private sleep (ms)]: the timer the caller awaits. *)
Definition sleep (ms : Z) : state World unit :=
  w <- get ;; put (mkWorld (this w) (env_sleep ms (env w))).

(** [constructor (config)], lines 22-31: a full bucket, [lastRefill] read
    from the clock, [lastAcquire = 0]. *)
Definition constructor (cfg : Config) (e : Env) : World :=
  let r := env_read e in
  mkWorld (mkLimiter cfg (tokensPerInterval cfg) (fst r) 0) (snd r).

(** [private refill ()], lines 92-104. *)
Definition refill : state World unit :=
  t <- Date_now ;;
  cfg <- read config ;;
  lr <- read lastRefill ;;
  let elapsed := t - lr in
  if intervalMs cfg <=? elapsed then
    let intervals := elapsed / intervalMs cfg in
    tk <- read tokens ;;
    write (set_tokens (Z.min (tokensPerInterval cfg)
                             (tk + intervals * tokensPerInterval cfg))) ;;
    write (set_lastRefill t)
  else ret tt.

(** Lines 76-78 and 50-52: consume a token and stamp the admission. *)
Definition consume : state World unit :=
  tk <- read tokens ;;
  write (set_tokens (tk - 1)) ;;
  t <- Date_now ;;
  write (set_lastAcquire t).

(** [tryAcquire ()], lines 64-82. *)
Definition tryAcquire : state World bool :=
  refill ;;
  cfg <- read config ;;
  tk <- read tokens ;;
  if 1 <=? tk then
    match truthy (minDelayMs cfg) with
    | Some d =>
        t <- Date_now ;;
        la <- read lastAcquire ;;
        let timeSinceLastAcquire := t - la in
        if timeSinceLastAcquire <? d then ret false
        else (consume ;; ret true)
    | None => consume ;; ret true
    end
  else ret false.

(** [getTokens ()], lines 87-90. *)
Definition getTokens : state World Z :=
  refill ;;
  read tokens.

(** One pass through the body of the [while (true)] of [acquire], lines
    38-57, up to the [return] or to the [await this.sleep (...)]. *)
Inductive AcquireStep : Type :=
| Granted                    (* line 52: [return] *)
| WaitSpacing (ms : Z)        (* line 44: sleep, then [continue] *)
| WaitRefill (ms : Z).        (* line 57: sleep, then loop *)

Definition acquire_after_refill : state World AcquireStep :=
  cfg <- read config ;;
  gate <- match truthy (minDelayMs cfg) with
          | Some d =>
              t <- Date_now ;;
              la <- read lastAcquire ;;
              let timeSinceLastAcquire := t - la in
              if timeSinceLastAcquire <? d
              then ret (Some (d - timeSinceLastAcquire))
              else ret None
          | None => ret None
          end ;;
  match gate with
  | Some ms => ret (WaitSpacing ms)
  | None =>
      tk <- read tokens ;;
      if 1 <=? tk then consume ;; ret Granted
      else
        t <- Date_now ;;
        lr <- read lastRefill ;;
        let timeUntilRefill := intervalMs cfg - (t - lr) in
        ret (WaitRefill (Z.max timeUntilRefill 100))
  end.

Definition acquire_step : state World AcquireStep :=
  refill ;;
  acquire_after_refill.

(** [acquire ()], lines 36-59.  [None] when the fuel runs out before the
    loop returns. *)
Fixpoint acquire (fuel : nat) : state World (option unit) :=
  match fuel with
  | O => ret None
  | S fuel' =>
      r <- acquire_step ;;
      match r with
      | Granted => ret (Some tt)
      | WaitSpacing ms => sleep ms ;; acquire fuel'
      | WaitRefill ms => sleep ms ;; acquire fuel'
      end
  end.

(** A caller's view: the operations of the public interface.  A pending
    [acquire] takes part in an interleaving one pass of its loop at a
    time; [Acquire] is a whole uncontended call. *)
Inductive Call : Type :=
| TryAcquire
| GetTokens
| AcquirePass
| Acquire (fuel : nat).

Definition call (c : Call) : state World unit :=
  match c with
  | TryAcquire => tryAcquire ;; ret tt
  | GetTokens => getTokens ;; ret tt
  | AcquirePass => acquire_step ;; ret tt
  | Acquire fuel => acquire fuel ;; ret tt
  end.

Fixpoint calls (cs : list Call) : state World unit :=
  match cs with
  | [] => ret tt
  | c :: rest => call c ;; calls rest
  end.

(** [n] calls of [tryAcquire] in a row, with their results. *)
Fixpoint tryAcquire_times (n : nat) : state World (list bool) :=
  match n with
  | O => ret []
  | S n' => b <- tryAcquire ;; bs <- tryAcquire_times n' ;; ret (b :: bs)
  end.

(** What [Date.now ()] would return if called now. *)
Definition next_reading (w : World) : Z := fst (env_read (env w)).

(** The state in which a method continues after its call of [refill]. *)
Definition after_refill (w : World) : World := snd (runState refill w).

(** The configuration the data model of the specification admits. *)
Definition valid_config (cfg : Config) : Prop :=
  0 < tokensPerInterval cfg /\ 0 < intervalMs cfg.

(** A clock that never runs backwards, and a limiter whose timestamps
    were taken from it. *)
Definition steady (w : World) : Prop :=
  (forall k, 0 <= elapse (env w) k) /\
  lastRefill (this w) <= now (env w) /\
  lastAcquire (this w) <= now (env w).

(** The spacing condition as [tryAcquire] and [acquire] test it: the
    admission is far enough from the previous one when no minimum delay is
    configured (absent, or [0]) or when the time [t] read from the clock
    is at least [minDelayMs] past [lastAcquire]. *)
Definition spaced (l : Limiter) (t : Z) : Prop :=
  match truthy (minDelayMs (config l)) with
  | Some d => d <= t - lastAcquire l
  | None => True
  end.

(** Time left until the next refill is due, measured at the clock value
    read last (line 56). *)
Definition time_until_refill (w : World) : Z :=
  intervalMs (config (this w)) - (now (env w) - lastRefill (this w)).

(** The constant of line 57. *)
Definition floor_wait : Z := 100.

(** The longest wait a pass of [acquire] asks for under a steady clock. *)
Definition wait_bound (cfg : Config) : Z :=
  Z.max (Z.max (intervalMs cfg) floor_wait) (or_default (minDelayMs cfg) 0).

(** A limiter of capacity 1 whose token is spent, at time 1000 on a clock
    that stands still. *)
Definition drained_world : World :=
  mkWorld (mkLimiter (mkConfig 1 60000 None) 0 1000 1000)
          (mkEnv 1000 (fun _ => 0) 0 []).

(** [retries w w0]: an uncontended [acquire] started in [w] reaches the
    top of its loop in [w0], every pass before having ended in a sleep. *)
Inductive retries : World -> World -> Prop :=
| retries_here (w : World) : retries w w
| retries_wait (w w0 : World) (ms : Z) :
    fst (runState acquire_step w) = WaitSpacing ms \/
    fst (runState acquire_step w) = WaitRefill ms ->
    retries (snd (runState (sleep ms) (snd (runState acquire_step w)))) w0 ->
    retries w w0.

(** A clock that never runs backwards. *)
Definition honest (w : World) : Prop := forall k, 0 <= elapse (env w) k.

(** The spacing condition holds at the clock value read last, and the
    refill is due at it. *)
Definition spacing_ok (w : World) : Prop := spaced (this w) (now (env w)).
Definition refill_due (w : World) : Prop :=
  intervalMs (config (this w)) <= now (env w) - lastRefill (this w).

(** The state in which a pass resumes after its sleep. *)
Definition after_sleep (ms : Z) (w : World) : World :=
  snd (runState (sleep ms) w).

(** Capacity 2 with a minimum delay of 100 ms, on a clock that stands
    still at 1000. *)
Definition spaced_cfg : Config := mkConfig 2 60000 (Some 100).
Definition still_env : Env := mkEnv 1000 (fun _ => 0) 0 [].

(** Capacity 2 refilled every 200 ms, empty, with the refill overdue by
    50 ms at the next clock reading. *)
Definition due_world : World :=
  mkWorld (mkLimiter (mkConfig 2 200 None) 0 1000 1000)
          (mkEnv 1000 (fun _ => 250) 0 []).

(** The scenarios of [RateLimiter.test.ts]. *)
Definition burst_cfg : Config := mkConfig 3 60000 None.
Definition refill_cfg : Config := mkConfig 2 200 None.
Definition delay_cfg : Config := mkConfig 10 60000 (Some 100).
Definition block_cfg : Config := mkConfig 1 200 None.

(** A clock that stands still except for 250 ms passing before its
    seventh reading. *)
Definition pause_env : Env :=
  mkEnv 1000 (fun k => if Nat.eqb k 6 then 250 else 0) 0 [].

(** The token bound of the data model, for a limiter built from [cfg]. *)
Definition bounded (cfg : Config) (l : Limiter) : Prop :=
  config l = cfg /\ 0 <= tokens l <= tokensPerInterval cfg.

(** The number of granted calls among the results of [tryAcquire_times]. *)
Definition grants (bs : list bool) : Z :=
  Z.of_nat (length (filter (fun b : bool => b) bs)).

(** What a limiter can grant up to time [T] at most: the tokens it holds
    and one full bucket per whole interval between [lastRefill] and [T]. *)
Definition budget (T : Z) (l : Limiter) : Z :=
  tokens l
  + tokensPerInterval (config l) * ((T - lastRefill l) / intervalMs (config l)).

(** The minimum delay in force: [minDelayMs] when it is truthy, none
    otherwise. *)
Definition gap (cfg : Config) : Z := or_default (minDelayMs cfg) 0.

(** [moves w w']: from [w] to [w'] the configuration is kept, neither
    timestamp nor the clock goes back, and [lastAcquire] is either
    untouched or later by the minimum delay at least. *)
Definition moves (w w' : World) : Prop :=
  config (this w') = config (this w) /\
  lastRefill (this w) <= lastRefill (this w') /\
  lastAcquire (this w) <= lastAcquire (this w') /\
  now (env w) <= now (env w') /\
  (lastAcquire (this w') = lastAcquire (this w) \/
   lastAcquire (this w) + gap (config (this w)) <= lastAcquire (this w')).

(** A clock that stands still. *)
Definition still (e : Env) : Prop := forall k, elapse e k = 0.

(** A limiter without minimum delay, on a clock that stands still at a
    time when no refill is due. *)
Definition quiet (w : World) : Prop :=
  still (env w) /\
  now (env w) - lastRefill (this w) < intervalMs (config (this w)) /\
  truthy (minDelayMs (config (this w))) = None.

End RateLimiter.

(** ** TaskQueue *)

Module TaskQueue.

Section Model.

(** Results and failures of the queued work are opaque to the queue. *)
Context {Val Err : Type}.

(** What the call [task ()] of line 35 does before the wrapper suspends:
    it throws, or it returns a promise that the environment settles
    later. *)
Inductive TaskCall : Type :=
| Throws (e : Err)
| Pending.

(** The state of the promise returned by [add]. *)
Inductive Settled : Type :=
| Fulfilled (v : Val)
| Rejected (e : Err).

(** How an [async] function body ends. *)
Inductive Completion : Type :=
| Returned
| Thrown (e : Err).

(** An element of [this.queue]: the closure of lines 33-40.  It captures
    the caller's [task] and the [resolve]/[reject] pair of the promise that
    [add] returned; [entry_id] names that promise.  Identifiers are handed
    out in arrival order. *)
Record Entry : Type := mkEntry {
  entry_id   : nat;
  entry_task : TaskCall
}.

Record Queue : Type := mkQueue {
  queue       : list Entry;
  running     : Z;
  concurrency : Z;
  delayMs     : Z
}.

Record Options : Type := mkOptions {
  opt_concurrency : option Z;
  opt_delayMs     : option Z
}.

(** The queue object together with the suspended computations that refer
    to it. *)
Record Sys : Type := mkSys {
  self     : Queue;
  next_id  : nat;                     (* number of [add] calls so far *)
  started  : list nat;                (* tasks invoked, oldest first *)
  settled  : list (nat * Settled);    (* outcome promises settled, oldest first *)
  awaiting : list nat;                (* wrappers suspended at line 35 *)
  resuming : list (nat * Completion); (* [process] at line 54, wrapper finished *)
  delaying : list nat                 (* [process] at line 57, timer running *)
}.

(** [constructor (options)], lines 23-26. *)
Definition constructor (o : Options) : Sys :=
  mkSys (mkQueue [] 0 (or_default (opt_concurrency o) 1)
                 (or_default (opt_delayMs o) 0))
        0 [] [] [] [] [].

Definition on_self (f : Queue -> Queue) : state Sys unit :=
  s <- get ;;
  put (mkSys (f (self s)) (next_id s) (started s) (settled s)
             (awaiting s) (resuming s) (delaying s)).

Definition set_queue (v : list Entry) (q : Queue) : Queue :=
  mkQueue v (running q) (concurrency q) (delayMs q).
Definition set_running (v : Z) (q : Queue) : Queue :=
  mkQueue (queue q) v (concurrency q) (delayMs q).

Definition field {A : Type} (f : Queue -> A) : state Sys A :=
  s <- get ;; ret (f (self s)).

(** [this.queue.shift ()] *)
Definition shift : state Sys (option Entry) :=
  q <- field queue ;;
  match q with
  | [] => ret None
  | x :: rest => on_self (set_queue rest) ;; ret (Some x)
  end.

(** [resolve (v)] / [reject (e)] on the promise of entry [id]. *)
Definition settle (id : nat) (r : Settled) : state Sys unit :=
  s <- get ;;
  put (mkSys (self s) (next_id s) (started s) (settled s ++ [(id, r)])
             (awaiting s) (resuming s) (delaying s)).

Definition log_start (id : nat) : state Sys unit :=
  s <- get ;;
  put (mkSys (self s) (next_id s) (started s ++ [id]) (settled s)
             (awaiting s) (resuming s) (delaying s)).

(** Taking one suspended computation out of a list of them. *)
Fixpoint take_id (id : nat) (l : list nat) : option (list nat) :=
  match l with
  | [] => None
  | x :: rest =>
      if Nat.eqb x id then Some rest
      else option_map (cons x) (take_id id rest)
  end.

Fixpoint take_key {A : Type} (id : nat) (l : list (nat * A))
    : option (A * list (nat * A)) :=
  match l with
  | [] => None
  | x :: rest =>
      if Nat.eqb (fst x) id then Some (snd x, rest)
      else option_map (fun r => (fst r, x :: snd r)) (take_key id rest)
  end.

Definition set_awaiting (f : list nat -> list nat) : state Sys unit :=
  s <- get ;;
  put (mkSys (self s) (next_id s) (started s) (settled s)
             (f (awaiting s)) (resuming s) (delaying s)).
Definition set_resuming
    (f : list (nat * Completion) -> list (nat * Completion)) : state Sys unit :=
  s <- get ;;
  put (mkSys (self s) (next_id s) (started s) (settled s)
             (awaiting s) (f (resuming s)) (delaying s)).
Definition set_delaying (f : list nat -> list nat) : state Sys unit :=
  s <- get ;;
  put (mkSys (self s) (next_id s) (started s) (settled s)
             (awaiting s) (resuming s) (f (delaying s))).

(** The closure of lines 33-40, from its call to its first suspension.
    A synchronous throw of [task ()] lands in the [catch]. *)
Definition wrapper_call (x : Entry) : state Sys (option Completion) :=
  log_start (entry_id x) ;;
  match entry_task x with
  | Throws e => settle (entry_id x) (Rejected e) ;; ret (Some Returned)
  | Pending => set_awaiting (fun l => l ++ [entry_id x]) ;; ret None
  end.

(** The same closure, resumed when the promise of [task ()] settles:
    [resolve (result)] on fulfilment, the [catch] on rejection. *)
Definition wrapper_resume (id : nat) (r : Val + Err) : state Sys Completion :=
  match r with
  | inl v => settle id (Fulfilled v) ;; ret Returned
  | inr e => settle id (Rejected e) ;; ret Returned
  end.

(** [private async process ()], lines 45-54: the synchronous part, up to
    [await task ()]. *)
Definition process : state Sys unit :=
  r <- field running ;;
  c <- field concurrency ;;
  q <- field queue ;;
  if (c <=? r) || (Nat.eqb (length q) 0) then ret tt
  else
    on_self (set_running (r + 1)) ;;
    task <- shift ;;
    match task with
    | Some x =>
        done <- wrapper_call x ;;
        match done with
        | Some k => set_resuming (fun l => l ++ [(entry_id x, k)])
        | None => ret tt
        end
    | None =>
        r' <- field running ;;
        on_self (set_running (r' - 1))
    end.

(** Lines 60-61. *)
Definition release : state Sys unit :=
  r <- field running ;;
  on_self (set_running (r - 1)) ;;
  process.

(** [process] resumed after [await task ()], lines 54-61.  A rejected
    wrapper promise would make the [await] throw and end [process]
    there. *)
Definition process_resume (id : nat) (k : Completion) : state Sys unit :=
  match k with
  | Returned =>
      d <- field delayMs ;;
      if 0 <? d then set_delaying (fun l => l ++ [id])
      else release
  | Thrown _ => ret tt
  end.

(** [add (task)], lines 31-43. *)
Definition add (t : TaskCall) : state Sys nat :=
  s <- get ;;
  let id := next_id s in
  put (mkSys (self s) (S id) (started s) (settled s)
             (awaiting s) (resuming s) (delaying s)) ;;
  q <- field queue ;;
  on_self (set_queue (q ++ [mkEntry id t])) ;;
  process ;;
  ret id.

(** [size ()], lines 79-81. *)
Definition size : state Sys Z :=
  q <- field queue ;; ret (Z.of_nat (length q)).

(** What the environment can make happen. *)
Inductive Event : Type :=
| Add (t : TaskCall)              (* a caller invokes [add] *)
| Settle (id : nat) (r : Val + Err) (* the promise of task [id] settles *)
| Resume (id : nat)               (* [process] wakes up from line 54 *)
| Timer (id : nat).               (* the timer of line 57 fires *)

(** An event that is not enabled in the current state does nothing. *)
Definition handle (ev : Event) : state Sys unit :=
  match ev with
  | Add t => add t ;; ret tt
  | Settle id r =>
      s <- get ;;
      match take_id id (awaiting s) with
      | Some rest =>
          set_awaiting (fun _ => rest) ;;
          k <- wrapper_resume id r ;;
          set_resuming (fun l => l ++ [(id, k)])
      | None => ret tt
      end
  | Resume id =>
      s <- get ;;
      match take_key id (resuming s) with
      | Some (k, rest) => set_resuming (fun _ => rest) ;; process_resume id k
      | None => ret tt
      end
  | Timer id =>
      s <- get ;;
      match take_id id (delaying s) with
      | Some rest => set_delaying (fun _ => rest) ;; release
      | None => ret tt
      end
  end.

Fixpoint handle_all (evs : list Event) : state Sys unit :=
  match evs with
  | [] => ret tt
  | ev :: rest => handle ev ;; handle_all rest
  end.

(** The loop test of [drain], line 71. *)
Definition busy : state Sys bool :=
  q <- field queue ;;
  r <- field running ;;
  ret ((0 <? Z.of_nat (length q)) || (0 <? r)).

(** The delay of line 72. *)
Definition poll_interval : Z := 100.

(** [drain ()], lines 70-74.  [sched] lists what the environment does
    during each successive sleep.  The result is the list of the delays
    slept before the loop ended, [None] when the schedule ends while the
    loop is still waiting. *)
Fixpoint drain (sched : list (list Event)) : state Sys (option (list Z)) :=
  b <- busy ;;
  if (b : bool) then
    match sched with
    | [] => ret None
    | evs :: rest =>
        handle_all evs ;;
        n <- drain rest ;;
        ret (option_map (cons poll_interval) n)
    end
  else ret (Some []).

(** ** Predicates on the queue and its suspended computations *)

(** Nothing pending and nothing in flight. *)
Definition idle (s : Sys) : Prop :=
  queue (self s) = [] /\ running (self s) = 0.

(** [running] counts the computations that hold a slot. *)
Definition accounted (s : Sys) : Prop :=
  running (self s)
  = Z.of_nat (length (awaiting s) + length (resuming s) + length (delaying s)).

(** Pending work implies that every slot is taken. *)
Definition no_stall (s : Sys) : Prop :=
  queue (self s) <> [] -> concurrency (self s) <= running (self s).

(** No wrapper promise has been rejected. *)
Definition wrappers_returned (s : Sys) : Prop :=
  Forall (fun p => snd p = Returned) (resuming s).

(** The tasks started are the first arrivals, in arrival order, and the
    pending ones follow in arrival order. *)
Definition fifo (s : Sys) : Prop :=
  started s ++ map entry_id (queue (self s)) = seq 0 (next_id s).

(** At most [concurrency] slots are taken (for a limit that is not
    negative). *)
Definition within_limit (s : Sys) : Prop :=
  0 <= concurrency (self s) -> running (self s) <= concurrency (self s).

Definition sound (s : Sys) : Prop :=
  accounted s /\ no_stall s /\ wrappers_returned s /\ fifo s /\ within_limit s.

(** The state after the first [m] sleeps of a [drain] that runs under the
    schedule [sched]. *)
Definition after_batches (m : nat) (sched : list (list Event)) (s : Sys) : Sys :=
  snd (runState (handle_all (concat (firstn m sched))) s).

(** Every task started is either still awaited or has its outcome
    promise settled. *)
Definition ledger (s : Sys) : Prop :=
  Permutation (started s) (awaiting s ++ map fst (settled s)).

(** The work left: what is pending or holds a slot, weighted by the
    number of events it still needs. *)
Definition work_left (s : Sys) : nat :=
  3 * length (queue (self s)) + 3 * length (awaiting s)
  + 2 * length (resuming s) + length (delaying s).

(** A queue whose limit is negative: nothing has started, everything
    added is pending. *)
Definition stalled (s : Sys) : Prop :=
  concurrency (self s) < 0 /\ running (self s) = 0 /\
  started s = [] /\ settled s = [] /\ awaiting s = [] /\
  resuming s = [] /\ delaying s = [] /\
  length (queue (self s)) = next_id s.

(** An event other than a call of [add]. *)
Definition completes (ev : Event) : Prop :=
  match ev with
  | Add _ => False
  | _ => True
  end.

(** The events that take task [i] from the settlement of its promise to
    the release of its slot. *)
Definition finish (i : nat) (r : Val + Err) (s : Sys) : list Event :=
  Settle i r :: Resume i :: (if 0 <? delayMs (self s) then [Timer i] else []).

(** A queue that runs one task at a time, without delay. *)
Definition one_at_a_time : Options := mkOptions (Some 1) None.

(** The state reached from a new queue by a sequence of events. *)
Definition reached (o : Options) (evs : list Event) : Sys :=
  snd (runState (handle_all evs) (constructor o)).

(** Two events that are the same, or that settle the promise of task [i]
    with possibly different results. *)
Definition same_but_result (i : nat) (e1 e2 : Event) : Prop :=
  e1 = e2 \/ exists r1 r2, e1 = Settle i r1 /\ e2 = Settle i r2.

(** Two states that differ at most in what the outcome promise of task [i]
    was settled with. *)
Definition agree_except (i : nat) (s1 s2 : Sys) : Prop :=
  self s1 = self s2 /\ next_id s1 = next_id s2 /\
  started s1 = started s2 /\ awaiting s1 = awaiting s2 /\
  resuming s1 = resuming s2 /\ delaying s1 = delaying s2 /\
  Forall2 (fun p q => fst p = fst q /\ (fst p <> i -> snd p = snd q))
          (settled s1) (settled s2).

(** What [resolve]/[reject] is called with when the promise of the task
    settles with [r]. *)
Definition outcome (r : Val + Err) : Settled :=
  match r with
  | inl v => Fulfilled v
  | inr e => Rejected e
  end.

(** The events [evs] with the task handed to the call of [add] number [i]
    replaced by [t]; [n] is the number of calls of [add] before [evs]. *)
Fixpoint with_task (i : nat) (t : TaskCall) (n : nat) (evs : list Event)
    : list Event :=
  match evs with
  | [] => []
  | Add t0 :: rest =>
      Add (if Nat.eqb n i then t else t0) :: with_task i t (S n) rest
  | ev :: rest => ev :: with_task i t n rest
  end.

(** The events [evs] of a run in which the promise of task [i] settles
    with [r] as soon as the task has been called: a settlement that is not
    awaited does nothing. *)
Definition settled_at_once (i : nat) (r : Val + Err) (evs : list Event)
    : list Event :=
  flat_map (fun ev => [ev; Settle i r]) evs.

(** Two states that differ at most in the task that the pending entry [i]
    holds and in what the outcome promise of task [i] was settled with. *)
Definition alike (i : nat) (s1 s2 : Sys) : Prop :=
  running (self s1) = running (self s2) /\
  concurrency (self s1) = concurrency (self s2) /\
  delayMs (self s1) = delayMs (self s2) /\
  Forall2 (fun x y => entry_id x = entry_id y /\
                      (entry_id x <> i -> entry_task x = entry_task y))
          (queue (self s1)) (queue (self s2)) /\
  next_id s1 = next_id s2 /\
  started s1 = started s2 /\ awaiting s1 = awaiting s2 /\
  resuming s1 = resuming s2 /\ delaying s1 = delaying s2 /\
  Forall2 (fun p q => fst p = fst q /\ (fst p <> i -> snd p = snd q))
          (settled s1) (settled s2).

(** What relates a run in which task [i] throws [e] to the run in which
    its promise settles at once. *)
Definition throws_or_settles (i : nat) (e : Err) (s1 s2 : Sys) : Prop :=
  alike i s1 s2 /\
  ~ In i (awaiting s2) /\
  Forall (fun x => entry_id x = i -> entry_task x = Throws e) (queue (self s1)) /\
  Forall (fun y => entry_id y = i -> entry_task y = Pending) (queue (self s2)) /\
  (forall x, In (i, x) (settled s1) -> x = Rejected e) /\
  (In i (started s1) -> In (i, Rejected e) (settled s1)).

(** The events that take task [i] from the end of its wrapper to the
    release of its slot. *)
Definition wind_up (i : nat) (s : Sys) : list Event :=
  Resume i :: (if 0 <? delayMs (self s) then [Timer i] else []).

End Model.

Arguments TaskCall : clear implicits.
Arguments Settled : clear implicits.
Arguments Completion : clear implicits.
Arguments Entry : clear implicits.
Arguments Queue : clear implicits.
Arguments Sys : clear implicits.
Arguments Event : clear implicits.

End TaskQueue.


(** ** StateManager

    [src/StateManager.ts].  A JavaScript object is the map from its
    property names to their values; the order of the properties, which
    only the text [JSON.stringify] writes could show, is not modelled.
    The file system maps a path to what it names: a file, a directory, or
    a node that cannot be accessed.  A path is the string the program
    hands to the file system: two spellings of one file are two paths, and
    the root and the working directory always exist.  [JSON.stringify] and
    [JSON.parse] are parameters of the model, as is the type of the text a
    file holds. *)

Module StateManager.

Import Stdlib.Strings.String.

Section Objects.

Context {V : Type}.

(** [{}] *)
Definition empty : string -> option V := fun _ => None.

(** [o[k]], for an own property *)
Definition lookup (k : string) (o : string -> option V) : option V := o k.

(** [o[k] = v], or a property [k: v] written last in an object literal. *)
Definition assign (k : string) (v : V) (o : string -> option V)
    : string -> option V :=
  fun k' => if (k' =? k)%string then Some v else o k'.

(** [{ ...a, ...b }] *)
Definition spread (a b : string -> option V) : string -> option V :=
  fun k => match b k with
           | Some v => Some v
           | None => a k
           end.

End Objects.

Section Paths.

Import Stdlib.Strings.Ascii.

(** [path.charCodeAt (i) === 47] *)
Definition is_slash (p : string) (i : nat) : bool :=
  match get i p with
  | Some c => Ascii.eqb c "/"%char
  | None => false
  end.

(** The loop of [dirname] in the module [path] (POSIX): from index [i]
    down to 1, the index of the slash that ends the directory part. *)
Fixpoint dirname_end (p : string) (i : nat) (matchedSlash : bool) : option nat :=
  match i with
  | O => None
  | S j =>
      if is_slash p i then
        if matchedSlash then dirname_end p j true else Some i
      else dirname_end p j false
  end.

(** [dirname (p)] *)
Definition dirname (p : string) : string :=
  if Nat.eqb (length p) 0 then "."
  else
    let hasRoot := is_slash p 0 in
    match dirname_end p (length p - 1) true with
    | None => if hasRoot then "/" else "."
    | Some e => if hasRoot && Nat.eqb e 1 then "//" else substring 0 e p
    end.

(** The paths that are their own directory: ["/"] and ["."]. *)
Definition is_root (p : string) : bool := (dirname p =? p)%string.

End Paths.

Section Files.

(** The text of a file. *)
Context {Text : Type}.

Inductive Node : Type :=
| File (content : Text)
| Dir
| Broken (code : string).      (* every access fails with this error code *)

Inductive Error : Type :=
| FsError (code : string)      (* an error of [fs/promises], with its [code] *)
| SyntaxError                  (* thrown by [JSON.parse]; it has no [code] *)
| TypeError.                   (* a property read on [null] or [undefined] *)

(** The process and what surrounds it: the files, the clock, and for the
    heartbeat the checks called and the failures written to the console,
    oldest first. *)
Record World : Type := mkWorld {
  files   : string -> option Node;
  clock   : Env;
  invoked : list string;
  logged  : list string
}.

Definition set_files (f : string -> option Node) (w : World) : World :=
  mkWorld f (clock w) (invoked w) (logged w).

(** What a path names; a root is a directory. *)
Definition node_at (fs : string -> option Node) (p : string) : option Node :=
  match lookup p fs with
  | Some n => Some n
  | None => if is_root p then Some Dir else None
  end.

(** Why nothing can be reached through [d], if so: [d] or a directory
    above it cannot be accessed, the first path going up from [d] that
    names anything names a file ([ENOTDIR]), or [d] is missing
    ([ENOENT]).  [fuel] bounds the way up by the length of the path
    ([blocked_fuel]). *)
Fixpoint blocked (fuel : nat) (d : string) (fs : string -> option Node)
    : option string :=
  match node_at fs d with
  | Some Dir => None
  | Some (File _) => Some "ENOTDIR"%string
  | Some (Broken code) => Some code
  | None =>
      match fuel with
      | O => Some "ENAMETOOLONG"%string
      | S n =>
          match blocked n (dirname d) fs with
          | Some code => Some code
          | None => Some "ENOENT"%string
          end
      end
  end.

(** [readFile (p, 'utf-8')] *)
Definition readFile (p : string) : state World (Error + Text) :=
  w <- MonadState.get ;;
  match node_at (files w) p with
  | Some (File c) => ret (inr c)
  | Some Dir => ret (inl (FsError "EISDIR"))
  | Some (Broken code) => ret (inl (FsError code))
  | None =>
      match blocked (S (length (dirname p))) (dirname p) (files w) with
      | Some code => ret (inl (FsError code))
      | None => ret (inl (FsError "ENOENT"))
      end
  end.

(** What [mkdir (d, { recursive: true })] does to the files: a directory
    that exists is left alone, a missing one is created after its parent,
    a file in the way is an error ([EEXIST] for [d] itself, [ENOTDIR] for
    a directory above it).  The recursion goes up one directory per step;
    [fuel] bounds it by the length of the path ([mkdir_fuel]). *)
Fixpoint mkdir_from (fuel : nat) (target : bool) (d : string)
    (fs : string -> option Node) : Error + (string -> option Node) :=
  match node_at fs d with
  | Some Dir => inr fs
  | Some (File _) => inl (FsError (if target then "EEXIST" else "ENOTDIR"))
  | Some (Broken code) => inl (FsError code)
  | None =>
      match fuel with
      | O => inl (FsError "ENAMETOOLONG")
      | S n =>
          match mkdir_from n false (dirname d) fs with
          | inl err => inl err
          | inr fs' => inr (assign d Dir fs')
          end
      end
  end.

(** [mkdir (d, { recursive: true })]; the empty path names nothing. *)
Definition mkdir (d : string) : state World (Error + unit) :=
  w <- MonadState.get ;;
  if (d =? "")%string then ret (inl (FsError "ENOENT"))
  else
    match mkdir_from (S (length d)) true d (files w) with
    | inl err => ret (inl err)
    | inr fs' => put (set_files fs' w) ;; ret (inr tt)
    end.

(** [writeFile (p, c, 'utf-8')]: the directory of [p] has to exist, and
    the empty path names nothing. *)
Definition writeFile (p : string) (c : Text) : state World (Error + unit) :=
  w <- MonadState.get ;;
  if (p =? "")%string then ret (inl (FsError "ENOENT"))
  else
    match blocked (S (length (dirname p))) (dirname p) (files w) with
    | Some code => ret (inl (FsError code))
    | None =>
        match node_at (files w) p with
        | Some Dir => ret (inl (FsError "EISDIR"))
        | Some (Broken code) => ret (inl (FsError code))
        | _ => put (set_files (assign p (File c) (files w)) w) ;; ret (inr tt)
        end
    end.

End Files.

Arguments Node : clear implicits.
Arguments World : clear implicits.

Section Manager.

Context {V Text : Type}.

(** [JSON.stringify (state, null, 2)] and [JSON.parse (content)];
    [None] when [JSON.parse] throws. *)
Variable stringify : (string -> option V) -> Text.
Variable parse : Text -> option ((string -> option V)).

Record Manager : Type := mkManager {
  path     : string;
  defaults : (string -> option V)
}.

(** [`${this.path}.tmp`] *)
Definition tempPath (m : Manager) : string := (path m ++ ".tmp")%string.

(** [get ()], lines 32-42. *)
Definition get (m : Manager) : state (World Text) (Error + (string -> option V)) :=
  r <- readFile (path m) ;;
  match r with
  | inr content =>
      match parse content with
      | Some parsed => ret (inr (spread (spread empty (defaults m)) parsed))
      | None => ret (inl SyntaxError)
      end
  | inl (FsError code) =>
      if (code =? "ENOENT")%string then ret (inr (spread empty (defaults m)))
      else ret (inl (FsError code))
  | inl err => ret (inl err)
  end.

(** [set (state)], lines 47-52. *)
Definition set (m : Manager) (st : (string -> option V))
    : state (World Text) (Error + unit) :=
  r <- mkdir (dirname (path m)) ;;
  match r with
  | inl err => ret (inl err)
  | inr _ =>
      r <- writeFile (tempPath m) (stringify st) ;;
      match r with
      | inl err => ret (inl err)
      | inr _ => writeFile (path m) (stringify st)
      end
  end.

(** [update (fn)], lines 57-61. *)
Definition update (m : Manager)
    (fn : (string -> option V) -> (string -> option V))
    : state (World Text) (Error + unit) :=
  r <- get m ;;
  match r with
  | inl err => ret (inl err)
  | inr current => set m (fn current)
  end.

(** [clear ()], lines 66-68. *)
Definition clear (m : Manager) : state (World Text) (Error + unit) :=
  set m (spread empty (defaults m)).

(** Going up from [d], the first path that names anything names a
    directory: nothing is in the way of [mkdir]. *)
Fixpoint clear_way (fuel : nat) (d : string) (fs : string -> option (Node Text))
    : Prop :=
  match node_at fs d with
  | Some Dir => True
  | Some _ => False
  | None =>
      match fuel with
      | O => False
      | S n => clear_way n (dirname d) fs
      end
  end.

(** The state can be read: nothing is in the way of the directory of the
    state path, and the state path names nothing or a file that parses. *)
Definition readable (m : Manager) (w : World Text) : Prop :=
  clear_way (S (length (dirname (path m)))) (dirname (path m)) (files w) /\
  match node_at (files w) (path m) with
  | None => True
  | Some (File c) => parse c <> None
  | Some _ => False
  end.

(** The state can be read and written: moreover the temporary path names
    nothing or a file, it is in the directory of the state path (the
    state path does not end in a slash), and the state path is not
    empty. *)
Definition healthy (m : Manager) (w : World Text) : Prop :=
  readable m w /\
  match node_at (files w) (tempPath m) with
  | None => True
  | Some (File _) => True
  | Some _ => False
  end /\
  dirname (tempPath m) = dirname (path m) /\
  path m <> ""%string.

(** What a successful [get] returns: the stored properties over the
    defaults. *)
Definition merged (m : Manager) (st : (string -> option V)) (k : string)
    : option V :=
  match lookup k st with
  | Some v => Some v
  | None => lookup k (defaults m)
  end.

End Manager.

Arguments Manager : clear implicits.

(** An ideal codec, for running the model: the text of a file is the
    object it stands for, or a text that does not parse. *)
Definition ideal_stringify {V : Type} (o : string -> option V)
    : option (string -> option V) := Some o.
Definition ideal_parse {V : Type} (t : option (string -> option V))
    : option (string -> option V) := t.

(** No file and no directory at all, the clock still at 1000. *)
Definition no_files {Text : Type} : World Text :=
  mkWorld (fun _ => None) (mkEnv 1000 (fun _ => 0) 0 []) [] [].

(** The manager of the tests: one property [count], [0] by default. *)
Definition count_manager : Manager Z :=
  mkManager "/tmp/test-state.json" (assign "count" 0 empty).
Definition count_42 : string -> option Z := assign "count" 42 empty.
Definition count_10 : string -> option Z := assign "count" 10 empty.
Definition count (s : string -> option Z) : option Z := s "count"%string.
Definition add_5 (s : string -> option Z) : string -> option Z :=
  match s "count"%string with
  | Some n => assign "count" (n + 5) empty
  | None => empty
  end.

(** The errors of a path through a file, and of [mkdir] on a file. *)
Definition ENOTDIR : Error := FsError "ENOTDIR".
Definition EEXIST : Error := FsError "EEXIST".

(** A file where the directory of the state path should be. *)
Definition file_in_the_way {Text : Type} (c : Text) : World Text :=
  mkWorld (assign "/tmp" (File c) empty) (mkEnv 1000 (fun _ => 0) 0 []) [] [].

End StateManager.

(** ** HeartbeatManager

    [src/HeartbeatManager.ts].  A check is a function of the caller; the
    model takes, for each entry of the list handed to [run], what its
    call does in that run.  The property [lastChecks] of the state is, as
    [JSON.parse] can give it, [null] or an object whose own properties
    are numbers; an object also has the properties every object inherits
    from [Object.prototype]. *)

Module HeartbeatManager.

Import Stdlib.Strings.String.
Import StateManager.

(** The result of [await config.check ()]. *)
Inductive CheckOutcome : Type :=
| Resolves (needsAttention : bool)
| Rejects.

Record CheckConfig : Type := mkCheck {
  id         : string;
  intervalMs : Z;
  check      : CheckOutcome;
  message    : option string
}.

(** [lastChecks: Record<string, number>], or [null], and
    [HeartbeatState]. *)
Inductive LastChecks : Type :=
| Null
| Times (own : string -> option Z).

Definition HeartbeatState : Type := string -> option LastChecks.

(** The names of the properties of [Object.prototype]: functions, and
    for [__proto__] the prototype itself. *)
Definition Object_prototype : list string :=
  [ "constructor"; "__defineGetter__"; "__defineSetter__"; "hasOwnProperty";
    "__lookupGetter__"; "__lookupSetter__"; "isPrototypeOf";
    "propertyIsEnumerable"; "toString"; "valueOf"; "__proto__";
    "toLocaleString" ]%string.

Definition inherited (i : string) : bool :=
  existsb (String.eqb i) Object_prototype.

(** What [lastChecks[i]] evaluates to: [undefined], a number, or a member
    of [Object.prototype], which is truthy and not a number. *)
Inductive Member : Type :=
| Undefined
| Number (n : Z)
| Inherited.

(** [r[i]] on an object [r] whose own properties are numbers: the own
    property, else the inherited one, else [undefined]. *)
Definition member (r : string -> option Z) (i : string) : Member :=
  match lookup i r with
  | Some n => Number n
  | None => if inherited i then Inherited else Undefined
  end.

(** [v || 0] *)
Definition or_zero (v : Member) : Member :=
  match v with
  | Undefined => Number 0
  | Number n => if n =? 0 then Number 0 else Number n
  | Inherited => Inherited
  end.

(** [!v] *)
Definition falsy (v : Member) : bool :=
  match v with
  | Undefined => true
  | Number n => n =? 0
  | Inherited => false
  end.

(** [a - v]; [None] is [NaN]. *)
Definition minus (a : Z) (v : Member) : option Z :=
  match v with
  | Number n => Some (a - n)
  | Undefined => None
  | Inherited => None
  end.

(** [a < b] and [a > b]: comparisons with [NaN] are false. *)
Definition less (a : option Z) (b : Z) : bool :=
  match a with
  | Some x => x <? b
  | None => false
  end.
Definition greater (a : option Z) (b : Z) : bool :=
  match a with
  | Some x => b <? x
  | None => false
  end.

Section Heartbeat.

Context {Text : Type}.
Variable stringify : HeartbeatState -> Text.
Variable parse : Text -> option HeartbeatState.

(** [constructor (statePath)], lines 59-63. *)
Definition constructor (statePath : string) : Manager LastChecks :=
  mkManager statePath (assign "lastChecks" (Times empty) empty).

(** [Date.now ()] *)
Definition Date_now : state (World Text) Z :=
  w <- MonadState.get ;;
  let r := env_read (clock w) in
  put (mkWorld (files w) (snd r) (invoked w) (logged w)) ;;
  ret (fst r).

(** The call of [config.check] and [console.error], as the trace they
    leave. *)
Definition call_check (i : string) : state (World Text) unit :=
  w <- MonadState.get ;;
  put (mkWorld (files w) (clock w) (invoked w ++ [i]) (logged w)).
Definition console_error (i : string) : state (World Text) unit :=
  w <- MonadState.get ;;
  put (mkWorld (files w) (clock w) (invoked w) (logged w ++ [i])).

(** [s.lastChecks[i]]: a [TypeError] when [s.lastChecks] is [null] or
    [undefined]; an own property, else an inherited one, else
    [undefined]. *)
Definition lastChecks_at (s : HeartbeatState) (i : string)
    : Error + Member :=
  match lookup "lastChecks" s with
  | Some (Times r) => inr (member r i)
  | Some Null => inl TypeError
  | None => inl TypeError
  end.

(** [{ ...s, lastChecks: { ...s.lastChecks, [i]: t } }]; spreading
    [null] or [undefined] gives no property, and a spread copies own
    properties only. *)
Definition stamp (i : string) (t : Z) (s : HeartbeatState) : HeartbeatState :=
  let old := match lookup "lastChecks" s with
             | Some (Times r) => r
             | Some Null => empty
             | None => empty
             end in
  assign "lastChecks" (Times (assign i t (spread empty old))) (spread empty s).

(** [config.message || `Check '${config.id}' needs attention`] *)
Definition alert_of (c : CheckConfig) : string :=
  match message c with
  | Some m => if (m =? "")%string
              then ("Check '" ++ id c ++ "' needs attention")%string
              else m
  | None => ("Check '" ++ id c ++ "' needs attention")%string
  end.

(** The body of [for (const config of checks)], lines 74-102. *)
Fixpoint run_loop (m : Manager LastChecks) (st : HeartbeatState) (now : Z)
    (checks : list CheckConfig) (alerts : list string)
    : state (World Text) (Error + list string) :=
  match checks with
  | [] => ret (inr alerts)
  | config :: rest =>
      match lastChecks_at st (id config) with
      | inl err => ret (inl err)
      | inr member =>
          let lastCheck := or_zero member in
          let elapsed := minus now lastCheck in
          if less elapsed (intervalMs config) then run_loop m st now rest alerts
          else
            call_check (id config) ;;
            match check config with
            | Resolves needsAttention =>
                r <- update stringify parse m (stamp (id config) now) ;;
                match r with
                | inr _ =>
                    run_loop m st now rest
                      (if needsAttention then alerts ++ [alert_of config]
                       else alerts)
                | inl _ =>
                    console_error (id config) ;;
                    run_loop m st now rest alerts
                end
            | Rejects =>
                console_error (id config) ;;
                run_loop m st now rest alerts
            end
      end
  end.

(** [run (checks)], lines 69-105. *)
Definition run (m : Manager LastChecks) (checks : list CheckConfig)
    : state (World Text) (Error + list string) :=
  r <- get parse m ;;
  match r with
  | inl err => ret (inl err)
  | inr st =>
      now <- Date_now ;;
      run_loop m st now checks []
  end.

(** [resetCheck (id)], lines 110-118. *)
Definition resetCheck (m : Manager LastChecks) (i : string)
    : state (World Text) (Error + unit) :=
  update stringify parse m (stamp i 0).

(** [getNextCheckTime (id, intervalMs)], lines 123-135. *)
Definition getNextCheckTime (m : Manager LastChecks) (i : string) (interval : Z)
    : state (World Text) (Error + Z) :=
  r <- get parse m ;;
  match r with
  | inl err => ret (inl err)
  | inr st =>
      match lastChecks_at st i with
      | inl err => ret (inl err)
      | inr lastCheck =>
          if falsy lastCheck then ret (inr 0)
          else
            now <- Date_now ;;
            let elapsed := minus now lastCheck in
            let remaining := option_map (fun e => interval - e) elapsed in
            ret (inr (if greater remaining 0
                      then match remaining with
                           | Some x => x
                           | None => 0
                           end
                      else 0))
      end
  end.

(** What the file records for the check [i], as [run] reads it;
    [undefined] when the state cannot be read. *)
Definition recorded (m : Manager LastChecks) (w : World Text) (i : string)
    : Member :=
  match fst (runState (get parse m) w) with
  | inr st => match lastChecks_at st i with
              | inr v => v
              | inl _ => Undefined
              end
  | inl _ => Undefined
  end.

(** A check is due at time [now] unless less than its interval has passed
    since the time recorded for it. *)
Definition due (m : Manager LastChecks) (w : World Text) (now : Z) (c : CheckConfig)
    : bool :=
  negb (less (minus now (or_zero (recorded m w (id c)))) (intervalMs c)).

Definition resolved (c : CheckConfig) : bool :=
  match check c with
  | Resolves _ => true
  | Rejects => false
  end.

Definition alarming (c : CheckConfig) : bool :=
  match check c with
  | Resolves b => b
  | Rejects => false
  end.

(** The state file, when there is one, does not hold
    [lastChecks: null]. *)
Definition well_formed (m : Manager LastChecks) (w : World Text) : Prop :=
  match node_at (files w) (path m) with
  | Some (File c) =>
      match parse c with
      | Some st => lookup "lastChecks" st <> Some Null
      | None => True
      end
  | _ => True
  end.

(** The state can be read and written, and it is well formed. *)
Definition usable (m : Manager LastChecks) (w : World Text) : Prop :=
  healthy parse m w /\ well_formed m w.

(** The state can be read and is well formed, but it cannot be saved:
    the temporary path cannot be written. *)
Definition unwritable (m : Manager LastChecks) (w : World Text) (code : string)
    : Prop :=
  readable parse m w /\ well_formed m w /\
  lookup (tempPath m) (files w) = Some (Broken code) /\
  dirname (tempPath m) = dirname (path m).

End Heartbeat.

(** Three checks: one that raises an alert, one that fails, one whose
    interval has not passed at time 1000. *)
Definition sample_checks : list CheckConfig :=
  [ mkCheck "email" 100 (Resolves true) (Some "Alert!"%string);
    mkCheck "calendar" 100 Rejects None;
    mkCheck "disk" 5000 (Resolves false) None ].

Definition email_check : list CheckConfig :=
  [ mkCheck "email" 100 (Resolves true) (Some "Alert!"%string) ].

(** A check named like a member of [Object.prototype]. *)
Definition toString : string := "toString".
Definition toString_check : list CheckConfig :=
  [ mkCheck toString 5000 (Resolves true) None ].

(** A state file that does not parse. *)
Definition corrupt_path : string := "/tmp/heartbeat.json".
Definition corrupt_files : World (option HeartbeatState) :=
  mkWorld (assign corrupt_path (File None) empty)
          (mkEnv 1000 (fun _ => 0) 0 []) [] [].

(** No state yet, and a temporary path that cannot be written. *)
Definition EACCES : string := "EACCES".
Definition locked_files : World (option HeartbeatState) :=
  mkWorld (assign "/tmp" Dir
             (assign (corrupt_path ++ ".tmp") (Broken EACCES) empty))
          (mkEnv 1000 (fun _ => 0) 0 []) [] [].

(** A state file that holds [{ "lastChecks": null }]. *)
Definition null_files : World (option HeartbeatState) :=
  mkWorld (assign "/tmp" Dir
             (assign corrupt_path (File (Some (assign "lastChecks" Null empty)))
                     empty))
          (mkEnv 1000 (fun _ => 0) 0 []) [] [].

End HeartbeatManager.

(** * Properties of RateLimiter *)

Section RateLimiterFacts.

Import RateLimiter.

Lemma run_bind {S A B : Type} (m : state S A) (f : A -> state S B) (w : S) :
  runState (bind m f) w = runState (f (fst (runState m w))) (snd (runState m w)).
Proof. cbn. destruct (runState m w); reflexivity. Qed.

Lemma refill_run (w : World) :
  runState refill w =
  (tt,
   let t := next_reading w in
   let l := this w in
   let cfg := config l in
   let e' := snd (env_read (env w)) in
   if intervalMs cfg <=? t - lastRefill l
   then mkWorld (set_lastRefill t
                   (set_tokens (Z.min (tokensPerInterval cfg)
                                  (tokens l + (t - lastRefill l) / intervalMs cfg
                                              * tokensPerInterval cfg)) l)) e'
   else mkWorld l e').
Proof.
  unfold refill, next_reading. cbn.
  destruct (intervalMs (config (this w)) <=? _); reflexivity.
Qed.

Lemma after_refill_env (w : World) :
  env (after_refill w) = snd (env_read (env w)).
Proof.
  unfold after_refill. rewrite refill_run. cbn.
  destruct (_ <=? _); reflexivity.
Qed.

Lemma after_refill_config (w : World) :
  config (this (after_refill w)) = config (this w).
Proof.
  unfold after_refill. rewrite refill_run. cbn.
  destruct (_ <=? _); reflexivity.
Qed.

Lemma after_refill_lastAcquire (w : World) :
  lastAcquire (this (after_refill w)) = lastAcquire (this w).
Proof.
  unfold after_refill. rewrite refill_run. cbn.
  destruct (_ <=? _); reflexivity.
Qed.

(** C3. [refill] reads the clock once.  With a positive interval: when
    the time since [lastRefill] is at least [intervalMs] it sets [tokens]
    to [min (capacity, tokens + intervals * capacity)], where [intervals]
    is the number of whole intervals elapsed, and moves [lastRefill] to
    the reading itself, so the remainder of the division is dropped; when
    the elapsed time is smaller the limiter is unchanged. *)
Theorem refill_spec (w : World) :
  0 < intervalMs (config (this w)) ->
  let l := this w in
  let cfg := config l in
  let t := next_reading w in
  let elapsed := t - lastRefill l in
  let intervals := elapsed / intervalMs cfg in
  let l' := this (snd (runState refill w)) in
  now (env (snd (runState refill w))) = t /\
  (intervalMs cfg <= elapsed ->
     intervals * intervalMs cfg <= elapsed < (intervals + 1) * intervalMs cfg /\
     tokens l' = Z.min (tokensPerInterval cfg)
                       (tokens l + intervals * tokensPerInterval cfg) /\
     tokens l' <= tokensPerInterval cfg /\
     lastRefill l' = t /\
     lastAcquire l' = lastAcquire l /\ config l' = cfg) /\
  (elapsed < intervalMs cfg -> l' = l).
Proof.
  intros Hpos. cbn zeta. rewrite refill_run. cbn zeta.
  unfold next_reading.
  remember (fst (env_read (env w))) as t eqn:Et.
  remember (intervalMs (config (this w))) as I eqn:EI.
  assert (Hnow : forall l, now (env (mkWorld l (snd (env_read (env w))))) = t)
    by (intros; subst t; reflexivity).
  destruct (Z.leb_spec I (t - lastRefill (this w))) as [Hle | Hlt].
  - split; [apply Hnow | split; [intros _ | lia]].
    pose proof (Z.mul_div_le (t - lastRefill (this w)) I Hpos).
    pose proof (Z.mul_succ_div_gt (t - lastRefill (this w)) I Hpos).
    cbn [snd this tokens lastRefill lastAcquire config set_lastRefill set_tokens].
    repeat split; lia.
  - split; [apply Hnow | split; [lia | reflexivity]].
Qed.

Lemma consume_run (w : World) :
  runState consume w =
  (tt, mkWorld (set_lastAcquire (next_reading w)
                  (set_tokens (tokens (this w) - 1) (this w)))
               (snd (env_read (env w)))).
Proof. reflexivity. Qed.

(** [tryAcquire], in terms of the state after the refill. *)
Lemma tryAcquire_run (w : World) :
  runState tryAcquire w =
  let w1 := after_refill w in
  if 1 <=? tokens (this w1) then
    match truthy (minDelayMs (config (this w1))) with
    | Some d =>
        let w2 := mkWorld (this w1) (snd (env_read (env w1))) in
        if next_reading w1 - lastAcquire (this w1) <? d then (false, w2)
        else (true, snd (runState consume w2))
    | None => (true, snd (runState consume w1))
    end
  else (false, w1).
Proof.
  cbn zeta. unfold tryAcquire. rewrite run_bind.
  fold (after_refill w). remember (after_refill w) as w1 eqn:E1. clear E1.
  unfold next_reading. cbn.
  destruct (1 <=? tokens (this w1)); [ | reflexivity].
  destruct (truthy (minDelayMs (config (this w1)))) as [d | ]; cbn;
    [destruct (_ <? d) | ]; reflexivity.
Qed.

(** A call that finds a token and the spacing condition succeeds and
    takes the token. *)
Lemma tryAcquire_grants (w : World) :
  let w1 := after_refill w in
  let r := runState tryAcquire w in
  1 <= tokens (this w1) -> spaced (this w1) (next_reading w1) ->
  fst r = true /\ tokens (this (snd r)) = tokens (this w1) - 1.
Proof.
  cbn zeta. rewrite tryAcquire_run. cbn zeta. unfold spaced.
  remember (after_refill w) as w1 eqn:E1. clear E1.
  intros Htk. destruct (Z.leb_spec 1 (tokens (this w1))); [ | lia].
  destruct (truthy (minDelayMs (config (this w1)))) as [d | ].
  - intros Hd. destruct (Z.ltb_spec (next_reading w1 - lastAcquire (this w1)) d);
      [lia | split; reflexivity].
  - intros _. split; reflexivity.
Qed.

(** A call leaves the limiter as the refill left it, or with one token
    less. *)
Lemma tryAcquire_limiter (w : World) :
  let w1 := after_refill w in
  let l' := this (snd (runState tryAcquire w)) in
  l' = this w1 \/
  (1 <= tokens (this w1) /\ tokens l' = tokens (this w1) - 1 /\
   config l' = config (this w1)).
Proof.
  cbn zeta. rewrite tryAcquire_run. cbn zeta.
  remember (after_refill w) as w1 eqn:E1. clear E1.
  destruct (Z.leb_spec 1 (tokens (this w1))); [ | left; reflexivity].
  destruct (truthy (minDelayMs (config (this w1)))) as [d | ];
    [destruct (_ <? d); [left; reflexivity | ] | ];
    right; repeat split; assumption.
Qed.

(** C1. [tryAcquire] returns [true] exactly when, after the refill, at
    least one token is left and the spacing condition holds at the clock
    value it reads.  On [true] one token is taken and [lastAcquire] is the
    clock value read last; on [false] the limiter is as the refill left
    it. *)
Theorem tryAcquire_spec (w : World) :
  let w1 := after_refill w in
  let r := runState tryAcquire w in
  (fst r = true <->
     1 <= tokens (this w1) /\ spaced (this w1) (next_reading w1)) /\
  (fst r = true ->
     tokens (this (snd r)) = tokens (this w1) - 1 /\
     lastAcquire (this (snd r)) = now (env (snd r)) /\
     lastRefill (this (snd r)) = lastRefill (this w1) /\
     config (this (snd r)) = config (this w1)) /\
  (fst r = false -> this (snd r) = this w1).
Proof.
  cbn zeta. rewrite tryAcquire_run. cbn zeta. unfold spaced.
  remember (after_refill w) as w1 eqn:E1. clear E1.
  destruct (Z.leb_spec 1 (tokens (this w1))) as [Htk | Htk];
    [ destruct (truthy (minDelayMs (config (this w1)))) as [d | ];
      [ destruct (Z.ltb_spec (next_reading w1 - lastAcquire (this w1)) d)
          as [Hd | Hd] | ] | ];
    unfold next_reading in *; cbn in *;
    repeat split; intros; try discriminate; try lia; auto.
Qed.

(** The passes of [acquire], in terms of the state after the refill. *)
Lemma acquire_step_run (w : World) :
  let w1 := after_refill w in
  let rest (w2 : World) :=
    if 1 <=? tokens (this w2)
    then (Granted, snd (runState consume w2))
    else (WaitRefill (Z.max (intervalMs (config (this w2))
                             - (next_reading w2 - lastRefill (this w2))) 100),
          mkWorld (this w2) (snd (env_read (env w2)))) in
  runState acquire_step w =
  match truthy (minDelayMs (config (this w1))) with
  | Some d =>
      let since := next_reading w1 - lastAcquire (this w1) in
      let w2 := mkWorld (this w1) (snd (env_read (env w1))) in
      if since <? d then (WaitSpacing (d - since), w2) else rest w2
  | None => rest w1
  end.
Proof.
  cbn zeta. unfold acquire_step. rewrite run_bind.
  fold (after_refill w). remember (after_refill w) as w1 eqn:E1. clear E1.
  unfold acquire_after_refill, next_reading. cbn.
  destruct (truthy (minDelayMs (config (this w1)))) as [d | ]; cbn.
  - destruct (_ <? d); cbn; [reflexivity | ].
    destruct (1 <=? tokens (this w1)); reflexivity.
  - destruct (1 <=? tokens (this w1)); reflexivity.
Qed.

Lemma refill_bounded (cfg : Config) (w : World) :
  valid_config cfg -> bounded cfg (this w) -> bounded cfg (this (after_refill w)).
Proof.
  intros [Hcap Hint] [Hcfg Htk]. unfold after_refill. rewrite refill_run.
  cbn zeta. cbn [snd]. rewrite Hcfg.
  destruct (Z.leb_spec (intervalMs cfg) (next_reading w - lastRefill (this w)))
    as [Hle | Hlt]; [ | split; assumption].
  split; [exact Hcfg | ].
  cbn [this tokens set_lastRefill set_tokens].
  assert (1 <= (next_reading w - lastRefill (this w)) / intervalMs cfg)
    by (apply Z.div_le_lower_bound; lia).
  nia.
Qed.

Lemma tryAcquire_bounded (cfg : Config) (w : World) :
  valid_config cfg -> bounded cfg (this w) ->
  bounded cfg (this (snd (runState tryAcquire w))).
Proof.
  intros Hv Hb. pose proof (refill_bounded cfg w Hv Hb) as [Hc Ht].
  destruct (tryAcquire_limiter w) as [-> | (H1 & H2 & H3)].
  - split; assumption.
  - split; [congruence | lia].
Qed.

Lemma getTokens_run (w : World) :
  runState getTokens w = (tokens (this (after_refill w)), after_refill w).
Proof.
  unfold getTokens. rewrite run_bind. fold (after_refill w). reflexivity.
Qed.

Lemma acquire_step_bounded (cfg : Config) (w : World) :
  valid_config cfg -> bounded cfg (this w) ->
  bounded cfg (this (snd (runState acquire_step w))).
Proof.
  intros Hv Hb. pose proof (refill_bounded cfg w Hv Hb) as [Hc Ht].
  rewrite acquire_step_run. cbn zeta.
  remember (after_refill w) as w1 eqn:E1. clear E1.
  destruct (truthy (minDelayMs (config (this w1)))) as [d | ];
    [ destruct (_ <? d); [split; assumption | ] | ]; cbn;
    (destruct (Z.leb_spec 1 (tokens (this w1))); cbn; split; auto;
     unfold set_lastAcquire, set_tokens; cbn; lia).
Qed.

Lemma sleep_this (ms : Z) (w : World) :
  this (snd (runState (sleep ms) w)) = this w.
Proof. reflexivity. Qed.

Lemma acquire_bounded (cfg : Config) (fuel : nat) :
  valid_config cfg ->
  forall w, bounded cfg (this w) ->
  bounded cfg (this (snd (runState (acquire fuel) w))).
Proof.
  intros Hv. induction fuel as [ | fuel IH]; intros w Hb; [exact Hb | ].
  cbn [acquire]. rewrite run_bind.
  pose proof (acquire_step_bounded cfg w Hv Hb) as Hs.
  destruct (runState acquire_step w) as [r w']. cbn [fst snd] in *.
  destruct r as [ | ms | ms]; [exact Hs | | ];
    rewrite run_bind; apply IH; rewrite sleep_this; exact Hs.
Qed.

Lemma call_bounded (cfg : Config) (c : Call) (w : World) :
  valid_config cfg -> bounded cfg (this w) ->
  bounded cfg (this (snd (runState (call c) w))).
Proof.
  intros Hv Hb. destruct c; cbn [call]; rewrite run_bind; cbn [runState ret Monad_state snd].
  - apply tryAcquire_bounded; assumption.
  - rewrite getTokens_run. apply refill_bounded; assumption.
  - apply acquire_step_bounded; assumption.
  - apply acquire_bounded; assumption.
Qed.

Lemma calls_bounded (cfg : Config) (cs : list Call) :
  valid_config cfg ->
  forall w, bounded cfg (this w) ->
  bounded cfg (this (snd (runState (calls cs) w))).
Proof.
  intros Hv. induction cs as [ | c cs IH]; intros w Hb; [exact Hb | ].
  cbn [calls]. rewrite run_bind. apply IH. apply call_bounded; assumption.
Qed.

(** C2. For a limiter built from a configuration with positive capacity
    and interval, under any clock and after any sequence of [tryAcquire],
    [getTokens] and [acquire] activity, [0 <= tokens <= tokensPerInterval];
    the value [getTokens] reports there is within the same bounds. *)
Theorem tokens_bounded (cfg : Config) (e : Env) (cs : list Call) :
  valid_config cfg ->
  let w := snd (runState (calls cs) (constructor cfg e)) in
  0 <= tokens (this w) <= tokensPerInterval cfg /\
  0 <= fst (runState getTokens w) <= tokensPerInterval cfg.
Proof.
  intros Hv w.
  assert (Hb : bounded cfg (this w)).
  { apply calls_bounded; [exact Hv | ].
    split; [reflexivity | cbn; destruct Hv; lia]. }
  split; [apply Hb | ].
  rewrite getTokens_run. cbn [fst].
  apply (refill_bounded cfg w Hv Hb).
Qed.

(** C4, as the specification words it, fails: with an empty bucket and
    60000 ms left until the refill, the pass asks for a sleep of 60000 ms,
    not for the lesser of 60000 and the 100 ms floor. *)
Lemma acquire_wait_not_the_lesser :
  fst (runState acquire_step drained_world) = WaitRefill 60000 /\
  time_until_refill (snd (runState acquire_step drained_world)) = 60000 /\
  Z.min (time_until_refill (snd (runState acquire_step drained_world)))
        floor_wait <> 60000.
Proof. repeat split. discriminate. Qed.

(** C4, amended.  A pass of [acquire] ends in the empty-bucket wait
    exactly when, after the refill, less than one token is left and the
    spacing condition holds; the sleep it then asks for is the greater of
    the time left until the next refill and the floor of 100 ms, and the
    limiter is as the refill left it. *)
Theorem acquire_wait_refill (w : World) :
  let w1 := after_refill w in
  let r := runState acquire_step w in
  ((exists ms, fst r = WaitRefill ms) <->
     tokens (this w1) < 1 /\ spaced (this w1) (next_reading w1)) /\
  (forall ms, fst r = WaitRefill ms ->
     ms = Z.max (time_until_refill (snd r)) floor_wait /\
     this (snd r) = this w1).
Proof.
  cbn zeta. rewrite acquire_step_run. cbn zeta. unfold spaced, time_until_refill.
  remember (after_refill w) as w1 eqn:E1. clear E1.
  unfold next_reading, floor_wait.
  destruct (truthy (minDelayMs (config (this w1)))) as [d | ]; cbn;
    [ destruct (Z.ltb_spec (now (env w1) + elapse (env w1) (tick (env w1))
                            - lastAcquire (this w1)) d) as [Hd | Hd]; cbn | ];
    try (destruct (Z.leb_spec 1 (tokens (this w1))) as [Htk | Htk]; cbn);
    (split; [split; [intros [ms Hms]; try discriminate; split; lia
                    | intros [H1 H2]; try lia; eexists; reflexivity]
            | intros ms Hms; try discriminate; injection Hms as <-; split; reflexivity]).
Qed.

Lemma steady_after_refill (w : World) : steady w -> steady (after_refill w).
Proof.
  intros (He & Hr & Ha). unfold after_refill. rewrite refill_run. cbn zeta.
  unfold steady, next_reading. pose proof (He (tick (env w))).
  destruct (_ <=? _); cbn; repeat split; auto; lia.
Qed.

Lemma steady_read (l : Limiter) (w : World) :
  steady w -> this w = l -> steady (mkWorld l (snd (env_read (env w)))).
Proof.
  intros (He & Hr & Ha) <-. pose proof (He (tick (env w))).
  unfold steady; cbn; repeat split; auto; lia.
Qed.

Lemma acquire_step_steady (w : World) :
  steady w -> steady (snd (runState acquire_step w)).
Proof.
  intros Hs. apply steady_after_refill in Hs.
  rewrite acquire_step_run. cbn zeta.
  remember (after_refill w) as w1 eqn:E1. clear E1.
  assert (Hs2 := steady_read (this w1) w1 Hs eq_refl).
  destruct Hs as (He & Hr & Ha).
  pose proof (He (tick (env w1))). pose proof (He (S (tick (env w1)))).
  destruct (truthy (minDelayMs (config (this w1)))) as [d | ];
    [ destruct (_ <? d); [exact Hs2 | ] | ]; cbn;
    (destruct (1 <=? tokens (this w1)); unfold steady; cbn;
     repeat split; auto; lia).
Qed.

Lemma acquire_step_env (w : World) :
  let w' := snd (runState acquire_step w) in
  slept (env w') = slept (env w) /\ elapse (env w') = elapse (env w) /\
  config (this w') = config (this w).
Proof.
  cbn zeta. rewrite acquire_step_run. cbn zeta.
  pose proof (after_refill_env w) as He. pose proof (after_refill_config w) as Hc.
  remember (after_refill w) as w1 eqn:E1. clear E1.
  destruct (truthy (minDelayMs (config (this w1)))) as [d | ];
    [ destruct (_ <? d) | ]; cbn;
    try (destruct (1 <=? tokens (this w1)); cbn);
    rewrite ?He; cbn; auto.
Qed.

(** What one pass of [acquire] does, case by case. *)
Lemma acquire_step_spec (w : World) :
  let w1 := after_refill w in
  let r := runState acquire_step w in
  match fst r with
  | Granted =>
      1 <= tokens (this w1) /\
      tokens (this (snd r)) = tokens (this w1) - 1 /\
      lastAcquire (this (snd r)) = now (env (snd r))
  | WaitSpacing ms =>
      this (snd r) = this w1 /\ 0 < ms /\
      (steady w -> ms <= wait_bound (config (this w)))
  | WaitRefill ms =>
      this (snd r) = this w1 /\ 0 < ms /\
      (steady w -> ms <= wait_bound (config (this w)))
  end.
Proof.
  cbn zeta. rewrite acquire_step_run. cbn zeta.
  pose proof (steady_after_refill w) as Hs.
  rewrite <- (after_refill_config w).
  remember (after_refill w) as w1 eqn:E1. clear E1.
  unfold wait_bound, or_default, floor_wait, next_reading.
  destruct (truthy (minDelayMs (config (this w1)))) as [d | ]; cbn;
    [ destruct (Z.ltb_spec (now (env w1) + elapse (env w1) (tick (env w1))
                            - lastAcquire (this w1)) d) as [Hd | Hd]; cbn | ];
    try (destruct (Z.leb_spec 1 (tokens (this w1))) as [Htk | Htk]; cbn);
    repeat split; try lia;
    intros Hw; destruct (Hs Hw) as (He & Hr & Ha);
    pose proof (He (tick (env w1))); pose proof (He (S (tick (env w1)))); lia.
Qed.

Lemma sleep_steady (ms : Z) (w : World) :
  steady w -> steady (snd (runState (sleep ms) w)).
Proof.
  intros (He & Hr & Ha). unfold steady; cbn; repeat split; auto; lia.
Qed.

Lemma acquire_waits (fuel : nat) :
  forall w,
  let r := runState (acquire fuel) w in
  (fst r = Some tt ->
     exists w0, retries w w0 /\ runState acquire_step w0 = (Granted, snd r)) /\
  (exists waits,
     slept (env (snd r)) = slept (env w) ++ waits /\
     Forall (fun ms => 0 < ms) waits /\
     (steady w -> Forall (fun ms => ms <= wait_bound (config (this w))) waits)).
Proof.
  induction fuel as [ | fuel IH]; intros w; cbn zeta.
  - split; [discriminate | ].
    exists []. cbn. rewrite app_nil_r. repeat split; constructor.
  - cbn [acquire]. rewrite run_bind.
    pose proof (acquire_step_spec w) as Hstep.
    pose proof (acquire_step_env w) as (Hsl & _ & Hcf).
    pose proof (acquire_step_steady w) as Hst.
    cbn zeta in Hstep.
    destruct (runState acquire_step w) as [k w'] eqn:Ek. cbn [fst snd] in *.
    destruct k as [ | ms | ms].
    + split; [intros _; exists w; split; [constructor | exact Ek] | ].
      exists []. cbn. rewrite app_nil_r.
      repeat split; [congruence | constructor | constructor].
    + rewrite run_bind.
      destruct Hstep as (_ & Hpos & Hbound).
      specialize (IH (snd (runState (sleep ms) w'))).
      cbn zeta in IH. destruct IH as [IHa (waits & Hw1 & Hw2 & Hw3)].
      split; [intros Hsome; destruct (IHa Hsome) as (w0 & Hre & Hw0);
              exists w0; split; [ | exact Hw0];
              apply (retries_wait w w0 ms); rewrite Ek; cbn [fst snd]; auto | ].
      exists (ms :: waits). repeat split.
      * rewrite Hw1. cbn. rewrite Hsl, <- app_assoc. reflexivity.
      * constructor; assumption.
      * intros Hs. constructor; [auto | ].
        cbn in Hw3. rewrite Hcf in Hw3. apply Hw3.
        apply (sleep_steady ms w'). auto.
    + rewrite run_bind.
      destruct Hstep as (_ & Hpos & Hbound).
      specialize (IH (snd (runState (sleep ms) w'))).
      cbn zeta in IH. destruct IH as [IHa (waits & Hw1 & Hw2 & Hw3)].
      split; [intros Hsome; destruct (IHa Hsome) as (w0 & Hre & Hw0);
              exists w0; split; [ | exact Hw0];
              apply (retries_wait w w0 ms); rewrite Ek; cbn [fst snd]; auto | ].
      exists (ms :: waits). repeat split.
      * rewrite Hw1. cbn. rewrite Hsl, <- app_assoc. reflexivity.
      * constructor; assumption.
      * intros Hs. constructor; [auto | ].
        cbn in Hw3. rewrite Hcf in Hw3. apply Hw3.
        apply (sleep_steady ms w'). auto.
Qed.

(** C5. [acquire] returns only out of a pass that took exactly one token:
    the loop reached a state [w0] through passes that all ended in a
    sleep, and the pass from [w0] found at least one token after its
    refill, left one less and stamped [lastAcquire].  A pass that does not return leaves the tokens as the
    refill computed them.  Every duration [acquire] sleeps for is strictly
    positive, and under a clock that does not run backwards it is at most
    [wait_bound]: the largest of the refill interval, the 100 ms floor and
    the minimum delay. *)
Theorem acquire_spec (fuel : nat) (w : World) :
  let r := runState (acquire fuel) w in
  (fst r = Some tt ->
     exists w0,
       retries w w0 /\
       runState acquire_step w0 = (Granted, snd r) /\
       1 <= tokens (this (after_refill w0)) /\
       tokens (this (snd r)) = tokens (this (after_refill w0)) - 1 /\
       lastAcquire (this (snd r)) = now (env (snd r))) /\
  (forall w0 ms,
     fst (runState acquire_step w0) = WaitSpacing ms \/
     fst (runState acquire_step w0) = WaitRefill ms ->
     this (snd (runState acquire_step w0)) = this (after_refill w0) /\ 0 < ms) /\
  (exists waits,
     slept (env (snd r)) = slept (env w) ++ waits /\
     Forall (fun ms => 0 < ms) waits /\
     (steady w -> Forall (fun ms => ms <= wait_bound (config (this w))) waits)).
Proof.
  cbn zeta. destruct (acquire_waits fuel w) as [Hret Hwaits].
  split; [ | split; [ | exact Hwaits]].
  - intros Hsome. destruct (Hret Hsome) as (w0 & Hre & Hw0). exists w0.
    pose proof (acquire_step_spec w0) as Hstep. cbn zeta in Hstep.
    rewrite Hw0 in Hstep. cbn [fst snd] in Hstep.
    split; [exact Hre | split; [exact Hw0 | exact Hstep]].
  - intros w0 ms Hk. pose proof (acquire_step_spec w0) as Hstep.
    cbn zeta in Hstep. destruct Hk as [Hk | Hk]; rewrite Hk in Hstep;
      split; apply Hstep.
Qed.

Lemma acquire_step_split (w : World) :
  runState acquire_step w = runState acquire_after_refill (after_refill w).
Proof. unfold acquire_step. rewrite run_bind. reflexivity. Qed.

(** Progress of a pass after its refill, under a clock that does not run
    backwards: a spacing wait establishes the spacing condition, which a
    pass that starts with it keeps; a refill wait makes the refill due;
    with the spacing condition and a token the pass admits. *)
Lemma after_refill_progress (w1 : World) :
  honest w1 ->
  let r := runState acquire_after_refill w1 in
  match fst r with
  | Granted => True
  | WaitSpacing ms => spacing_ok (after_sleep ms (snd r))
  | WaitRefill ms =>
      spacing_ok (after_sleep ms (snd r)) /\ refill_due (after_sleep ms (snd r))
  end /\
  (spacing_ok w1 -> forall ms, fst r <> WaitSpacing ms) /\
  (spacing_ok w1 -> 1 <= tokens (this w1) -> fst r = Granted).
Proof.
  intros He. cbn zeta.
  pose proof (He (tick (env w1))) as H0.
  pose proof (He (S (tick (env w1)))) as H1.
  unfold acquire_after_refill, spacing_ok, refill_due, spaced, after_sleep.
  cbn.
  destruct (truthy (minDelayMs (config (this w1)))) as [d | ] eqn:Ed; cbn;
    [ destruct (Z.ltb_spec (now (env w1) + elapse (env w1) (tick (env w1))
                            - lastAcquire (this w1)) d) as [Hd | Hd]; cbn | ];
    try (destruct (Z.leb_spec 1 (tokens (this w1))) as [Ht | Ht]; cbn);
    rewrite ?Ed; repeat split; intros; try discriminate; try lia.
Qed.

Lemma acquire_unfold (fuel : nat) (w : World) :
  runState (acquire (S fuel)) w =
  let r := runState acquire_step w in
  match fst r with
  | Granted => (Some tt, snd r)
  | WaitSpacing ms => runState (acquire fuel) (after_sleep ms (snd r))
  | WaitRefill ms => runState (acquire fuel) (after_sleep ms (snd r))
  end.
Proof.
  cbn [acquire]. rewrite run_bind. cbn zeta.
  destruct (fst (runState acquire_step w)); try rewrite run_bind; reflexivity.
Qed.

Lemma honest_after_refill (w : World) : honest w -> honest (after_refill w).
Proof.
  unfold honest. rewrite after_refill_env. cbn. auto.
Qed.

Lemma spacing_ok_after_refill (w : World) :
  honest w -> spacing_ok w -> spacing_ok (after_refill w).
Proof.
  intros He. unfold spacing_ok, spaced.
  rewrite after_refill_config, after_refill_lastAcquire, after_refill_env.
  pose proof (He (tick (env w))). cbn.
  destruct (truthy _); [lia | auto].
Qed.

Lemma refill_due_tokens (cfg : Config) (w : World) :
  valid_config cfg -> bounded cfg (this w) -> honest w -> refill_due w ->
  1 <= tokens (this (after_refill w)).
Proof.
  intros [Hcap Hint] [Hcfg Htk] He Hdue. unfold refill_due in Hdue.
  unfold after_refill. rewrite refill_run. cbn zeta. cbn [snd].
  rewrite Hcfg in *. pose proof (He (tick (env w))) as H0.
  assert (Hle : intervalMs cfg <= next_reading w - lastRefill (this w))
    by (unfold next_reading; cbn; lia).
  destruct (Z.leb_spec (intervalMs cfg) (next_reading w - lastRefill (this w)));
    [ | lia].
  cbn [this tokens set_lastRefill set_tokens].
  assert (1 <= (next_reading w - lastRefill (this w)) / intervalMs cfg)
    by (apply Z.div_le_lower_bound; lia).
  nia.
Qed.

Lemma refill_keeps_tokens (cfg : Config) (w : World) :
  valid_config cfg -> bounded cfg (this w) ->
  tokens (this w) <= tokens (this (after_refill w)).
Proof.
  intros [Hcap Hint] [Hcfg Htk].
  unfold after_refill. rewrite refill_run. cbn zeta. cbn [snd].
  rewrite Hcfg in *.
  destruct (Z.leb_spec (intervalMs cfg) (next_reading w - lastRefill (this w)));
    [ | cbn; lia].
  cbn [this tokens set_lastRefill set_tokens].
  assert (1 <= (next_reading w - lastRefill (this w)) / intervalMs cfg)
    by (apply Z.div_le_lower_bound; lia).
  nia.
Qed.

Lemma after_sleep_honest (ms : Z) (w : World) :
  honest w -> honest (after_sleep ms w).
Proof. intros He. exact He. Qed.

Lemma acquire_step_honest (w : World) :
  honest w -> honest (snd (runState acquire_step w)).
Proof.
  unfold honest. destruct (acquire_step_env w) as (_ & -> & _). auto.
Qed.

(** With the spacing condition and a due refill the next pass admits. *)
Lemma acquire_returns_1 (cfg : Config) (fuel : nat) (w : World) :
  valid_config cfg -> bounded cfg (this w) -> honest w ->
  spacing_ok w -> refill_due w ->
  fst (runState (acquire (S fuel)) w) = Some tt.
Proof.
  intros Hv Hb He Hsp Hdue. rewrite acquire_unfold. cbn zeta.
  rewrite acquire_step_split.
  destruct (after_refill_progress (after_refill w) (honest_after_refill w He))
    as (_ & _ & Hadm).
  rewrite Hadm; [reflexivity | | ].
  - apply spacing_ok_after_refill; assumption.
  - apply (refill_due_tokens cfg); assumption.
Qed.

(** With the spacing condition, at most one refill wait is needed. *)
Lemma acquire_returns_2 (cfg : Config) (fuel : nat) (w : World) :
  valid_config cfg -> bounded cfg (this w) -> honest w ->
  spacing_ok w ->
  fst (runState (acquire (S (S fuel))) w) = Some tt.
Proof.
  intros Hv Hb He Hsp. rewrite acquire_unfold. cbn zeta.
  pose proof (acquire_step_bounded cfg w Hv Hb) as Hb'.
  pose proof (acquire_step_honest w He) as He'.
  rewrite acquire_step_split in *.
  destruct (after_refill_progress (after_refill w) (honest_after_refill w He))
    as (Hcase & Hnsp & _).
  specialize (Hnsp (spacing_ok_after_refill w He Hsp)).
  destruct (runState acquire_after_refill (after_refill w)) as [k w'].
  cbn [fst snd] in *.
  destruct k as [ | ms | ms].
  - reflexivity.
  - exfalso. apply (Hnsp ms). reflexivity.
  - destruct Hcase as [Hsp' Hdue'].
    apply (acquire_returns_1 cfg); auto.
Qed.

(** X19. Liveness of [acquire]: for a valid configuration and a clock that does
    not run backwards, an uncontended call returns within three passes. *)
Theorem acquire_returns (cfg : Config) (fuel : nat) (w : World) :
  valid_config cfg -> bounded cfg (this w) -> honest w ->
  fst (runState (acquire (S (S (S fuel)))) w) = Some tt.
Proof.
  intros Hv Hb He. rewrite acquire_unfold. cbn zeta.
  pose proof (acquire_step_bounded cfg w Hv Hb) as Hb'.
  pose proof (acquire_step_honest w He) as He'.
  rewrite acquire_step_split in *.
  destruct (after_refill_progress (after_refill w) (honest_after_refill w He))
    as (Hcase & _ & _).
  destruct (runState acquire_after_refill (after_refill w)) as [k w'].
  cbn [fst snd] in *.
  destruct k as [ | ms | ms].
  - reflexivity.
  - apply (acquire_returns_2 cfg); auto.
  - destruct Hcase as [Hsp' Hdue'].
    apply (acquire_returns_1 cfg); auto.
Qed.

Lemma tryAcquire_times_unfold (n : nat) (w : World) :
  runState (tryAcquire_times (S n)) w =
  let r := runState tryAcquire w in
  let rs := runState (tryAcquire_times n) (snd r) in
  (fst r :: fst rs, snd rs).
Proof.
  cbn [tryAcquire_times]. rewrite run_bind. cbn zeta.
  rewrite run_bind. reflexivity.
Qed.

Lemma tryAcquire_times_all (cfg : Config) (n : nat) :
  valid_config cfg -> truthy (minDelayMs cfg) = None ->
  forall w, bounded cfg (this w) -> Z.of_nat n <= tokens (this w) ->
  fst (runState (tryAcquire_times n) w) = repeat true n.
Proof.
  intros Hv Hnone. induction n as [ | n IH]; intros w Hb Hn; [reflexivity | ].
  rewrite tryAcquire_times_unfold. cbn zeta. cbn [fst repeat].
  pose proof (refill_keeps_tokens cfg w Hv Hb) as Hkeep.
  pose proof (tryAcquire_bounded cfg w Hv Hb) as Hb'.
  destruct (tryAcquire_grants w) as [Hadm Htk].
  - lia.
  - unfold spaced. rewrite after_refill_config.
    destruct Hb as [-> _]. rewrite Hnone. exact I.
  - rewrite Hadm. f_equal. apply IH; [exact Hb' | ].
    rewrite Htk. lia.
Qed.

(** C10, as worded, fails: with a minimum delay configured, the second of
    two immediate calls on a fresh limiter of capacity 2 is denied, on a
    clock whose value (1000) is above the minimum delay (100). *)
Lemma fresh_burst_denied_by_spacing :
  fst (runState (tryAcquire_times 2) (constructor spaced_cfg still_env))
  = [true; false].
Proof. reflexivity. Qed.

(** C10, amended.  A fresh limiter has a full bucket and [lastAcquire = 0].
    For a valid configuration, its first [tryAcquire] returns [true]
    whenever the clock value read for the spacing test is at least the
    configured minimum delay; and when no minimum delay is configured,
    [tokensPerInterval] consecutive calls of [tryAcquire] all return
    [true], whatever time passes between them. *)
Theorem fresh_limiter_grants (cfg : Config) (e : Env) :
  valid_config cfg ->
  let w := constructor cfg e in
  let c := Z.to_nat (tokensPerInterval cfg) in
  tokens (this w) = tokensPerInterval cfg /\
  lastAcquire (this w) = 0 /\
  (match truthy (minDelayMs cfg) with
   | Some d => d <= next_reading (after_refill w)
   | None => True
   end -> fst (runState tryAcquire w) = true) /\
  (truthy (minDelayMs cfg) = None ->
   fst (runState (tryAcquire_times c) w) = repeat true c).
Proof.
  intros Hv w c.
  assert (Hb : bounded cfg (this w))
    by (split; [reflexivity | cbn; destruct Hv; lia]).
  split; [reflexivity | split; [reflexivity | split]].
  - intros Hsp. apply (tryAcquire_grants w).
    + pose proof (refill_keeps_tokens cfg w Hv Hb) as Hkeep.
      cbn [w constructor this tokens] in Hkeep. destruct Hv. lia.
    + unfold spaced.
      rewrite after_refill_config, after_refill_lastAcquire.
      cbn [w constructor this config lastAcquire].
      destruct (truthy (minDelayMs cfg)); [lia | exact I].
  - intros Hnone. apply (tryAcquire_times_all cfg); auto.
    cbn [w constructor this tokens]. unfold c. destruct Hv. lia.
Qed.

(** [steady] is an invariant of the limiter: it holds at construction on
    a clock that shows a non-negative time and never runs backwards, and
    every operation keeps it, so the bound on the waits of [acquire]
    applies to every call a program can make under such a clock. *)
Lemma constructor_steady (cfg : Config) (e : Env) :
  (forall k, 0 <= elapse e k) -> 0 <= now e -> steady (constructor cfg e).
Proof.
  intros He Hnow. pose proof (He (tick e)).
  unfold steady; cbn; repeat split; auto; lia.
Qed.

Lemma tryAcquire_steady (w : World) :
  steady w -> steady (snd (runState tryAcquire w)).
Proof.
  intros Hs. apply steady_after_refill in Hs.
  unfold tryAcquire. rewrite run_bind. fold (after_refill w).
  remember (after_refill w) as w1 eqn:E1. clear E1.
  destruct Hs as (He & Hr & Ha).
  pose proof (He (tick (env w1))). pose proof (He (S (tick (env w1)))).
  cbn. destruct (1 <=? tokens (this w1)); cbn;
    [ destruct (truthy (minDelayMs (config (this w1)))) as [d | ]; cbn;
      [ destruct (_ <? d); cbn | ] | ];
    unfold steady; cbn; repeat split; auto; lia.
Qed.

Lemma acquire_steady (fuel : nat) :
  forall w, steady w -> steady (snd (runState (acquire fuel) w)).
Proof.
  induction fuel as [ | fuel IH]; intros w Hs; [exact Hs | ].
  rewrite acquire_unfold. cbn zeta.
  pose proof (acquire_step_steady w Hs) as Hs'.
  destruct (fst (runState acquire_step w)); [exact Hs' | | ];
    apply IH, sleep_steady, Hs'.
Qed.

Lemma calls_steady (cs : list Call) :
  forall w, steady w -> steady (snd (runState (calls cs) w)).
Proof.
  induction cs as [ | c cs IH]; intros w Hs; [exact Hs | ].
  cbn [calls]. rewrite run_bind. apply IH.
  destruct c; cbn [call]; rewrite run_bind; cbn [runState ret Monad_state snd].
  - apply tryAcquire_steady, Hs.
  - rewrite getTokens_run. apply steady_after_refill, Hs.
  - apply acquire_step_steady, Hs.
  - apply acquire_steady, Hs.
Qed.

(** The tests of the repository, run on the model. *)

Example allows_requests_up_to_token_limit :
  fst (runState (tryAcquire_times 4) (constructor burst_cfg still_env))
  = [true; true; true; false].
Proof. reflexivity. Qed.

Example refills_tokens_over_time :
  fst (runState (tryAcquire_times 4) (constructor refill_cfg pause_env))
  = [true; true; false; true].
Proof. reflexivity. Qed.

Example enforces_minimum_delay :
  let r := runState (a <- acquire 3 ;; b <- acquire 3 ;; ret (a, b))
                    (constructor delay_cfg still_env) in
  fst r = (Some tt, Some tt) /\
  slept (env (snd r)) = [100] /\ now (env (snd r)) - now still_env = 100.
Proof. repeat split. Qed.

Example blocks_until_tokens_are_available :
  let r := runState (a <- acquire 3 ;; b <- acquire 3 ;; ret (a, b))
                    (constructor block_cfg still_env) in
  fst r = (Some tt, Some tt) /\
  slept (env (snd r)) = [200] /\ now (env (snd r)) - now still_env = 200.
Proof. repeat split. Qed.

(** A refill that is due: the bucket is filled and [lastRefill] moves to
    the reading, 1250, not to the interval boundary, 1200. *)
Lemma refill_spec_witness :
  0 < intervalMs (config (this due_world)) /\
  tokens (this (snd (runState refill due_world))) = 2 /\
  lastRefill (this (snd (runState refill due_world))) = 1250.
Proof.
  split; [reflexivity | ].
  destruct (refill_spec due_world eq_refl) as (_ & Hdue & _).
  destruct Hdue as (_ & Htokens & _ & Hlast & _); [discriminate | ].
  split; [exact Htokens | exact Hlast].
Defined.

(** The bound after a mixed sequence of calls. *)
Lemma tokens_bounded_witness :
  valid_config spaced_cfg /\
  0 <= tokens (this (snd (runState
                            (calls [TryAcquire; GetTokens; AcquirePass; Acquire 3])
                            (constructor spaced_cfg still_env)))) <= 2.
Proof.
  split; [split; reflexivity | ].
  exact (proj1 (tokens_bounded spaced_cfg still_env
                  [TryAcquire; GetTokens; AcquirePass; Acquire 3]
                  (conj eq_refl eq_refl))).
Defined.

(** Three calls on a fresh limiter of capacity 3 without minimum delay. *)
Lemma fresh_limiter_grants_witness :
  valid_config burst_cfg /\
  fst (runState (tryAcquire_times 3) (constructor burst_cfg still_env))
  = [true; true; true].
Proof.
  split; [split; reflexivity | ].
  destruct (fresh_limiter_grants burst_cfg still_env (conj eq_refl eq_refl))
    as (_ & _ & _ & Hall).
  exact (Hall eq_refl).
Defined.

End RateLimiterFacts.

(** * Further properties of RateLimiter *)

Section RateLimiterMore.

Import RateLimiter.

Lemma div_shift (a b i : Z) : 0 < i -> i <= b -> a / i + 1 <= (a + b) / i.
Proof.
  intros Hi Hb. replace (a / i + 1) with ((a + 1 * i) / i)
    by (rewrite Z.div_add; lia).
  apply Z.div_le_mono; lia.
Qed.

(** A refill never adds to the budget: the bucket it fills is paid for by
    the interval it uses up. *)
Lemma refill_budget (T : Z) (cfg : Config) (w : World) :
  valid_config cfg -> bounded cfg (this w) ->
  budget T (this (after_refill w)) <= budget T (this w).
Proof.
  intros [Hcap Hint] [Hcfg Htk]. unfold after_refill. rewrite refill_run.
  cbn zeta. cbn [snd]. rewrite Hcfg.
  destruct (Z.leb_spec (intervalMs cfg) (next_reading w - lastRefill (this w)))
    as [Hle | Hlt]; [ | cbn; lia].
  unfold budget. cbn [this tokens lastRefill config set_lastRefill set_tokens].
  rewrite Hcfg.
  pose proof (div_shift (T - next_reading w)
                (next_reading w - lastRefill (this w)) (intervalMs cfg) Hint Hle)
    as Hq.
  replace (T - next_reading w + (next_reading w - lastRefill (this w)))
    with (T - lastRefill (this w)) in Hq by lia.
  nia.
Qed.

Lemma tryAcquire_budget (T : Z) (cfg : Config) (w : World) :
  valid_config cfg -> bounded cfg (this w) ->
  let r := runState tryAcquire w in
  (if fst r then 1 else 0) + budget T (this (snd r)) <= budget T (this w).
Proof.
  intros Hv Hb. cbn zeta.
  pose proof (refill_budget T cfg w Hv Hb) as Hr.
  rewrite tryAcquire_run. cbn zeta.
  remember (after_refill w) as w1 eqn:E1. clear E1.
  destruct (1 <=? tokens (this w1)); [ | cbn; lia].
  destruct (truthy (minDelayMs (config (this w1)))) as [d | ];
    [destruct (_ <? d); [cbn; lia | ] | ];
    unfold budget in *; cbn -[Z.add Z.mul Z.div Z.sub] in *; lia.
Qed.

Lemma grants_cons (b : bool) (bs : list bool) :
  grants (b :: bs) = (if b then 1 else 0) + grants bs.
Proof. unfold grants. destruct b; cbn [filter length]; lia. Qed.

Lemma tryAcquire_times_budget (T : Z) (cfg : Config) (n : nat) :
  valid_config cfg ->
  forall w, bounded cfg (this w) ->
  let r := runState (tryAcquire_times n) w in
  grants (fst r) + budget T (this (snd r)) <= budget T (this w).
Proof.
  intros Hv. induction n as [ | n IH]; intros w Hb; cbn zeta.
  - cbn. lia.
  - rewrite tryAcquire_times_unfold. cbn zeta. cbn [fst snd].
    rewrite grants_cons.
    pose proof (tryAcquire_budget T cfg w Hv Hb) as H1. cbn zeta in H1.
    pose proof (IH _ (tryAcquire_bounded cfg w Hv Hb)) as H2. cbn zeta in H2.
    lia.
Qed.

Lemma tryAcquire_times_bounded (cfg : Config) (n : nat) :
  valid_config cfg ->
  forall w, bounded cfg (this w) ->
  bounded cfg (this (snd (runState (tryAcquire_times n) w))).
Proof.
  intros Hv. induction n as [ | n IH]; intros w Hb; [exact Hb | ].
  rewrite tryAcquire_times_unfold. cbn zeta. cbn [snd].
  apply IH, tryAcquire_bounded; assumption.
Qed.

Lemma tryAcquire_times_steady (n : nat) :
  forall w, steady w -> steady (snd (runState (tryAcquire_times n) w)).
Proof.
  induction n as [ | n IH]; intros w Hs; [exact Hs | ].
  rewrite tryAcquire_times_unfold. cbn zeta. cbn [snd].
  apply IH, tryAcquire_steady, Hs.
Qed.

(** X1. The rate limit.  For a valid configuration and a clock that does
    not run backwards, the calls of [tryAcquire] granted in any run of
    consecutive calls are at most the tokens held at the start plus one
    bucket per whole interval between the [lastRefill] of the start and
    the time at the end: skipped intervals are never paid out twice. *)
Theorem tryAcquire_rate_limit (cfg : Config) (n : nat) (w : World) :
  valid_config cfg -> bounded cfg (this w) -> steady w ->
  let r := runState (tryAcquire_times n) w in
  grants (fst r)
  <= tokens (this w)
     + tokensPerInterval cfg
       * ((now (env (snd r)) - lastRefill (this w)) / intervalMs cfg).
Proof.
  intros Hv Hb Hs r.
  pose proof (tryAcquire_times_budget (now (env (snd r))) cfg n Hv w Hb) as Hbud.
  cbn zeta in Hbud. fold r in Hbud.
  pose proof (tryAcquire_times_bounded cfg n Hv w Hb) as [Hc Ht]. fold r in Hc, Ht.
  pose proof (tryAcquire_times_steady n w Hs) as (_ & Hlr & _). fold r in Hlr.
  destruct Hv as [Hcap Hint]. destruct Hb as [Hcfg _].
  unfold budget in Hbud. rewrite Hc, Hcfg in Hbud.
  assert (0 <= (now (env (snd r)) - lastRefill (this (snd r))) / intervalMs cfg)
    by (apply Z.div_pos; lia).
  nia.
Qed.

Lemma moves_refl (w : World) : moves w w.
Proof. unfold moves. repeat split; lia. Qed.

Lemma moves_trans (w1 w2 w3 : World) : moves w1 w2 -> moves w2 w3 -> moves w1 w3.
Proof.
  unfold moves. intros (Hc1 & Hr1 & Ha1 & Hn1 & Hg1) (Hc2 & Hr2 & Ha2 & Hn2 & Hg2).
  rewrite Hc1 in *. repeat split; try congruence; lia.
Qed.

Lemma refill_moves (w : World) : steady w -> moves w (after_refill w).
Proof.
  intros (He & Hr & Ha). unfold moves, after_refill. rewrite refill_run.
  cbn zeta. cbn [snd]. unfold next_reading. pose proof (He (tick (env w))).
  destruct (_ <=? _); cbn; repeat split; try lia; left; reflexivity.
Qed.

Lemma tryAcquire_moves (w : World) :
  steady w -> moves w (snd (runState tryAcquire w)).
Proof.
  intros Hs. apply (moves_trans w (after_refill w)); [apply refill_moves, Hs | ].
  apply steady_after_refill in Hs. rewrite tryAcquire_run. cbn zeta.
  remember (after_refill w) as w1 eqn:E1. clear E1.
  destruct Hs as (He & Hr & Ha).
  pose proof (He (tick (env w1))). pose proof (He (S (tick (env w1)))).
  unfold moves, gap, or_default, next_reading.
  destruct (1 <=? tokens (this w1));
    [ destruct (truthy (minDelayMs (config (this w1)))) as [d | ];
      [ destruct (Z.ltb_spec (fst (env_read (env w1)) - lastAcquire (this w1)) d) | ] | ];
    cbn -[Z.add Z.sub] in *; repeat split; try lia;
    try (left; reflexivity); right; lia.
Qed.

Lemma acquire_step_moves (w : World) :
  steady w -> moves w (snd (runState acquire_step w)).
Proof.
  intros Hs. apply (moves_trans w (after_refill w)); [apply refill_moves, Hs | ].
  apply steady_after_refill in Hs. rewrite acquire_step_run. cbn zeta.
  remember (after_refill w) as w1 eqn:E1. clear E1.
  destruct Hs as (He & Hr & Ha).
  pose proof (He (tick (env w1))). pose proof (He (S (tick (env w1)))).
  unfold moves, gap, or_default, next_reading.
  destruct (truthy (minDelayMs (config (this w1)))) as [d | ];
    [ destruct (Z.ltb_spec (fst (env_read (env w1)) - lastAcquire (this w1)) d) | ];
    cbn -[Z.add Z.sub] in *;
    try (destruct (1 <=? tokens (this w1)); cbn -[Z.add Z.sub] in * );
    repeat split; try lia;
    try (left; reflexivity); right; lia.
Qed.

Lemma sleep_moves (ms : Z) (w : World) : moves w (after_sleep ms w).
Proof.
  unfold moves, after_sleep. cbn. repeat split; lia.
Qed.

Lemma acquire_moves (fuel : nat) :
  forall w, steady w -> moves w (snd (runState (acquire fuel) w)).
Proof.
  induction fuel as [ | fuel IH]; intros w Hs; [apply moves_refl | ].
  rewrite acquire_unfold. cbn zeta.
  pose proof (acquire_step_moves w Hs) as Hm.
  pose proof (acquire_step_steady w Hs) as Hs'.
  destruct (fst (runState acquire_step w)); [exact Hm | | ];
    (eapply moves_trans; [exact Hm | ];
     eapply moves_trans; [apply (sleep_moves ms) | ];
     apply IH, sleep_steady, Hs').
Qed.

Lemma call_moves (c : Call) (w : World) :
  steady w -> moves w (snd (runState (call c) w)).
Proof.
  intros Hs. destruct c; cbn [call]; rewrite run_bind;
    cbn [runState ret Monad_state snd].
  - apply tryAcquire_moves, Hs.
  - rewrite getTokens_run. apply refill_moves, Hs.
  - apply acquire_step_moves, Hs.
  - apply acquire_moves, Hs.
Qed.

(** X2. Spacing of admissions and monotone timestamps.  Under a clock
    that does not run backwards, across any sequence of [tryAcquire],
    [getTokens] and [acquire] activity the configuration is kept,
    [lastRefill], [lastAcquire] and the clock never go back, and
    [lastAcquire] is either untouched (nothing was granted) or at least
    the minimum delay later: two admissions are never stamped closer
    than [minDelayMs]. *)
Theorem admissions_spaced (cs : list Call) (w : World) :
  steady w ->
  let w' := snd (runState (calls cs) w) in
  config (this w') = config (this w) /\
  lastRefill (this w) <= lastRefill (this w') /\
  lastAcquire (this w) <= lastAcquire (this w') /\
  now (env w) <= now (env w') /\
  (lastAcquire (this w') = lastAcquire (this w) \/
   lastAcquire (this w) + gap (config (this w)) <= lastAcquire (this w')).
Proof.
  revert w. induction cs as [ | c cs IH]; intros w Hs; [apply moves_refl | ].
  cbn zeta. cbn [calls]. rewrite run_bind.
  apply (moves_trans w (snd (runState (call c) w))); [apply call_moves, Hs | ].
  apply IH. apply (calls_steady [c] w) in Hs.
  cbn [calls] in Hs. rewrite run_bind in Hs. exact Hs.
Qed.

Lemma quiet_tryAcquire (w : World) :
  quiet w ->
  let r := runState tryAcquire w in
  quiet (snd r) /\
  (1 <= tokens (this w) ->
   fst r = true /\ tokens (this (snd r)) = tokens (this w) - 1) /\
  (tokens (this w) < 1 ->
   fst r = false /\ tokens (this (snd r)) = tokens (this w)).
Proof.
  intros (Hst & Hdue & Hnone). cbn zeta. rewrite tryAcquire_run. cbn zeta.
  unfold after_refill. rewrite refill_run. cbn zeta. cbn [snd].
  unfold next_reading, quiet, still in *. cbn [env_read fst].
  rewrite (Hst (tick (env w))), Z.add_0_r.
  destruct (Z.leb_spec (intervalMs (config (this w)))
                       (now (env w) - lastRefill (this w))); [lia | ].
  cbn [this env]. rewrite Hnone.
  pose proof (Hst (tick (env w))) as H0.
  pose proof (Hst (S (tick (env w)))) as H1.
  destruct (Z.leb_spec 1 (tokens (this w))); cbn -[Z.add Z.sub];
    rewrite ?H1, ?Z.add_0_r; repeat split; auto; lia.
Qed.

Lemma quiet_burst (n m : nat) :
  forall w, quiet w -> tokens (this w) = Z.of_nat n ->
  fst (runState (tryAcquire_times (n + m)) w) = repeat true n ++ repeat false m.
Proof.
  induction n as [ | n IH]; intros w Hq Htk.
  - cbn [Nat.add repeat app]. revert w Hq Htk.
    induction m as [ | m IHm]; intros w Hq Htk; [reflexivity | ].
    rewrite tryAcquire_times_unfold. cbn zeta. cbn [fst repeat].
    destruct (quiet_tryAcquire w Hq) as (Hq' & _ & Hdeny).
    destruct Hdeny as [-> Htk']; [cbn in Htk; lia | ].
    f_equal. apply IHm; [exact Hq' | congruence].
  - cbn [Nat.add repeat app]. rewrite tryAcquire_times_unfold. cbn zeta.
    cbn [fst]. destruct (quiet_tryAcquire w Hq) as (Hq' & Hgrant & _).
    destruct Hgrant as [-> Htk']; [lia | ].
    f_equal. apply IH; [exact Hq' | lia].
Qed.

(** X3. Burst, then empty.  A fresh limiter without minimum delay, on a
    clock that stands still, grants exactly [tokensPerInterval] calls of
    [tryAcquire] and denies every call after them. *)
Theorem burst_then_empty (cfg : Config) (e : Env) (m : nat) :
  valid_config cfg -> truthy (minDelayMs cfg) = None -> still e ->
  let c := Z.to_nat (tokensPerInterval cfg) in
  fst (runState (tryAcquire_times (c + m)) (constructor cfg e))
  = repeat true c ++ repeat false m.
Proof.
  intros [Hcap Hint] Hnone Hst c. apply quiet_burst.
  - unfold quiet, still. cbn. repeat split; auto; lia.
  - cbn. unfold c. lia.
Qed.

(** X4. Observation before admission.  For a valid configuration without
    minimum delay: when [getTokens] reports at least one token, a
    [tryAcquire] that follows it is granted, whatever time has passed in
    between; [getTokens] itself consumes nothing, returning exactly the
    tokens it leaves, and leaves [lastAcquire] alone. *)
Theorem getTokens_then_tryAcquire (cfg : Config) (w : World) :
  valid_config cfg -> bounded cfg (this w) ->
  truthy (minDelayMs cfg) = None ->
  let g := runState getTokens w in
  fst g = tokens (this (snd g)) /\
  tokens (this w) <= fst g /\
  lastAcquire (this (snd g)) = lastAcquire (this w) /\
  (1 <= fst g -> fst (runState tryAcquire (snd g)) = true).
Proof.
  intros Hv Hb Hnone. cbn zeta. rewrite getTokens_run. cbn [fst snd].
  split; [reflexivity | split; [ | split]].
  - apply (refill_keeps_tokens cfg); assumption.
  - apply after_refill_lastAcquire.
  - intros Htk.
    pose proof (refill_bounded cfg w Hv Hb) as Hb1.
    apply (tryAcquire_grants (after_refill w)).
    + pose proof (refill_keeps_tokens cfg (after_refill w) Hv Hb1). lia.
    + unfold spaced. rewrite after_refill_config.
      destruct Hb1 as [-> _]. rewrite Hnone. exact I.
Qed.

(** X5. Refill after the interval.  For a valid configuration, once
    [intervalMs] has passed since [lastRefill] at the clock value
    [tryAcquire] reads first, the call is granted however empty the
    bucket was, provided the spacing condition holds; it leaves
    [tokensPerInterval - 1] tokens. *)
Theorem tryAcquire_after_interval (cfg : Config) (w : World) :
  valid_config cfg -> bounded cfg (this w) ->
  intervalMs cfg <= next_reading w - lastRefill (this w) ->
  spaced (this (after_refill w)) (next_reading (after_refill w)) ->
  let r := runState tryAcquire w in
  fst r = true /\ tokens (this (snd r)) = tokensPerInterval cfg - 1.
Proof.
  intros Hv Hb Hdue Hsp. cbn zeta.
  assert (Hfull : tokens (this (after_refill w)) = tokensPerInterval cfg).
  { destruct Hv as [Hcap Hint]. destruct Hb as [Hcfg Htk].
    unfold after_refill. rewrite refill_run. cbn zeta. cbn [snd]. rewrite Hcfg.
    destruct (Z.leb_spec (intervalMs cfg) (next_reading w - lastRefill (this w)));
      [ | lia].
    cbn [this tokens set_lastRefill set_tokens].
    assert (1 <= (next_reading w - lastRefill (this w)) / intervalMs cfg)
      by (apply Z.div_le_lower_bound; lia).
    nia. }
  destruct (tryAcquire_grants w) as [Hg Ht]; [destruct Hv; lia | exact Hsp | ].
  split; [exact Hg | rewrite Ht, Hfull; reflexivity].
Qed.

End RateLimiterMore.

(** * Properties of TaskQueue *)

Section TaskQueueFacts.

Import TaskQueue.

Context {Val Err : Type}.

Abbreviation Sys := (TaskQueue.Sys Val Err).
Abbreviation Event := (TaskQueue.Event Val Err).
Abbreviation Entry := (TaskQueue.Entry Err).

(** The state in which [process] leaves the queue when it starts [x]. *)
Lemma process_run (s : Sys) :
  runState process s =
  (tt,
   let q := self s in
   if (concurrency q <=? running q) || Nat.eqb (length (queue q)) 0 then s
   else
     match queue q with
     | [] => mkSys (mkQueue [] (running q + 1 - 1) (concurrency q) (delayMs q))
                   (next_id s) (started s) (settled s)
                   (awaiting s) (resuming s) (delaying s)
     | x :: rest =>
         let q' := mkQueue rest (running q + 1) (concurrency q) (delayMs q) in
         match entry_task x with
         | Throws e =>
             mkSys q' (next_id s) (started s ++ [entry_id x])
                   (settled s ++ [(entry_id x, Rejected e)])
                   (awaiting s) (resuming s ++ [(entry_id x, Returned)])
                   (delaying s)
         | Pending =>
             mkSys q' (next_id s) (started s ++ [entry_id x]) (settled s)
                   (awaiting s ++ [entry_id x]) (resuming s) (delaying s)
         end
     end).
Proof.
  destruct s as [[q r c d] n st se aw re de]. unfold process. cbn.
  destruct ((c <=? r) || Nat.eqb (length q) 0); [reflexivity | ].
  cbn. destruct q as [ | x rest]; cbn; [reflexivity | ].
  destruct (entry_task x); reflexivity.
Qed.

Lemma take_id_length (id : nat) (l rest : list nat) :
  take_id id l = Some rest -> length l = S (length rest).
Proof.
  revert rest. induction l as [ | x l IH]; intros rest; cbn; [discriminate | ].
  destruct (Nat.eqb x id); [intros [= <-]; reflexivity | ].
  destruct (take_id id l) as [rest' | ]; cbn; [ | discriminate].
  intros [= <-]. cbn. rewrite (IH rest' eq_refl). reflexivity.
Qed.

Lemma take_key_length {A : Type} (id : nat) (l rest : list (nat * A)) (k : A) :
  take_key id l = Some (k, rest) -> length l = S (length rest).
Proof.
  revert rest. induction l as [ | x l IH]; intros rest; cbn; [discriminate | ].
  destruct (Nat.eqb (fst x) id); [intros [= _ <-]; reflexivity | ].
  destruct (take_key id l) as [[k' rest'] | ]; cbn; [ | discriminate].
  intros [= <- <-]. cbn. rewrite (IH rest' eq_refl). reflexivity.
Qed.

Lemma take_key_Forall {A : Type} (P : nat * A -> Prop) (id : nat)
    (l rest : list (nat * A)) (k : A) :
  Forall P l -> take_key id l = Some (k, rest) -> P (id, k) /\ Forall P rest.
Proof.
  revert rest. induction l as [ | x l IH]; intros rest Hall; cbn; [discriminate | ].
  inversion Hall as [ | ? ? Hx Hl]; subst.
  destruct (Nat.eqb_spec (fst x) id) as [Heq | Hne].
  - intros [= <- <-]. split; [ | exact Hl]. rewrite <- Heq. destruct x; exact Hx.
  - destruct (take_key id l) as [[k' rest'] | ]; cbn; [ | discriminate].
    intros [= <- <-]. destruct (IH rest' Hl eq_refl) as [Hk Hr].
    split; [exact Hk | constructor; assumption].
Qed.

(** Closes the arithmetic and list side conditions of the invariants once
    a handler has been run on an explicit state. *)
Ltac queue_facts :=
  try match goal with
      | H : ?x :: ?q <> [] -> _ |- _ => specialize (H ltac:(discriminate))
      end;
  repeat split; intros;
  rewrite ?length_app, ?map_app, ?seq_S in *;
  cbn [length map entry_id Nat.add app] in *;
  try rewrite <- ?app_assoc in *; cbn [app] in *;
  try congruence; try lia;
  try (apply Forall_app; split; [assumption | repeat constructor]);
  try assumption; try solve [auto];
  try match goal with
      | H : ?a ++ ?b = seq 0 ?n |- _ =>
          rewrite <- H; rewrite <- ?app_assoc; reflexivity
      end.

(** Every handler keeps the invariants of the queue. *)
Lemma handle_sound (ev : Event) (s : Sys) :
  sound s -> sound (snd (runState (handle ev) s)).
Proof.
  destruct s as [[q r c d] n st se aw re de].
  unfold sound, accounted, no_stall, wrappers_returned, fifo, within_limit.
  cbn -[seq].
  intros (Hacc & Hns & Hwr & Hfifo & Hlim).
  destruct ev as [t | id res | id | id]; cbn -[seq].
  - destruct (Z.leb_spec c r); cbn -[seq]; [queue_facts | ].
    destruct q as [ | x q]; cbn -[seq].
    + destruct t; cbn -[seq]; queue_facts.
    + assert (c <= r) by (apply Hns; discriminate). lia.
  - destruct (take_id id aw) as [rest | ] eqn:Et; cbn -[seq]; [ | queue_facts].
    apply take_id_length in Et.
    destruct res; cbn -[seq]; queue_facts.
  - destruct (take_key id re) as [[k rest] | ] eqn:Et; cbn -[seq]; [ | queue_facts].
    destruct (take_key_Forall _ _ _ _ _ Hwr Et) as [Hk Hrest].
    apply take_key_length in Et. cbn in Hk. subst k. cbn -[seq].
    destruct (Z.ltb_spec 0 d); cbn -[seq]; [queue_facts | ].
    destruct (Z.leb_spec c (r - 1)); cbn -[seq]; [queue_facts | ].
    destruct q as [ | x q]; cbn -[seq]; [queue_facts | ].
    destruct (entry_task x); cbn -[seq]; queue_facts.
  - destruct (take_id id de) as [rest | ] eqn:Et; cbn -[seq]; [ | queue_facts].
    apply take_id_length in Et.
    destruct (Z.leb_spec c (r - 1)); cbn -[seq]; [queue_facts | ].
    destruct q as [ | x q]; cbn -[seq]; [queue_facts | ].
    destruct (entry_task x); cbn -[seq]; queue_facts.
Qed.

(** No handler changes the configuration of the queue. *)
Lemma handle_config (ev : Event) (s : Sys) :
  let s' := snd (runState (handle ev) s) in
  concurrency (self s') = concurrency (self s) /\
  delayMs (self s') = delayMs (self s).
Proof.
  destruct s as [[q r c d] n st se aw re de]. cbn zeta.
  destruct ev as [t | id res | id | id]; cbn.
  - destruct (c <=? r); cbn; [auto | ].
    destruct q as [ | x q]; cbn; [destruct t | destruct (entry_task x)]; cbn; auto.
  - destruct (take_id id aw); cbn; [destruct res | ]; cbn; auto.
  - destruct (take_key id re) as [[[ | e] rest] | ]; cbn; auto.
    destruct (0 <? d); cbn; auto.
    destruct (c <=? r - 1); cbn; auto.
    destruct q as [ | x q]; cbn; [ | destruct (entry_task x)]; cbn; auto.
  - destruct (take_id id de); cbn; auto.
    destruct (c <=? r - 1); cbn; auto.
    destruct q as [ | x q]; cbn; [ | destruct (entry_task x)]; cbn; auto.
Qed.

Lemma handle_all_app (evs1 evs2 : list Event) (s : Sys) :
  snd (runState (handle_all (evs1 ++ evs2)) s)
  = snd (runState (handle_all evs2) (snd (runState (handle_all evs1) s))).
Proof.
  revert s. induction evs1 as [ | ev evs1 IH]; intros s; [reflexivity | ].
  cbn [app handle_all]. rewrite !run_bind. apply IH.
Qed.

Lemma handle_all_sound (evs : list Event) (s : Sys) :
  sound s -> sound (snd (runState (handle_all evs) s)).
Proof.
  revert s. induction evs as [ | ev evs IH]; intros s Hs; [exact Hs | ].
  cbn [handle_all]. rewrite run_bind. apply IH. apply handle_sound. exact Hs.
Qed.

Lemma handle_all_config (evs : list Event) (s : Sys) :
  let s' := snd (runState (handle_all evs) s) in
  concurrency (self s') = concurrency (self s) /\
  delayMs (self s') = delayMs (self s).
Proof.
  revert s. induction evs as [ | ev evs IH]; intros s; cbn zeta; [auto | ].
  cbn [handle_all]. rewrite run_bind.
  destruct (IH (snd (runState (handle ev) s))) as [-> ->].
  apply handle_config.
Qed.

Lemma constructor_sound (o : Options) : sound (@constructor Val Err o).
Proof.
  unfold sound, accounted, no_stall, wrappers_returned, fifo, within_limit.
  cbn. repeat split; auto; try contradiction.
Qed.

Lemma reached_sound (o : Options) (evs : list Event) : sound (reached o evs).
Proof. apply handle_all_sound, constructor_sound. Qed.

Lemma or_default_nonneg (x : option Z) (d : Z) :
  (forall c, x = Some c -> 0 <= c) -> 0 < d -> 0 < or_default x d.
Proof.
  intros Hx Hd. unfold or_default, truthy. destruct x as [c | ]; [ | exact Hd].
  specialize (Hx c eq_refl).
  destruct (Z.eqb_spec c 0); [exact Hd | lia].
Qed.

(** C6. For a queue whose configured concurrency is not negative, after
    any sequence of calls of [add], settlements of tasks, resumptions of
    [process] and timer expiries: [0 <= running <= concurrency]; [running]
    is the number of computations that hold a slot, so the tasks in
    execution are at most [concurrency]; and [process] leaves the queue
    untouched unless [running < concurrency] and [queue] is not empty. *)
Theorem queue_concurrency_bound (o : Options) (evs : list Event) :
  (forall c, opt_concurrency o = Some c -> 0 <= c) ->
  let s := reached o evs in
  0 <= running (self s) <= concurrency (self s) /\
  accounted s /\
  Z.of_nat (length (awaiting s)) <= concurrency (self s) /\
  (forall s0 : Sys,
     concurrency (self s0) <= running (self s0) \/ queue (self s0) = [] ->
     runState process s0 = (tt, s0)).
Proof.
  intros Ho s.
  destruct (reached_sound o evs) as (Hacc & _ & _ & _ & Hlim).
  fold s in Hacc, Hlim. unfold within_limit, accounted in *.
  assert (Hc : 0 < concurrency (self s)).
  { unfold s, reached.
    destruct (handle_all_config evs (@constructor Val Err o)) as [-> _].
    cbn. apply or_default_nonneg; [exact Ho | lia]. }
  split; [lia | split; [exact Hacc | split; [lia | ]]].
  - intros s0 Hs0. rewrite process_run. cbn zeta.
    destruct Hs0 as [Hfull | Hempty].
    + destruct (Z.leb_spec (concurrency (self s0)) (running (self s0)));
        [reflexivity | lia].
    + rewrite Hempty. cbn. rewrite orb_true_r. reflexivity.
Qed.

Lemma app_eq_by_length {A : Type} (a a' b b' : list A) :
  length a = length a' -> a ++ b = a' ++ b' -> a = a' /\ b = b'.
Proof.
  revert a'. induction a as [ | x a IH]; intros [ | x' a']; cbn;
    try discriminate; [auto | ].
  intros [= Hlen] [= <- Happ]. destruct (IH a' Hlen Happ) as [-> ->]. auto.
Qed.

Lemma fifo_split (s : Sys) :
  fifo s ->
  let k := length (started s) in
  let p := length (queue (self s)) in
  started s = seq 0 k /\ map entry_id (queue (self s)) = seq k p /\
  next_id s = (k + p)%nat.
Proof.
  unfold fifo. intros Hf. cbn zeta.
  assert (Hn : next_id s = (length (started s) + length (queue (self s)))%nat).
  { apply (f_equal (@length nat)) in Hf.
    rewrite length_app, length_map, length_seq in Hf. lia. }
  rewrite Hn, seq_app in Hf.
  apply app_eq_by_length in Hf; [ | rewrite length_seq; reflexivity].
  cbn in Hf. destruct Hf as [H1 H2]. auto.
Qed.

(** C7. After any sequence of events the tasks started so far are the
    first [k] arrivals in arrival order and the pending ones are the next
    arrivals in arrival order; [process] starts the head of [queue]; and
    with [concurrency = 1] three tasks added as A, B, C start as A, then B
    once A is through, then C once B is through. *)
Theorem fifo_start_order (o : Options) (evs : list Event) :
  let s := reached o evs in
  let k := length (started s) in
  started s = seq 0 k /\
  map entry_id (queue (self s)) = seq k (length (queue (self s))) /\
  next_id s = (k + length (queue (self s)))%nat /\
  (forall (s0 : Sys) (x : Entry) (rest : list Entry),
     queue (self s0) = x :: rest ->
     running (self s0) < concurrency (self s0) ->
     let s1 := snd (runState process s0) in
     started s1 = started s0 ++ [entry_id x] /\
     queue (self s1) = rest /\
     running (self s1) = running (self s0) + 1) /\
  (forall ra rb : Val + Err,
     let abc := [Add Pending; Add Pending; Add Pending] in
     started (reached one_at_a_time abc) = [0%nat] /\
     started (reached one_at_a_time (abc ++ [Settle 0 ra])) = [0%nat] /\
     started (reached one_at_a_time (abc ++ [Settle 0 ra; Resume 0]))
     = [0%nat; 1%nat] /\
     started (reached one_at_a_time
                (abc ++ [Settle 0 ra; Resume 0; Settle 1 rb; Resume 1]))
     = [0%nat; 1%nat; 2%nat]).
Proof.
  cbn zeta.
  destruct (reached_sound o evs) as (_ & _ & _ & Hf & _).
  destruct (fifo_split _ Hf) as (H1 & H2 & H3).
  split; [exact H1 | split; [exact H2 | split; [exact H3 | split]]].
  - intros s0 x rest Hq Hr. rewrite process_run. cbn zeta. cbn [snd].
    rewrite Hq. cbn [length Nat.eqb].
    destruct (Z.leb_spec (concurrency (self s0)) (running (self s0))); [lia | ].
    cbn [orb]. destruct (entry_task x); cbn; auto.
  - intros ra rb. destruct ra, rb; repeat split; reflexivity.
Qed.

Lemma handle_agree (i : nat) (e1 e2 : Event) (s1 s2 : Sys) :
  agree_except i s1 s2 -> same_but_result i e1 e2 ->
  agree_except i (snd (runState (handle e1) s1)) (snd (runState (handle e2) s2)).
Proof.
  destruct s1 as [[q r c d] n st se aw re de].
  destruct s2 as [q2 n2 st2 se2 aw2 re2 de2].
  unfold agree_except. cbn.
  intros (<- & <- & <- & <- & <- & <- & Hse).
  assert (Hpush : forall (j : nat) (x y : Settled Val Err),
             (j <> i -> x = y) ->
             Forall2 (fun p q0 => fst p = fst q0 /\ (fst p <> i -> snd p = snd q0))
                     (se ++ [(j, x)]) (se2 ++ [(j, y)])).
  { intros j x y Hxy. apply Forall2_app; [exact Hse | ].
    constructor; [split; [reflexivity | exact Hxy] | constructor]. }
  intros [<- | (r1 & r2 & -> & ->)].
  - destruct e1 as [t | id res | id | id]; cbn.
    + destruct (c <=? r); cbn; [repeat split; auto | ].
      destruct q as [ | x q]; cbn;
        [destruct t | destruct (entry_task x)]; cbn; repeat split; auto.
    + destruct (take_id id aw); cbn; [destruct res | ]; cbn; repeat split; auto.
    + destruct (take_key id re) as [[[ | e] rest] | ]; cbn; try (repeat split; auto; fail).
      destruct (0 <? d); cbn; [repeat split; auto | ].
      destruct (c <=? r - 1); cbn; [repeat split; auto | ].
      destruct q as [ | x q]; cbn; [ | destruct (entry_task x)]; cbn;
        repeat split; auto.
    + destruct (take_id id de); cbn; [ | repeat split; auto].
      destruct (c <=? r - 1); cbn; [repeat split; auto | ].
      destruct q as [ | x q]; cbn; [ | destruct (entry_task x)]; cbn;
        repeat split; auto.
  - cbn. destruct (take_id i aw); cbn; [ | repeat split; auto].
    destruct r1, r2; cbn; repeat split; auto; apply Hpush; intros Hne;
      contradiction.
Qed.

Lemma handle_all_agree (i : nat) (evs1 evs2 : list Event) :
  Forall2 (same_but_result i) evs1 evs2 ->
  forall s1 s2 : Sys, agree_except i s1 s2 ->
  agree_except i (snd (runState (handle_all evs1) s1))
                 (snd (runState (handle_all evs2) s2)).
Proof.
  induction 1 as [ | e1 e2 evs1 evs2 He Hall IH]; intros s1 s2 Hs; [exact Hs | ].
  cbn [handle_all]. rewrite !run_bind. apply IH.
  apply handle_agree; assumption.
Qed.

Lemma agree_except_refl (i : nat) (s : Sys) : agree_except i s s.
Proof.
  unfold agree_except. repeat split; auto.
  induction (settled s); constructor; auto.
Qed.

Lemma take_key_last {A : Type} (id : nat) (l : list (nat * A)) (k0 : A) :
  exists k rest, take_key id (l ++ [(id, k0)]) = Some (k, rest).
Proof.
  induction l as [ | x l IH]; cbn.
  - rewrite Nat.eqb_refl. eauto.
  - destruct (Nat.eqb (fst x) id); [eauto | ].
    destruct IH as (k & rest & ->). cbn. eauto.
Qed.

Lemma take_id_last (id : nat) (l : list nat) :
  exists rest, take_id id (l ++ [id]) = Some rest.
Proof.
  induction l as [ | x l IH]; cbn.
  - rewrite Nat.eqb_refl. eauto.
  - destruct (Nat.eqb x id); [eauto | ].
    destruct IH as (rest & ->). cbn. eauto.
Qed.

Lemma slot_handover (s0 : Sys) (i : nat) (r : Val + Err) (aw' : list nat) :
  sound s0 -> 0 <= concurrency (self s0) ->
  take_id i (awaiting s0) = Some aw' ->
  let s1 := snd (runState (handle_all (finish i r s0)) s0) in
  match queue (self s0) with
  | [] => running (self s1) = running (self s0) - 1 /\ queue (self s1) = []
          /\ started s1 = started s0
  | x :: rest =>
      running (self s1) = running (self s0) /\ queue (self s1) = rest /\
      started s1 = started s0 ++ [entry_id x]
  end.
Proof.
  destruct s0 as [[q rn c d] n st se aw re de].
  unfold sound, accounted, no_stall, wrappers_returned, fifo, within_limit, finish.
  cbn -[seq handle_all].
  intros (Hacc & Hns & Hwr & Hfifo & Hlim) Hc Et.
  specialize (Hlim Hc).
  assert (Hwr' : Forall (fun p : nat * Completion Err => snd p = Returned)
                        (re ++ [(i, Returned)]))
    by (apply Forall_app; split; [exact Hwr | repeat constructor]).
  destruct (take_key_last i re (@Returned Err)) as (k & re' & Ek).
  destruct (take_key_Forall _ _ _ _ _ Hwr' Ek) as [Hk _]. cbn in Hk. subst k.
  destruct (take_id_last i de) as (de' & Ed).
  cbn [handle_all]. rewrite run_bind.
  cbn [handle]. cbn -[handle_all]. rewrite Et. 
  destruct r as [v | e]; cbn -[handle_all]; rewrite Ek; cbn;
    (destruct (Z.ltb_spec 0 d); cbn; [rewrite Ed; cbn | ];
     (destruct (Z.leb_spec c (rn - 1)); cbn;
      [ destruct q as [ | x q]; [auto | ];
        assert (c <= rn) by (apply Hns; discriminate); lia | ];
      destruct q as [ | x q]; cbn; [auto | ];
      destruct (entry_task x); cbn; repeat split; auto; lia)).
Qed.

Lemma handle_run (ev : Event) (s : Sys) :
  runState (handle ev) s =
  (tt,
   match ev with
   | Add t =>
       snd (runState process
              (mkSys (set_queue (queue (self s) ++ [mkEntry (next_id s) t]) (self s))
                     (S (next_id s)) (started s) (settled s)
                     (awaiting s) (resuming s) (delaying s)))
   | Settle id r =>
       match take_id id (awaiting s) with
       | Some rest =>
           mkSys (self s) (next_id s) (started s) (settled s ++ [(id, outcome r)])
                 rest (resuming s ++ [(id, Returned)]) (delaying s)
       | None => s
       end
   | Resume id =>
       match take_key id (resuming s) with
       | Some (Returned, rest) =>
           if 0 <? delayMs (self s)
           then mkSys (self s) (next_id s) (started s) (settled s)
                      (awaiting s) rest (delaying s ++ [id])
           else snd (runState process
                       (mkSys (set_running (running (self s) - 1) (self s))
                              (next_id s) (started s) (settled s)
                              (awaiting s) rest (delaying s)))
       | Some (Thrown _, rest) =>
           mkSys (self s) (next_id s) (started s) (settled s)
                 (awaiting s) rest (delaying s)
       | None => s
       end
   | Timer id =>
       match take_id id (delaying s) with
       | Some rest =>
           snd (runState process
                  (mkSys (set_running (running (self s) - 1) (self s))
                         (next_id s) (started s) (settled s)
                         (awaiting s) (resuming s) rest))
       | None => s
       end
   end).
Proof.
  destruct s as [[q r c d] n st se aw re de].
  destruct ev as [t | id res | id | id]; cbn -[process].
  - destruct (runState process _) as [[] s']. reflexivity.
  - destruct (take_id id aw); [destruct res | ]; reflexivity.
  - destruct (take_key id re) as [[[ | e] rest] | ]; cbn -[process]; try reflexivity.
    destruct (0 <? d); cbn -[process]; [reflexivity | ].
    destruct (runState process _) as [[] s']. reflexivity.
  - destruct (take_id id de); cbn -[process]; [ | reflexivity].
    destruct (runState process _) as [[] s']. reflexivity.
Qed.

Lemma take_id_none (i : nat) (l : list nat) :
  ~ In i l -> take_id i l = None.
Proof.
  induction l as [ | x l IH]; cbn; [reflexivity | ]. intros H.
  destruct (Nat.eqb_spec x i) as [-> | _]; [exfalso; apply H; left; reflexivity | ].
  rewrite IH; [reflexivity | ]. intros Hin. apply H. right. exact Hin.
Qed.

Lemma take_id_fresh (i : nat) (l : list nat) :
  ~ In i l -> take_id i (l ++ [i]) = Some l.
Proof.
  induction l as [ | x l IH]; cbn; intros H.
  - rewrite Nat.eqb_refl. reflexivity.
  - destruct (Nat.eqb_spec x i) as [-> | _]; [exfalso; apply H; left; reflexivity | ].
    rewrite IH; [reflexivity | ]. intros Hin. apply H. right. exact Hin.
Qed.

Lemma take_id_In (j : nat) (l rest : list nat) :
  take_id j l = Some rest -> forall x, In x rest -> In x l.
Proof.
  revert rest. induction l as [ | y l IH]; cbn; intros rest H x Hx; [discriminate | ].
  destruct (Nat.eqb y j).
  - injection H as <-. right. exact Hx.
  - destruct (take_id j l) as [rest' | ]; [ | discriminate].
    injection H as <-. destruct Hx as [-> | Hx]; [left; reflexivity | ].
    right. apply (IH rest' eq_refl x Hx).
Qed.

(** Starting the head of the queue keeps the two runs in step. *)
Lemma process_sim (i : nat) (e : Err) (r : Val + Err) (s1 s2 : Sys) :
  throws_or_settles i e s1 s2 ->
  throws_or_settles i e
    (snd (runState process s1))
    (snd (runState (handle (Settle i r)) (snd (runState process s2)))).
Proof.
  destruct s1 as [[q1 r1 c1 d1] n1 st1 se1 aw1 re1 de1].
  destruct s2 as [[q2 r2 c2 d2] n2 st2 se2 aw2 re2 de2].
  unfold throws_or_settles, alike. cbn [self queue running concurrency delayMs
    next_id started settled awaiting resuming delaying].
  intros ((-> & -> & -> & Hq & -> & -> & -> & -> & -> & Hse) & Hni & Ht & Hp & Hx & Hs).
  rewrite !process_run, handle_run.
  cbn [self queue running concurrency delayMs next_id started settled awaiting
       resuming delaying snd].
  rewrite (Forall2_length Hq).
  destruct ((c2 <=? r2) || Nat.eqb (length q2) 0) eqn:Eroom.
  - cbn [self queue running concurrency delayMs next_id started settled awaiting
         resuming delaying snd].
    rewrite (take_id_none i aw2 Hni). cbn. repeat split; auto.
  - destruct Hq as [ | x y q1 q2 [Hid Htask] Hq].
    { rewrite orb_true_r in Eroom. discriminate. }
    apply Forall_cons_iff in Ht. destruct Ht as [Hxt Ht].
    apply Forall_cons_iff in Hp. destruct Hp as [Hyp Hp].
    destruct (Nat.eq_dec (entry_id x) i) as [Ei | Ei].
    + rewrite (Hxt Ei), (Hyp (eq_trans (eq_sym Hid) Ei)).
      cbn [self queue running concurrency delayMs next_id started settled awaiting
           resuming delaying snd].
      rewrite <- Hid, Ei. rewrite (take_id_fresh i aw2 Hni).
      cbn [self queue running concurrency delayMs next_id started settled awaiting
           resuming delaying snd].
      repeat split; auto.
      * apply Forall2_app; [exact Hse | ].
        constructor; [split; [reflexivity | intros H; contradiction] | constructor].
      * intros x0 Hin. apply in_app_or in Hin. destruct Hin as [Hin | [Hin | []]].
        -- apply (Hx x0 Hin).
        -- injection Hin as <-. reflexivity.
      * intros _. apply in_or_app. right. left. reflexivity.
    + rewrite <- (Htask Ei). rewrite <- Hid.
      destruct (entry_task x) as [e' | ];
        cbn [self queue running concurrency delayMs next_id started settled awaiting
             resuming delaying snd].
      * rewrite (take_id_none i aw2 Hni). cbn. repeat split; auto.
        -- apply Forall2_app; [exact Hse | ].
           constructor; [split; [reflexivity | reflexivity] | constructor].
        -- intros x0 Hin. apply in_app_or in Hin. destruct Hin as [Hin | [Hin | []]].
           ++ apply (Hx x0 Hin).
           ++ injection Hin as E _. contradiction.
        -- intros Hin. apply in_app_or in Hin. apply in_or_app.
           destruct Hin as [Hin | [Hin | []]]; [left; auto | contradiction].
      * assert (Hni' : ~ In i (aw2 ++ [entry_id x])).
        { intros Hin. apply in_app_or in Hin.
          destruct Hin as [Hin | [Hin | []]]; [auto | contradiction]. }
        rewrite (take_id_none i _ Hni'). cbn. repeat split; auto.
        intros Hin. apply in_app_or in Hin.
        destruct Hin as [Hin | [Hin | []]]; [auto | contradiction].
Qed.
Ltac queue_fields :=
  cbn [self queue running concurrency delayMs next_id started settled awaiting
       resuming delaying snd set_queue set_running].

(** A call of [add] keeps the two runs in step. *)
Lemma add_sim (i : nat) (e : Err) (r : Val + Err) (t1 t2 : TaskCall Err)
    (s1 s2 : Sys) :
  throws_or_settles i e s1 s2 ->
  (if Nat.eqb (next_id s1) i then t1 = Throws e /\ t2 = Pending else t1 = t2) ->
  throws_or_settles i e
    (snd (runState (handle (Add t1)) s1))
    (snd (runState (handle (Settle i r)) (snd (runState (handle (Add t2)) s2)))).
Proof.
  intros H Ht. rewrite (handle_run (Add t1)), (handle_run (Add t2)). cbn [snd].
  apply process_sim.
  destruct s1 as [[q1 r1 c1 d1] n1 st1 se1 aw1 re1 de1].
  destruct s2 as [[q2 r2 c2 d2] n2 st2 se2 aw2 re2 de2].
  revert H Ht. unfold throws_or_settles, alike. queue_fields.
  intros ((-> & -> & -> & Hq & -> & -> & -> & -> & -> & Hse) & Hni & Hth & Hp & Hx & Hs) Ht.
  destruct (Nat.eqb_spec n2 i) as [En | En].
  - destruct Ht as [-> ->]. repeat split; auto.
    + apply Forall2_app; [exact Hq | ].
      constructor; [split; [reflexivity | ] | constructor].
      cbn. intros Hne. contradiction.
    + apply Forall_app. split; [exact Hth | ]. repeat constructor.
    + apply Forall_app. split; [exact Hp | ]. repeat constructor.
  - subst t2. repeat split; auto.
    + apply Forall2_app; [exact Hq | ].
      constructor; [split; reflexivity | constructor].
    + apply Forall_app. split; [exact Hth | ].
      constructor; [cbn; intros E; contradiction | constructor].
    + apply Forall_app. split; [exact Hp | ].
      constructor; [cbn; intros E; contradiction | constructor].
Qed.

(** A settlement, a resumption of [process] and a timer keep the two runs
    in step. *)
Lemma completes_sim (i : nat) (e : Err) (r : Val + Err) (ev : Event)
    (s1 s2 : Sys) :
  throws_or_settles i e s1 s2 -> completes ev ->
  throws_or_settles i e
    (snd (runState (handle ev) s1))
    (snd (runState (handle (Settle i r)) (snd (runState (handle ev) s2)))).
Proof.
  intros H Hev.
  assert (Hidle : forall s : Sys, ~ In i (awaiting s) ->
             snd (runState (handle (Settle i r)) s) = s).
  { intros s Hn. rewrite handle_run. cbn [snd].
    rewrite (take_id_none i _ Hn). reflexivity. }
  destruct ev as [t | j r0 | j | j]; [destruct Hev | | | ].
  - rewrite !(handle_run (Settle j r0)). cbn [snd].
    destruct s1 as [[q1 r1 c1 d1] n1 st1 se1 aw1 re1 de1].
    destruct s2 as [[q2 r2 c2 d2] n2 st2 se2 aw2 re2 de2].
    revert H. unfold throws_or_settles, alike. queue_fields.
    intros ((-> & -> & -> & Hq & -> & -> & -> & -> & -> & Hse) & Hni & Hth & Hp & Hx & Hs).
    destruct (take_id j aw2) as [rest | ] eqn:Et.
    + assert (Hr : ~ In i rest) by (intros Hin; apply Hni, (take_id_In j aw2 rest Et i Hin)).
      rewrite Hidle by exact Hr. queue_fields.
      assert (Hji : j <> i).
      { intros ->. rewrite (take_id_none i aw2 Hni) in Et. discriminate. }
      repeat split; auto.
      * apply Forall2_app; [exact Hse | ].
        constructor; [split; reflexivity | constructor].
      * intros x Hin. apply in_app_or in Hin. destruct Hin as [Hin | [Hin | []]].
        -- apply (Hx x Hin).
        -- injection Hin as E _. contradiction.
      * intros Hin. apply in_or_app. left. auto.
    + rewrite Hidle by exact Hni. queue_fields. repeat split; auto.
  - rewrite !(handle_run (Resume j)). cbn [snd].
    destruct s1 as [[q1 r1 c1 d1] n1 st1 se1 aw1 re1 de1].
    destruct s2 as [[q2 r2 c2 d2] n2 st2 se2 aw2 re2 de2].
    revert H. unfold throws_or_settles at 1, alike. queue_fields.
    intros ((-> & -> & -> & Hq & -> & -> & -> & -> & -> & Hse) & Hni & Hth & Hp & Hx & Hs).
    destruct (take_key j re2) as [[[ | e'] rest] | ].
    + destruct (0 <? d2).
      * rewrite Hidle by exact Hni. unfold throws_or_settles, alike. queue_fields.
        repeat split; auto.
      * apply process_sim. unfold throws_or_settles, alike. queue_fields.
        repeat split; auto.
    + rewrite Hidle by exact Hni. unfold throws_or_settles, alike. queue_fields.
      repeat split; auto.
    + rewrite Hidle by exact Hni. unfold throws_or_settles, alike. queue_fields.
      repeat split; auto.
  - rewrite !(handle_run (Timer j)). cbn [snd].
    destruct s1 as [[q1 r1 c1 d1] n1 st1 se1 aw1 re1 de1].
    destruct s2 as [[q2 r2 c2 d2] n2 st2 se2 aw2 re2 de2].
    revert H. unfold throws_or_settles at 1, alike. queue_fields.
    intros ((-> & -> & -> & Hq & -> & -> & -> & -> & -> & Hse) & Hni & Hth & Hp & Hx & Hs).
    destruct (take_id j de2) as [rest | ].
    + apply process_sim. unfold throws_or_settles, alike. queue_fields.
      repeat split; auto.
    + rewrite Hidle by exact Hni. unfold throws_or_settles, alike. queue_fields.
      repeat split; auto.
Qed.

Lemma handle_next_id (ev : Event) (s : Sys) :
  next_id (snd (runState (handle ev) s))
  = match ev with
    | Add _ => S (next_id s)
    | _ => next_id s
    end.
Proof.
  assert (Hp : forall s0 : Sys, next_id (snd (runState process s0)) = next_id s0).
  { intros s0. rewrite process_run. cbn [snd].
    destruct (_ || _); [reflexivity | ].
    destruct (queue (self s0)) as [ | x q]; [reflexivity | ].
    destruct (entry_task x); reflexivity. }
  rewrite handle_run. cbn [snd].
  destruct ev as [t | j r0 | j | j].
  - rewrite Hp. reflexivity.
  - destruct (take_id j (awaiting s)); reflexivity.
  - destruct (take_key j (resuming s)) as [[[ | e'] rest] | ]; try reflexivity.
    destruct (0 <? delayMs (self s)); [reflexivity | ]. rewrite Hp. reflexivity.
  - destruct (take_id j (delaying s)); [ | reflexivity]. rewrite Hp. reflexivity.
Qed.

(** A run in which task [i] throws and the run in which its promise
    settles at once stay in step. *)
Lemma handle_all_sim (i : nat) (e : Err) (r : Val + Err) (evs : list Event) :
  forall s1 s2 : Sys,
  throws_or_settles i e s1 s2 ->
  throws_or_settles i e
    (snd (runState (handle_all (with_task i (Throws e) (next_id s1) evs)) s1))
    (snd (runState (handle_all
                      (settled_at_once i r (with_task i Pending (next_id s1) evs)))
                   s2)).
Proof.
  induction evs as [ | ev evs IH]; intros s1 s2 H; [exact H | ].
  assert (Hstep : forall ev1 ev2 : Event,
             throws_or_settles i e
               (snd (runState (handle ev1) s1))
               (snd (runState (handle (Settle i r)) (snd (runState (handle ev2) s2)))) ->
             forall n, next_id (snd (runState (handle ev1) s1)) = n ->
             throws_or_settles i e
               (snd (runState (handle_all (ev1 :: with_task i (Throws e) n evs)) s1))
               (snd (runState (handle_all
                                 (ev2 :: Settle i r
                                  :: settled_at_once i r (with_task i Pending n evs)))
                              s2))).
  { intros ev1 ev2 Hs n Hn. cbn [handle_all]. rewrite !run_bind.
    subst n. apply IH. exact Hs. }
  destruct ev as [t | j r0 | j | j]; cbn [with_task settled_at_once flat_map app].
  - apply Hstep.
    + apply add_sim; [exact H | ]. destruct (Nat.eqb (next_id s1) i); auto.
    + apply handle_next_id.
  - apply Hstep; [apply completes_sim; [exact H | exact I] | apply handle_next_id].
  - apply Hstep; [apply completes_sim; [exact H | exact I] | apply handle_next_id].
  - apply Hstep; [apply completes_sim; [exact H | exact I] | apply handle_next_id].
Qed.

(** A task that throws while a slot is free: its wrapper rejects the
    outcome promise and returns. *)
Lemma throw_step (s0 : Sys) (x : Entry) (rest : list Entry) (e : Err) :
  queue (self s0) = x :: rest -> entry_task x = Throws e ->
  running (self s0) < concurrency (self s0) ->
  let s1 := snd (runState process s0) in
  settled s1 = settled s0 ++ [(entry_id x, Rejected e)] /\
  resuming s1 = resuming s0 ++ [(entry_id x, Returned)] /\
  awaiting s1 = awaiting s0 /\
  started s1 = started s0 ++ [entry_id x] /\
  running (self s1) = running (self s0) + 1 /\
  queue (self s1) = rest.
Proof.
  intros Hq Ht Hr. cbn zeta. rewrite process_run. cbn [snd]. cbn zeta.
  rewrite Hq. cbn [length Nat.eqb].
  destruct (Z.leb_spec (concurrency (self s0)) (running (self s0))); [lia | ].
  cbn [orb]. rewrite Ht. cbn. repeat split; reflexivity.
Qed.

(** Once the wrapper of task [i] has returned, the resumption of
    [process] (and the timer) releases the slot. *)
Lemma slot_release (s0 : Sys) (i : nat) (k : Completion Err)
    (re' : list (nat * Completion Err)) :
  sound s0 -> 0 <= concurrency (self s0) ->
  take_key i (resuming s0) = Some (k, re') ->
  let s1 := snd (runState (handle_all (wind_up i s0)) s0) in
  match queue (self s0) with
  | [] => running (self s1) = running (self s0) - 1 /\ queue (self s1) = []
          /\ started s1 = started s0
  | x :: rest =>
      running (self s1) = running (self s0) /\ queue (self s1) = rest /\
      started s1 = started s0 ++ [entry_id x]
  end.
Proof.
  destruct s0 as [[q rn c d] n st se aw re de].
  unfold sound, accounted, no_stall, wrappers_returned, fifo, within_limit, wind_up.
  cbn -[seq handle_all].
  intros (Hacc & Hns & Hwr & Hfifo & Hlim) Hc Ek.
  specialize (Hlim Hc).
  destruct (take_key_Forall _ _ _ _ _ Hwr Ek) as [Hk _]. cbn in Hk. subst k.
  destruct (take_id_last i de) as (de' & Ed).
  cbn [handle_all]. rewrite run_bind.
  cbn [handle]. cbn -[handle_all]. rewrite Ek. cbn.
  destruct (Z.ltb_spec 0 d); cbn; [rewrite Ed; cbn | ];
    (destruct (Z.leb_spec c (rn - 1)); cbn;
     [ destruct q as [ | x q]; [auto | ];
       assert (c <= rn) by (apply Hns; discriminate); lia | ];
     destruct q as [ | x q]; cbn; [auto | ];
     destruct (entry_task x); cbn; repeat split; auto; lia).
Qed.

(** C8. A task fails by throwing when it is called or by rejecting the
    promise it returned.
    Rejection: let two runs of a queue differ only in what the promise of
    task [i] settles with (a value in one, a failure in the other, say).
    Then the two final states agree on the queue, on every suspended
    computation, on the start order and on every outcome promise but the
    one of task [i]; a failure of task [i] is recorded on the promise of
    task [i] and nowhere else; and whatever the result, once [process] has
    resumed (and the delay has passed) the slot is released and the head
    of [queue], if any, is started.
    Throw: the run in which task [i] throws [e] and the run in which its
    promise settles at once, with any result, end in states that agree on
    [running], on the pending tasks, on every suspended computation, on
    the start order and on every outcome promise but the one of task [i];
    if task [i] was started, [e] is on its outcome promise, and nothing
    else ever is.  A task that throws while a slot is free rejects its own
    outcome promise at once, and its wrapper returns; and once the wrapper
    of a task has returned, whichever way, the resumption of [process]
    (and the timer) releases the slot and starts the head of [queue].
    In every reachable state [running] counts exactly the computations
    holding a slot, pending work implies that all slots are taken, and no
    wrapper has ended by a throw. *)
Theorem failure_isolation (o : Options) (evs evs' : list Event) (i : nat) :
  (forall c, opt_concurrency o = Some c -> 0 <= c) ->
  Forall2 (same_but_result i) evs evs' ->
  let s := reached o evs in
  let s' := reached o evs' in
  agree_except i s s' /\
  (accounted s /\ no_stall s /\ wrappers_returned s) /\
  (forall (e : Err) (aw' : list nat),
     take_id i (awaiting s) = Some aw' ->
     let s1 := snd (runState (handle (Settle i (inr e))) s) in
     settled s1 = settled s ++ [(i, Rejected e)] /\
     resuming s1 = resuming s ++ [(i, Returned)] /\
     self s1 = self s /\ started s1 = started s) /\
  (forall (r : Val + Err) (aw' : list nat),
     take_id i (awaiting s) = Some aw' ->
     let s1 := snd (runState (handle_all (finish i r s)) s) in
     match queue (self s) with
     | [] =>
         running (self s1) = running (self s) - 1 /\ queue (self s1) = [] /\
         started s1 = started s
     | x :: rest =>
         running (self s1) = running (self s) /\ queue (self s1) = rest /\
         started s1 = started s ++ [entry_id x]
     end) /\
  (forall (e : Err) (r : Val + Err),
     let st := reached o (with_task i (Throws e) 0 evs) in
     let sp := reached o (settled_at_once i r (with_task i Pending 0 evs)) in
     alike i st sp /\
     (In i (started st) -> In (i, Rejected e) (settled st)) /\
     (forall x, In (i, x) (settled st) -> x = Rejected e)) /\
  (forall (s0 : Sys) (x : Entry) (rest : list Entry) (e : Err),
     queue (self s0) = x :: rest -> entry_task x = Throws e ->
     running (self s0) < concurrency (self s0) ->
     let s1 := snd (runState process s0) in
     settled s1 = settled s0 ++ [(entry_id x, Rejected e)] /\
     resuming s1 = resuming s0 ++ [(entry_id x, Returned)] /\
     awaiting s1 = awaiting s0 /\
     started s1 = started s0 ++ [entry_id x] /\
     running (self s1) = running (self s0) + 1 /\
     queue (self s1) = rest) /\
  (forall (k : Completion Err) (re' : list (nat * Completion Err)),
     take_key i (resuming s) = Some (k, re') ->
     let s1 := snd (runState (handle_all (wind_up i s)) s) in
     match queue (self s) with
     | [] =>
         running (self s1) = running (self s) - 1 /\ queue (self s1) = [] /\
         started s1 = started s
     | x :: rest =>
         running (self s1) = running (self s) /\ queue (self s1) = rest /\
         started s1 = started s ++ [entry_id x]
     end).
Proof.
  intros Ho Hsim s s'.
  pose proof (reached_sound o evs) as Hsound. fold s in Hsound.
  assert (Hc : 0 <= concurrency (self s)).
  { unfold s, reached.
    destruct (handle_all_config evs (@constructor Val Err o)) as [-> _].
    cbn. apply Z.lt_le_incl. apply or_default_nonneg; [exact Ho | lia]. }
  split; [ | split; [ | split; [ | split; [ | split; [ | split]]]]].
  - apply handle_all_agree; [exact Hsim | apply agree_except_refl].
  - destruct Hsound as (Ha & Hn & Hw & _). auto.
  - intros e aw' Et. cbn zeta. cbn. rewrite Et. cbn. auto.
  - intros r aw' Et. apply (slot_handover s i r aw'); [exact Hsound | exact Hc | exact Et].
  - intros e r. cbn zeta.
    assert (H0 : throws_or_settles i e (@constructor Val Err o) (constructor o)).
    { unfold throws_or_settles, alike. cbn.
      repeat split; auto; try tauto. }
    destruct (handle_all_sim i e r evs _ _ H0) as (Hal & _ & _ & _ & Hx & Hs).
    split; [exact Hal | split; [exact Hs | exact Hx]].
  - intros s0 x rest e. apply throw_step.
  - intros k re' Ek. apply (slot_release s i k re'); [exact Hsound | exact Hc | exact Ek].
Qed.

Lemma busy_run (s : Sys) :
  runState busy s
  = ((0 <? Z.of_nat (length (queue (self s)))) || (0 <? running (self s)), s).
Proof. destruct s as [[q r c d] n st se aw re de]. reflexivity. Qed.

Lemma busy_idle (s : Sys) :
  accounted s -> (fst (runState busy s) = false <-> idle s).
Proof.
  unfold accounted, idle. intros Hacc. rewrite busy_run. cbn [fst].
  rewrite orb_false_iff, !Z.ltb_ge.
  destruct (queue (self s)) as [ | x q]; cbn [length].
  - split; [intros [_ Hr]; split; [reflexivity | lia] | intros [_ ->]; lia].
  - split; [intros [Hq _]; lia | intros [Hq _]; discriminate].
Qed.

Lemma drain_unfold (sched : list (list Event)) (s : Sys) :
  runState (drain sched) s =
  if fst (runState busy s) then
    match sched with
    | [] => (None, s)
    | evs :: rest =>
        let r := runState (drain rest) (snd (runState (handle_all evs) s)) in
        (option_map (cons poll_interval) (fst r), snd r)
    end
  else (Some [], s).
Proof.
  destruct sched as [ | evs rest]; cbn [drain]; rewrite run_bind, busy_run;
    cbn [fst snd]; destruct (_ || _); try reflexivity.
  rewrite run_bind. cbn zeta. rewrite run_bind. reflexivity.
Qed.

Lemma after_batches_0 (sched : list (list Event)) (s : Sys) :
  after_batches 0 sched s = s.
Proof. reflexivity. Qed.

Lemma after_batches_S (m : nat) (evs : list Event) (rest : list (list Event))
    (s : Sys) :
  after_batches (S m) (evs :: rest) s
  = after_batches m rest (snd (runState (handle_all evs) s)).
Proof.
  unfold after_batches. cbn [firstn concat]. apply handle_all_app.
Qed.

Lemma drain_returns_at (sched : list (list Event)) :
  forall s : Sys, sound s ->
  forall ds, fst (runState (drain sched) s) = Some ds ->
  let n := length ds in
  ds = repeat poll_interval n /\ (n <= length sched)%nat /\
  snd (runState (drain sched) s) = after_batches n sched s /\
  idle (snd (runState (drain sched) s)) /\
  (forall m, (m < n)%nat -> ~ idle (after_batches m sched s)).
Proof.
  induction sched as [ | evs rest IH]; intros s Hs ds; rewrite drain_unfold;
    pose proof (busy_idle s (proj1 Hs)) as Hbusy;
    destruct (fst (runState busy s)) eqn:Eb; cbn [fst snd]; try discriminate.
  - intros [= <-]. cbn. repeat split; try apply Hbusy; auto; lia.
  - cbn zeta. cbn [fst snd].
    pose proof (handle_all_sound evs s Hs) as Hs2.
    specialize (IH _ Hs2).
    destruct (fst (runState (drain rest) (snd (runState (handle_all evs) s))))
      as [ds' | ]; [ | discriminate].
    cbn [option_map]. intros [= <-].
    destruct (IH ds' eq_refl) as (H1 & H2 & H3 & H4 & H5).
    cbn [length repeat]. rewrite after_batches_S.
    split; [ | split; [ | split; [ | split]]]; auto.
    + f_equal. exact H1.
    + lia.
    + intros [ | m] Hm; [rewrite after_batches_0 | rewrite after_batches_S].
      * intros Hidle. apply Hbusy in Hidle. discriminate.
      * apply H5. lia.
  - intros [= <-]. cbn. repeat split; try apply Hbusy; auto; lia.
Qed.

Lemma drain_returns_if (sched : list (list Event)) :
  forall s : Sys, sound s ->
  forall n, (n <= length sched)%nat -> idle (after_batches n sched s) ->
  exists ds, fst (runState (drain sched) s) = Some ds.
Proof.
  induction sched as [ | evs rest IH]; intros s Hs n Hn Hidle;
    rewrite drain_unfold;
    pose proof (busy_idle s (proj1 Hs)) as Hbusy;
    destruct (fst (runState busy s)) eqn:Eb; cbn [fst snd]; eauto.
  - cbn in Hn. assert (n = 0%nat) by lia. subst n.
    rewrite after_batches_0 in Hidle. apply Hbusy in Hidle. discriminate.
  - destruct n as [ | n].
    + rewrite after_batches_0 in Hidle. apply Hbusy in Hidle. discriminate.
    + rewrite after_batches_S in Hidle. cbn in Hn.
      destruct (IH _ (handle_all_sound evs s Hs) n ltac:(lia) Hidle) as [ds ->].
      cbn. eauto.
Qed.

(** C9. On a reachable queue the loop test of [drain] is false exactly
    when [queue] is empty and [running] is zero, and it changes nothing.
    [drain] sleeps [poll_interval = 100] ms between two tests; when it
    returns after [n] sleeps the queue is idle at that moment, was not
    idle at any of the [n] earlier tests, and [drain] itself has changed
    nothing; it does return as soon as a test finds the queue idle.  On a
    queue that is idle already ([size ()] is 0 and [running] is 0) it
    returns without sleeping and leaves the state as it was. *)
Theorem drain_spec (o : Options) (evs : list Event) (sched : list (list Event)) :
  let s := reached o evs in
  let r := runState (drain sched) s in
  (fst (runState busy s) = false <-> idle s) /\
  snd (runState busy s) = s /\
  (fst (runState size s) = 0 -> running (self s) = 0 -> r = (Some [], s)) /\
  (forall ds, fst r = Some ds ->
     let n := length ds in
     ds = repeat poll_interval n /\ (n <= length sched)%nat /\
     snd r = after_batches n sched s /\
     idle (snd r) /\
     (forall m, (m < n)%nat -> ~ idle (after_batches m sched s))) /\
  (forall n, (n <= length sched)%nat -> idle (after_batches n sched s) ->
     exists ds, fst r = Some ds).
Proof.
  intros s r. pose proof (reached_sound o evs) as Hs. fold s in Hs.
  pose proof (busy_idle s (proj1 Hs)) as Hbusy.
  split; [exact Hbusy | split; [rewrite busy_run; reflexivity | split; [ | split]]].
  - intros Hsize Hrun. unfold r. rewrite drain_unfold.
    assert (Hidle : idle s).
    { split; [ | exact Hrun]. revert Hsize. unfold size, field. cbn.
      destruct (queue (self s)); [reflexivity | cbn; lia]. }
    apply Hbusy in Hidle. rewrite Hidle. reflexivity.
  - apply drain_returns_at. exact Hs.
  - apply drain_returns_if. exact Hs.
Qed.

Lemma take_id_perm (id : nat) (l rest : list nat) :
  take_id id l = Some rest -> Permutation l (id :: rest).
Proof.
  revert rest. induction l as [ | x l IH]; intros rest; cbn; [discriminate | ].
  destruct (Nat.eqb_spec x id) as [-> | Hne]; [intros [= <-]; reflexivity | ].
  destruct (take_id id l) as [rest' | ]; cbn; [ | discriminate].
  intros [= <-]. rewrite (IH rest' eq_refl). apply perm_swap.
Qed.

Lemma handle_ledger (ev : Event) (s : Sys) :
  ledger s -> ledger (snd (runState (handle ev) s)).
Proof.
  destruct s as [[q r c d] n st se aw re de]. unfold ledger. cbn.
  intros Hl.
  assert (Hstart : forall x : nat,
             Permutation (st ++ [x]) ((aw ++ [x]) ++ map fst se)).
  { intros x. rewrite Hl, <- !app_assoc. apply Permutation_app_head.
    apply Permutation_app_comm. }
  assert (Hthrow : forall (x : nat) (y : Settled Val Err),
             Permutation (st ++ [x]) (aw ++ map fst (se ++ [(x, y)]))).
  { intros x y. rewrite map_app, app_assoc. cbn.
    apply Permutation_app_tail. exact Hl. }
  destruct ev as [t | id res | id | id]; cbn.
  - destruct (c <=? r); cbn; [exact Hl | ].
    destruct q as [ | x q]; cbn; [destruct t | destruct (entry_task x)]; cbn; auto.
  - destruct (take_id id aw) as [rest | ] eqn:Et; cbn; [ | exact Hl].
    apply take_id_perm in Et.
    assert (Permutation st (rest ++ map fst se ++ [id])).
    { rewrite Hl, Et. cbn. rewrite app_assoc. apply Permutation_cons_append. }
    destruct res; cbn; rewrite map_app; cbn; assumption.
  - destruct (take_key id re) as [[[ | e] rest] | ]; cbn; auto.
    destruct (0 <? d); cbn; auto.
    destruct (c <=? r - 1); cbn; auto.
    destruct q as [ | x q]; cbn; [ | destruct (entry_task x)]; cbn; auto.
  - destruct (take_id id de); cbn; auto.
    destruct (c <=? r - 1); cbn; auto.
    destruct q as [ | x q]; cbn; [ | destruct (entry_task x)]; cbn; auto.
Qed.

Lemma handle_all_ledger (evs : list Event) (s : Sys) :
  ledger s -> ledger (snd (runState (handle_all evs) s)).
Proof.
  revert s. induction evs as [ | ev evs IH]; intros s Hs; [exact Hs | ].
  cbn [handle_all]. rewrite run_bind. apply IH, handle_ledger, Hs.
Qed.

(** X6. Outcomes are settled exactly once.  In every reachable state no
    outcome promise has been settled twice, every settled promise belongs
    to a task that was started and is no longer awaited; and when the
    queue is idle (what [drain] waits for) the promises settled are those
    of all the tasks ever added, each once. *)
Theorem outcomes_settled_once (o : Options) (evs : list Event) :
  let s := reached o evs in
  NoDup (map fst (settled s)) /\
  (forall i, In i (map fst (settled s)) ->
             In i (started s) /\ ~ In i (awaiting s)) /\
  (idle s -> Permutation (map fst (settled s)) (seq 0 (next_id s))).
Proof.
  intros s.
  destruct (reached_sound o evs) as (Hacc & _ & _ & Hf & _). fold s in Hacc, Hf.
  assert (Hl : ledger s) by (apply handle_all_ledger; cbn; constructor).
  destruct (fifo_split s Hf) as (Hst & _ & _).
  assert (Hnd : NoDup (awaiting s ++ map fst (settled s))).
  { apply (Permutation_NoDup Hl). rewrite Hst. apply seq_NoDup. }
  split; [apply (NoDup_app_remove_l _ _ Hnd) | split].
  - intros i Hi. split.
    + apply (Permutation_in i (Permutation_sym Hl)). apply in_or_app. auto.
    + intros Haw. revert Hnd Haw Hi. clear.
      induction (awaiting s) as [ | x l IH]; cbn; [contradiction | ].
      intros Hnd [-> | Hin] Hi; inversion Hnd as [ | ? ? Hx Hl]; subst.
      * apply Hx. apply in_or_app. auto.
      * exact (IH Hl Hin Hi).
  - intros [Hq Hr]. unfold fifo in Hf. rewrite Hq in Hf. cbn in Hf.
    rewrite app_nil_r in Hf. rewrite <- Hf.
    unfold accounted in Hacc. rewrite Hr in Hacc. unfold ledger in Hl.
    destruct (awaiting s) as [ | x l]; [ | cbn in Hacc; lia].
    cbn in Hl. symmetry. exact Hl.
Qed.

Lemma progress_step (r0 : Val + Err) (s : Sys) :
  sound s -> 0 < concurrency (self s) -> (0 < work_left s)%nat ->
  exists ev : Event,
    (work_left (snd (runState (handle ev) s)) < work_left s)%nat.
Proof.
  destruct s as [[q r c d] n st se aw re de].
  unfold sound, accounted, no_stall, wrappers_returned, fifo, within_limit,
    work_left.
  cbn -[seq Nat.mul].
  intros (Hacc & Hns & Hwr & _ & _) Hc Hwork.
  destruct aw as [ | i aw].
  - destruct re as [ | [i k] re].
    + destruct de as [ | i de].
      * exfalso. destruct q as [ | x q]; [cbn in Hwork; lia | ].
        specialize (Hns ltac:(discriminate)). cbn in Hacc. lia.
      * exists (Timer i). cbn -[Nat.mul]. rewrite Nat.eqb_refl. cbn -[Nat.mul].
        destruct (c <=? r - 1); cbn -[Nat.mul]; [lia | ].
        destruct q as [ | x q]; cbn -[Nat.mul]; [lia | ].
        destruct (entry_task x); cbn -[Nat.mul]; rewrite ?length_app; cbn -[Nat.mul]; lia.
    + pose proof (Forall_inv Hwr) as Hk. cbn in Hk. subst k.
      exists (Resume i). cbn -[Nat.mul]. rewrite Nat.eqb_refl. cbn -[Nat.mul].
      destruct (0 <? d); cbn -[Nat.mul]; [rewrite ?length_app; cbn -[Nat.mul]; lia | ].
      destruct (c <=? r - 1); cbn -[Nat.mul]; [lia | ].
      destruct q as [ | x q]; cbn -[Nat.mul]; [lia | ].
      destruct (entry_task x); cbn -[Nat.mul]; rewrite ?length_app; cbn -[Nat.mul]; lia.
  - exists (Settle i r0). cbn -[Nat.mul]. rewrite Nat.eqb_refl.
    destruct r0; cbn -[Nat.mul]; rewrite ?length_app; cbn -[Nat.mul]; lia.
Qed.

Lemma progress_completes (r0 : Val + Err) (s : Sys) :
  sound s -> 0 < concurrency (self s) -> (0 < work_left s)%nat ->
  exists ev : Event,
    completes ev /\
    (work_left (snd (runState (handle ev) s)) < work_left s)%nat.
Proof.
  intros Hs Hc Hw.
  destruct (Nat.eq_dec (length (awaiting s)) 0) as [Ha | Ha].
  - destruct (progress_step r0 s Hs Hc Hw) as [ev Hev].
    exists ev. split; [ | exact Hev].
    destruct ev as [t | | | ]; cbn; auto.
    exfalso. revert Hev. clear - Ha.
    destruct s as [[q r c d] n st se aw re de]. unfold work_left.
    cbn -[Nat.mul] in *.
    destruct (c <=? r); cbn -[Nat.mul]; [rewrite length_app; cbn; lia | ].
    destruct q as [ | x q]; cbn -[Nat.mul];
      [destruct t | destruct (entry_task x)]; cbn -[Nat.mul];
      rewrite ?length_app; cbn -[Nat.mul]; lia.
  - destruct s as [[q r c d] n st se aw re de]. cbn -[Nat.mul] in *.
    destruct aw as [ | i aw]; [contradiction | ].
    exists (Settle i r0). split; [exact I | ].
    unfold work_left. cbn -[Nat.mul]. rewrite Nat.eqb_refl.
    destruct r0; cbn -[Nat.mul]; rewrite ?length_app; cbn -[Nat.mul]; lia.
Qed.

Lemma can_finish (r0 : Val + Err) (k : nat) :
  forall s : Sys,
  (work_left s <= k)%nat -> sound s -> 0 < concurrency (self s) ->
  exists evs : list Event,
    Forall completes evs /\
    work_left (snd (runState (handle_all evs) s)) = 0%nat.
Proof.
  induction k as [ | k IH]; intros s Hk Hs Hc.
  - exists []. split; [apply Forall_nil | ].
    change (work_left s = 0%nat). lia.
  - destruct (Nat.eq_dec (work_left s) 0) as [Hz | Hnz].
    + exists []. split; [apply Forall_nil | exact Hz].
    + destruct (progress_completes r0 s Hs Hc ltac:(lia)) as (ev & Hev & Hlt).
      destruct (IH (snd (runState (handle ev) s))) as (evs & Hevs & Hdone).
      * lia.
      * apply handle_sound, Hs.
      * destruct (handle_config ev s) as [-> _]. exact Hc.
      * exists (ev :: evs). split; [apply Forall_cons; assumption | ].
        cbn [handle_all]. rewrite run_bind. exact Hdone.
Qed.

(** X7. The queue can always be drained.  From every state a queue with
    a concurrency that is not negative can reach, some sequence of task
    settlements, resumptions of [process] and timer expiries (no further
    [add]) leaves nothing pending and nothing in flight, and a [drain]
    that sleeps through them returns. *)
Theorem queue_can_drain (o : Options) (evs : list Event) (r0 : Val + Err) :
  (forall c, opt_concurrency o = Some c -> 0 <= c) ->
  exists evs' : list Event,
    Forall completes evs' /\
    idle (reached o (evs ++ evs')) /\
    exists ds, fst (runState (drain [evs']) (reached o evs)) = Some ds.
Proof.
  intros Ho. pose proof (reached_sound o evs) as Hs.
  assert (Hc : 0 < concurrency (self (reached o evs))).
  { unfold reached.
    destruct (handle_all_config evs (@constructor Val Err o)) as [-> _].
    cbn. apply or_default_nonneg; [exact Ho | lia]. }
  destruct (can_finish r0 _ (reached o evs) (Nat.le_refl _) Hs Hc)
    as (evs' & Hevs' & Hdone).
  exists evs'. split; [exact Hevs' | ].
  assert (Hidle : idle (reached o (evs ++ evs'))).
  { unfold reached at 1. rewrite handle_all_app. fold (reached o evs).
    pose proof (handle_all_sound evs' _ Hs) as (Hacc & _).
    revert Hdone Hacc. unfold work_left, accounted, idle.
    destruct (queue (self _)), (awaiting _), (resuming _), (delaying _);
      cbn; intros; try lia. auto. }
  split; [exact Hidle | ].
  apply (drain_returns_if [evs'] _ Hs 1%nat); [cbn; lia | ].
  unfold after_batches. cbn [firstn concat]. rewrite app_nil_r.
  unfold reached in Hidle. rewrite handle_all_app in Hidle. exact Hidle.
Qed.

Lemma handle_stalled (ev : Event) (s : Sys) :
  stalled s ->
  stalled (snd (runState (handle ev) s)) /\
  (next_id s <= next_id (snd (runState (handle ev) s)))%nat.
Proof.
  destruct s as [[q r c d] n st se aw re de]. unfold stalled. cbn.
  intros (Hc & -> & -> & -> & -> & -> & -> & Hq).
  destruct ev as [t | id res | id | id]; cbn; try (repeat split; auto; lia).
  destruct (Z.leb_spec c 0); [ | lia]. cbn.
  rewrite length_app. cbn. repeat split; auto; lia.
Qed.

Lemma handle_all_stalled (evs : list Event) (s : Sys) :
  stalled s ->
  stalled (snd (runState (handle_all evs) s)) /\
  (next_id s <= next_id (snd (runState (handle_all evs) s)))%nat.
Proof.
  revert s. induction evs as [ | ev evs IH]; intros s Hs;
    [split; [exact Hs | apply Nat.le_refl] | ].
  cbn [handle_all]. rewrite run_bind.
  destruct (handle_stalled ev s Hs) as [Hs1 Hn1].
  destruct (IH _ Hs1) as [Hs2 Hn2]. split; [exact Hs2 | lia].
Qed.

Lemma stalled_drain (sched : list (list Event)) :
  forall s : Sys, stalled s -> (0 < next_id s)%nat ->
  fst (runState (drain sched) s) = None.
Proof.
  induction sched as [ | evs rest IH]; intros s Hs Hn; rewrite drain_unfold;
    rewrite busy_run; cbn [fst];
    destruct Hs as (Hc & Hr & H3 & H4 & H5 & H6 & H7 & Hq);
    (destruct (Z.ltb_spec 0 (Z.of_nat (length (queue (self s))))); [ | lia]);
    cbn [orb]; [reflexivity | ].
  cbn zeta. cbn [fst].
  destruct (handle_all_stalled evs s) as [Hs' Hn'];
    [unfold stalled; repeat split; assumption | ].
  rewrite (IH _ Hs' ltac:(lia)). reflexivity.
Qed.

(** X8. A negative concurrency stalls the queue.  The constructor accepts
    a negative [concurrency] as it is; then no task is ever started or
    settled, [size ()] is the number of calls of [add], and once a task
    has been added [drain] never returns, whatever happens while it
    sleeps. *)
Theorem negative_concurrency_stalls (o : Options) (c : Z) (evs : list Event) :
  opt_concurrency o = Some c -> c < 0 ->
  let s := reached o evs in
  started s = [] /\ settled s = [] /\
  fst (runState size s) = Z.of_nat (next_id s) /\
  ((0 < next_id s)%nat ->
   forall sched, fst (runState (drain sched) s) = None).
Proof.
  intros Ho Hc s.
  assert (Hs : stalled s).
  { apply handle_all_stalled. unfold stalled. cbn.
    unfold or_default, truthy. rewrite Ho.
    destruct (Z.eqb_spec c 0); [lia | ]. repeat split; auto. }
  pose proof Hs as (_ & _ & H3 & H4 & _ & _ & _ & Hq).
  split; [exact H3 | split; [exact H4 | split]].
  - unfold size, field. cbn. rewrite Hq. reflexivity.
  - intros Hn sched. apply stalled_drain; assumption.
Qed.

(** X9. The delay keeps the slot.  With a positive [delayMs], when the
    task [i] of a reachable state has settled and [process] has resumed,
    the slot is still taken: [running], [queue] and the start order are
    unchanged and [i] waits for its timer; the next pending task starts
    only when the timer fires. *)
Theorem delay_keeps_slot (o : Options) (evs : list Event) (i : nat)
    (r : Val + Err) (aw' : list nat) :
  let s := reached o evs in
  0 < delayMs (self s) ->
  take_id i (awaiting s) = Some aw' ->
  let s1 := snd (runState (handle_all [Settle i r; Resume i]) s) in
  running (self s1) = running (self s) /\
  queue (self s1) = queue (self s) /\
  started s1 = started s /\
  In i (delaying s1).
Proof.
  intros s Hd Et.
  pose proof (reached_sound o evs) as (_ & _ & Hwr & _). fold s in Hwr.
  revert Hd Et Hwr. generalize s. clear s. intros s.
  destruct s as [[q rn c d] n st se aw re de].
  unfold wrappers_returned. cbn -[handle_all]. intros Hd Et Hwr.
  assert (Hwr' : Forall (fun p : nat * Completion Err => snd p = Returned)
                        (re ++ [(i, Returned)]))
    by (apply Forall_app; split; [exact Hwr | repeat constructor]).
  destruct (take_key_last i re (@Returned Err)) as (k & re' & Ek).
  destruct (take_key_Forall _ _ _ _ _ Hwr' Ek) as [Hk _]. cbn in Hk. subst k.
  cbn [handle_all]. rewrite !run_bind. cbn. rewrite Et.
  destruct r as [v | e]; cbn; rewrite Ek; cbn;
    (destruct (Z.ltb_spec 0 d); [ | lia]); cbn;
    repeat split; apply in_or_app; right; left; reflexivity.
Qed.

End TaskQueueFacts.

(** * Properties of StateManager *)

Section PathFacts.

Import Stdlib.Strings.String.
Import StateManager.

Lemma string_length_append (a b : string) :
  String.length (a ++ b) = (String.length a + String.length b)%nat.
Proof. induction a as [ | c a IH]; cbn; [reflexivity | rewrite IH; reflexivity]. Qed.

Lemma substring_length (p : string) (e : nat) :
  (e <= String.length p)%nat -> String.length (substring 0 e p) = e.
Proof.
  revert e. induction p as [ | c p IH]; intros [ | e] H; cbn in *; try lia.
  rewrite IH; lia.
Qed.

(** The loop of [dirname] stops below the index it starts from. *)
Lemma dirname_end_bound (p : string) (i : nat) (m : bool) (e : nat) :
  dirname_end p i m = Some e ->
  (1 <= e <= i)%nat /\ (m = true -> (e < i)%nat).
Proof.
  revert m. induction i as [ | j IH]; intros m; cbn [dirname_end]; [discriminate | ].
  destruct (is_slash p (S j)).
  - destruct m.
    + intros H. destruct (IH true H) as [H1 _]. lia.
    + intros [= <-]. split; [lia | discriminate].
  - intros H. destruct (IH false H) as [H1 _]. lia.
Qed.

(** Going up, a path gets shorter until it is a root. *)
Lemma dirname_shorter (p : string) :
  is_root (dirname p) = true \/
  (String.length (dirname p) < String.length p)%nat.
Proof.
  unfold dirname.
  destruct (Nat.eqb_spec (String.length p) 0) as [E | E]; [left; reflexivity | ].
  cbn zeta.
  destruct (dirname_end p (String.length p - 1) true) as [e | ] eqn:Ee.
  - destruct (dirname_end_bound _ _ _ _ Ee) as [H1 H2]. specialize (H2 eq_refl).
    right. destruct (is_slash p 0 && Nat.eqb e 1) eqn:Er.
    + apply andb_true_iff in Er. destruct Er as [_ Er].
      apply Nat.eqb_eq in Er. cbn. lia.
    + rewrite substring_length; lia.
  - left. destruct (is_slash p 0); reflexivity.
Qed.

Lemma dirname_length (p : string) :
  (String.length (dirname p) <= 1)%nat \/
  (String.length (dirname p) < String.length p)%nat.
Proof.
  unfold dirname.
  destruct (Nat.eqb_spec (String.length p) 0) as [E | E]; [left; cbn; lia | ].
  cbn zeta.
  destruct (dirname_end p (String.length p - 1) true) as [e | ] eqn:Ee.
  - destruct (dirname_end_bound _ _ _ _ Ee) as [H1 H2]. specialize (H2 eq_refl).
    right. destruct (is_slash p 0 && Nat.eqb e 1) eqn:Er.
    + apply andb_true_iff in Er. destruct Er as [_ Er].
      apply Nat.eqb_eq in Er. cbn. lia.
    + rewrite substring_length; lia.
  - left. destruct (is_slash p 0); cbn; lia.
Qed.

(** [dirname] never returns the empty path. *)
Lemma dirname_nonempty (p : string) : dirname p <> ""%string.
Proof.
  unfold dirname.
  destruct (Nat.eqb (String.length p) 0); [discriminate | ].
  cbn zeta.
  destruct (dirname_end p (String.length p - 1) true) as [e | ] eqn:Ee.
  - destruct (dirname_end_bound _ _ _ _ Ee) as [H1 H2]. specialize (H2 eq_refl).
    destruct (is_slash p 0 && Nat.eqb e 1); [discriminate | ].
    intros H. apply (f_equal String.length) in H.
    rewrite substring_length in H by lia. cbn in H. lia.
  - destruct (is_slash p 0); discriminate.
Qed.

End PathFacts.

Section StateManagerFacts.

Import Stdlib.Strings.String.
Import StateManager.

Context {V Text : Type}.
Variable stringify : (string -> option V) -> Text.
Variable parse : Text -> option (string -> option V).

(** What is written can be read back. *)
Hypothesis parse_stringify : forall o, parse (stringify o) = Some o.

Lemma tempPath_length (m : Manager V) :
  String.length (tempPath m) = (String.length (path m) + 4)%nat.
Proof. unfold tempPath. rewrite string_length_append. reflexivity. Qed.

Lemma tempPath_ne (m : Manager V) : tempPath m <> path m.
Proof.
  intros H. apply (f_equal String.length) in H.
  rewrite tempPath_length in H. lia.
Qed.

Lemma tempPath_eqb (m : Manager V) : (path m =? tempPath m)%string = false.
Proof. apply String.eqb_neq. intros H. apply (tempPath_ne m). auto. Qed.

Lemma world_eta (w : World Text) :
  mkWorld (files w) (clock w) (invoked w) (logged w) = w.
Proof. destruct w; reflexivity. Qed.

Lemma node_at_assign (fs : string -> option (Node Text)) (p q : string)
    (n : Node Text) :
  node_at (assign p n fs) q = if (q =? p)%string then Some n else node_at fs q.
Proof. unfold node_at, lookup, assign. destruct (q =? p)%string; reflexivity. Qed.

Lemma node_at_same (fs1 fs2 : string -> option (Node Text)) (p : string) :
  fs1 p = fs2 p -> node_at fs1 p = node_at fs2 p.
Proof. unfold node_at, lookup. intros ->. reflexivity. Qed.

Lemma node_at_none (fs : string -> option (Node Text)) (p : string) :
  node_at fs p = None -> fs p = None /\ is_root p = false.
Proof.
  unfold node_at, lookup. destruct (fs p); [discriminate | ].
  destruct (is_root p); [discriminate | auto].
Qed.

Lemma readFile_run (p : string) (w : World Text) :
  runState (readFile p) w =
  (match node_at (files w) p with
   | Some (File c) => inr c
   | Some Dir => inl (FsError "EISDIR")
   | Some (Broken code) => inl (FsError code)
   | None =>
       match blocked (S (String.length (dirname p))) (dirname p) (files w) with
       | Some code => inl (FsError code)
       | None => inl (FsError "ENOENT")
       end
   end, w).
Proof.
  unfold readFile. cbn -[blocked].
  destruct (node_at (files w) p) as [[c | | code] | ]; try reflexivity.
  destruct (blocked _ _ _); reflexivity.
Qed.

Lemma writeFile_run (p : string) (c : Text) (w : World Text) :
  p <> ""%string ->
  runState (writeFile p c) w =
  match blocked (S (String.length (dirname p))) (dirname p) (files w) with
  | Some code => (inl (FsError code), w)
  | None =>
      match node_at (files w) p with
      | Some Dir => (inl (FsError "EISDIR"), w)
      | Some (Broken code) => (inl (FsError code), w)
      | _ => (inr tt, set_files (assign p (File c) (files w)) w)
      end
  end.
Proof.
  intros Hp. apply String.eqb_neq in Hp.
  unfold writeFile. cbn -[blocked String.eqb]. rewrite Hp.
  destruct (blocked _ _ _); [reflexivity | ].
  destruct (node_at (files w) p) as [[c0 | | code] | ]; reflexivity.
Qed.

Lemma mkdir_run (d : string) (w : World Text) :
  d <> ""%string ->
  runState (mkdir d) w =
  match mkdir_from (S (String.length d)) true d (files w) with
  | inl err => (inl err, w)
  | inr fs' => (inr tt, set_files fs' w)
  end.
Proof.
  intros Hd. apply String.eqb_neq in Hd.
  unfold mkdir. cbn -[mkdir_from String.eqb]. rewrite Hd.
  destruct (mkdir_from (S (String.length d)) true d (files w)); reflexivity.
Qed.

Lemma tempPath_nonempty (m : Manager V) : tempPath m <> ""%string.
Proof.
  intros H. apply (f_equal String.length) in H.
  rewrite tempPath_length in H. cbn in H. lia.
Qed.

(** [get] in one step. *)
Lemma get_eq (m : Manager V) (w : World Text) :
  runState (get parse m) w =
  (match node_at (files w) (path m) with
   | Some (File c) =>
       match parse c with
       | Some parsed => inr (spread (spread empty (defaults m)) parsed)
       | None => inl SyntaxError
       end
   | Some Dir => inl (FsError "EISDIR")
   | Some (Broken code) =>
       if (code =? "ENOENT")%string then inr (spread empty (defaults m))
       else inl (FsError code)
   | None =>
       match blocked (S (String.length (dirname (path m)))) (dirname (path m))
                     (files w) with
       | Some code =>
           if (code =? "ENOENT")%string then inr (spread empty (defaults m))
           else inl (FsError code)
       | None => inr (spread empty (defaults m))
       end
   end, w).
Proof.
  unfold get. rewrite run_bind, readFile_run. cbn [fst snd].
  destruct (node_at (files w) (path m)) as [[c | | code] | ]; try reflexivity.
  - destruct (parse c); reflexivity.
  - destruct (code =? "ENOENT")%string; reflexivity.
  - destruct (blocked _ _ _) as [code | ]; [ | reflexivity].
    destruct (code =? "ENOENT")%string; reflexivity.
Qed.

(** A directory blocks nothing; with nothing in the way, at worst the
    directory is missing. *)
Lemma blocked_dir (n : nat) (d : string) (fs : string -> option (Node Text)) :
  node_at fs d = Some Dir -> blocked n d fs = None.
Proof. intros H. destruct n; cbn [blocked]; rewrite H; reflexivity. Qed.

Lemma clear_way_blocked (n : nat) :
  forall (d : string) (fs : string -> option (Node Text)),
  clear_way n d fs ->
  blocked n d fs = None \/ blocked n d fs = Some "ENOENT"%string.
Proof.
  induction n as [ | n IH]; intros d fs; cbn [clear_way blocked];
    destruct (node_at fs d) as [[c | | code] | ]; try contradiction; auto.
  intros Hc. destruct (IH _ _ Hc) as [-> | ->]; auto.
Qed.

(** The way up never runs out of fuel. *)
Lemma blocked_fuel (n : nat) :
  forall (d : string) (fs : string -> option (Node Text)),
  (String.length d < n)%nat -> blocked (S n) d fs = blocked n d fs.
Proof.
  assert (Hstep : forall k d (fs : string -> option (Node Text)),
             blocked (S k) d fs
             = match node_at fs d with
               | Some Dir => None
               | Some (File _) => Some "ENOTDIR"%string
               | Some (Broken code) => Some code
               | None =>
                   match blocked k (dirname d) fs with
                   | Some code => Some code
                   | None => Some "ENOENT"%string
                   end
               end) by reflexivity.
  induction n as [ | n IH]; intros d fs Hn; [lia | ].
  rewrite (Hstep (S n) d fs), (Hstep n d fs).
  destruct (node_at fs d) as [[c | | code] | ] eqn:En; try reflexivity.
  destruct (dirname_shorter d) as [Hr | Hl].
  - assert (Hroot : forall k, blocked k (dirname d) fs
                              = blocked 0 (dirname d) fs).
    { intros k. destruct k; [reflexivity | ]. cbn [blocked].
      unfold node_at. rewrite Hr.
      destruct (lookup (dirname d) fs) as [[c' | | code'] | ]; reflexivity. }
    rewrite (Hroot (S n)), (Hroot n). reflexivity.
  - rewrite (IH (dirname d) fs) by lia. reflexivity.
Qed.

(** With nothing in the way [mkdir] succeeds; it creates directories
    where there was nothing, and only at paths no longer than [d]. *)
Lemma mkdir_from_ok (n : nat) :
  forall (t : bool) (d : string) (fs : string -> option (Node Text)),
  clear_way n d fs ->
  exists fs',
    mkdir_from n t d fs = inr fs' /\
    node_at fs' d = Some Dir /\
    forall x, fs' x = fs x \/
              (fs x = None /\ fs' x = Some Dir /\ is_root d = false /\
               (String.length x <= String.length d)%nat).
Proof.
  induction n as [ | n IH]; intros t d fs; cbn [clear_way mkdir_from];
    destruct (node_at fs d) as [[c | | code] | ] eqn:En; try contradiction.
  - intros _. exists fs. auto.
  - intros _. exists fs. auto.
  - intros Hc. destruct (IH false (dirname d) fs Hc) as (fs1 & -> & Hd & Hx).
    destruct (node_at_none _ _ En) as [Hnone Hroot].
    exists (assign d Dir fs1). split; [reflexivity | ].
    split; [rewrite node_at_assign, String.eqb_refl; reflexivity | ].
    intros x. unfold assign. destruct (String.eqb_spec x d) as [-> | Hne].
    + right. auto.
    + destruct (Hx x) as [E | (E1 & E2 & E3 & E4)]; [left; exact E | right].
      repeat split; auto.
      destruct (dirname_shorter d) as [Hr | Hl]; [congruence | lia].
Qed.

(** The recursion of [mkdir] never runs out of fuel. *)
Lemma mkdir_fuel (n : nat) :
  forall (t : bool) (d : string) (fs : string -> option (Node Text)),
  (String.length d < n)%nat ->
  mkdir_from (S n) t d fs = mkdir_from n t d fs.
Proof.
  assert (Hstep : forall k t d (fs : string -> option (Node Text)),
             mkdir_from (S k) t d fs
             = match node_at fs d with
               | Some Dir => inr fs
               | Some (File _) => inl (FsError (if t then "EEXIST" else "ENOTDIR"))
               | Some (Broken code) => inl (FsError code)
               | None =>
                   match mkdir_from k false (dirname d) fs with
                   | inl err => inl err
                   | inr fs' => inr (assign d Dir fs')
                   end
               end) by reflexivity.
  induction n as [ | n IH]; intros t d fs Hn; [lia | ].
  rewrite (Hstep (S n) t d fs), (Hstep n t d fs).
  destruct (node_at fs d) as [[c | | code] | ] eqn:En; try reflexivity.
  destruct (dirname_shorter d) as [Hr | Hl].
  - assert (Hroot : forall k, mkdir_from k false (dirname d) fs
                              = mkdir_from 0 false (dirname d) fs).
    { intros k. destruct k; [reflexivity | ]. cbn [mkdir_from].
      unfold node_at. rewrite Hr.
      destruct (lookup (dirname d) fs) as [[c' | | code'] | ]; reflexivity. }
    rewrite (Hroot (S n)), (Hroot n). reflexivity.
  - rewrite (IH false (dirname d) fs) by lia. reflexivity.
Qed.

(** What [healthy] gives about the three paths [set] touches. *)
Lemma healthy_paths (m : Manager V) (w : World Text) :
  healthy parse m w ->
  dirname (path m) <> path m /\ dirname (path m) <> tempPath m /\
  (is_root (dirname (path m)) = true \/
   (String.length (dirname (path m)) < String.length (path m))%nat).
Proof.
  intros ((Hway & Hp) & Ht & Hd & _).
  split; [ | split; [ | apply dirname_shorter]].
  - intros E. cbn [clear_way] in Hway. rewrite E in Hway.
    destruct (node_at (files w) (path m)) as [[c | | code] | ] eqn:En;
      try contradiction.
    destruct (node_at_none _ _ En) as [_ Hr].
    unfold is_root in Hr. rewrite E, String.eqb_refl in Hr. discriminate.
  - intros E. rewrite <- Hd in E. apply (f_equal String.length) in E.
    pose proof (tempPath_length m).
    destruct (dirname_length (tempPath m)); lia.
Qed.

(** [set] on a healthy file system: the directories, then the text at
    both paths. *)
Lemma set_run (m : Manager V) (st : string -> option V) (w : World Text) :
  healthy parse m w ->
  exists fs1,
    node_at fs1 (dirname (path m)) = Some Dir /\
    (forall x, fs1 x = files w x \/
               (files w x = None /\ fs1 x = Some Dir /\
                (String.length x < String.length (path m))%nat)) /\
    runState (set stringify m st) w =
    (inr tt,
     set_files (assign (path m) (File (stringify st))
                  (assign (tempPath m) (File (stringify st)) fs1)) w).
Proof.
  intros Hw. destruct (healthy_paths m w Hw) as (Hdp & Hdt & Hsh).
  destruct Hw as ((Hway & Hp) & Ht & Hd & Hne).
  destruct (mkdir_from_ok _ true _ _ Hway) as (fs1 & Hmk & Hdir & Hx).
  assert (Hx' : forall x, fs1 x = files w x \/
                 (files w x = None /\ fs1 x = Some Dir /\
                  (String.length x < String.length (path m))%nat)).
  { intros x. destruct (Hx x) as [E | (E1 & E2 & E3 & E4)]; [left; exact E | right].
    repeat split; auto. destruct Hsh as [Hr | Hl]; [congruence | lia]. }
  assert (Hsame : forall x, (String.length (path m) <= String.length x)%nat ->
                            node_at fs1 x = node_at (files w) x).
  { intros x Hlen. apply node_at_same.
    destruct (Hx' x) as [E | (_ & _ & E)]; [exact E | lia]. }
  exists fs1. split; [exact Hdir | split; [exact Hx' | ]].
  unfold set. rewrite run_bind, mkdir_run, Hmk by apply dirname_nonempty.
  cbn [fst snd].
  rewrite run_bind, writeFile_run by apply tempPath_nonempty.
  cbn [files set_files].
  rewrite Hd, (blocked_dir _ _ _ Hdir),
    (Hsame (tempPath m)) by (rewrite tempPath_length; lia).
  assert (Hw2 : forall w0 : World Text,
             runState (writeFile (path m) (stringify st))
               (set_files (assign (tempPath m) (File (stringify st)) fs1) w0)
             = (inr tt,
                set_files (assign (path m) (File (stringify st))
                             (assign (tempPath m) (File (stringify st)) fs1)) w0)).
  { intros w0. rewrite writeFile_run by exact Hne. cbn [files set_files].
    rewrite blocked_dir, node_at_assign, tempPath_eqb, (Hsame (path m)) by
      (lia || (rewrite node_at_assign;
               destruct (String.eqb_spec (dirname (path m)) (tempPath m));
               [contradiction | exact Hdir])).
    destruct (node_at (files w) (path m)) as [[c | | code] | ];
      try contradiction; reflexivity. }
  destruct (node_at (files w) (tempPath m)) as [[c | | code] | ];
    try contradiction; cbn [fst snd]; rewrite Hw2; reflexivity.
Qed.

Lemma set_healthy (m : Manager V) (st : string -> option V) (w : World Text) :
  healthy parse m w ->
  healthy parse m (snd (runState (set stringify m st) w)).
Proof.
  intros Hw. destruct (healthy_paths m w Hw) as (Hdp & Hdt & _).
  destruct (set_run m st w Hw) as (fs1 & Hdir & _ & ->).
  destruct Hw as (_ & _ & Hd & Hne).
  unfold healthy, readable. cbn [snd files set_files clear_way].
  rewrite !node_at_assign.
  apply String.eqb_neq in Hdp, Hdt. rewrite Hdp, Hdt, Hdir.
  rewrite !String.eqb_refl.
  destruct (String.eqb_spec (tempPath m) (path m)) as [E | _];
    [destruct (tempPath_ne m E) | ].
  repeat split; auto. rewrite parse_stringify. discriminate.
Qed.

(** [get] on a file system where the state can be read succeeds and
    changes nothing. *)
Lemma get_readable (m : Manager V) (w : World Text) :
  readable parse m w ->
  exists o,
    runState (get parse m) w = (inr o, w) /\
    forall k, o k = match node_at (files w) (path m) with
                    | Some (File c) =>
                        match parse c with
                        | Some st => merged m st k
                        | None => None
                        end
                    | _ => defaults m k
                    end.
Proof.
  intros (Hway & Hp). rewrite get_eq.
  destruct (node_at (files w) (path m)) as [[c | | code] | ]; try contradiction.
  - destruct (parse c) as [st | ]; [ | contradiction].
    eexists. split; [reflexivity | ].
    intros k. unfold merged, spread, lookup, empty.
    destruct (st k); [reflexivity | destruct (defaults m k); reflexivity].
  - destruct (clear_way_blocked _ _ _ Hway) as [-> | ->]; cbn;
      (eexists; split; [reflexivity | ];
       intros k; unfold spread, empty; destruct (defaults m k); reflexivity).
Qed.

Lemma get_run (m : Manager V) (w : World Text) :
  healthy parse m w ->
  exists o,
    runState (get parse m) w = (inr o, w) /\
    forall k, o k = match node_at (files w) (path m) with
                    | Some (File c) =>
                        match parse c with
                        | Some st => merged m st k
                        | None => None
                        end
                    | _ => defaults m k
                    end.
Proof. intros (Hr & _). exact (get_readable m w Hr). Qed.

(** [set] when the temporary path cannot be written: the directories are
    made, nothing else changes. *)
Lemma set_temp_broken (m : Manager V) (st : string -> option V) (w : World Text)
    (code : string) :
  clear_way (S (String.length (dirname (path m)))) (dirname (path m)) (files w) ->
  dirname (tempPath m) = dirname (path m) ->
  files w (tempPath m) = Some (Broken code) ->
  exists fs1,
    node_at fs1 (dirname (path m)) = Some Dir /\
    (forall x, (String.length (path m) <= String.length x)%nat ->
               fs1 x = files w x) /\
    runState (set stringify m st) w = (inl (FsError code), set_files fs1 w).
Proof.
  intros Hway Hd Hc.
  destruct (mkdir_from_ok _ true _ _ Hway) as (fs1 & Hmk & Hdir & Hx).
  assert (Hsame : forall x, (String.length (path m) <= String.length x)%nat ->
                            fs1 x = files w x).
  { intros x Hlen. destruct (Hx x) as [E | (_ & _ & Hr & Hl)]; [exact E | ].
    destruct (dirname_shorter (path m)) as [Hr' | Hl']; [congruence | lia]. }
  exists fs1. split; [exact Hdir | split; [exact Hsame | ]].
  unfold set. rewrite run_bind, mkdir_run, Hmk by apply dirname_nonempty.
  cbn [fst snd].
  rewrite run_bind, writeFile_run by apply tempPath_nonempty.
  cbn [files set_files].
  assert (Hn : node_at fs1 (tempPath m) = Some (Broken code)).
  { unfold node_at, lookup.
    rewrite (Hsame (tempPath m)) by (rewrite tempPath_length; lia).
    rewrite Hc. reflexivity. }
  rewrite Hd, (blocked_dir _ _ _ Hdir), Hn. reflexivity.
Qed.

Lemma set_get (m : Manager V) (st : string -> option V) (w : World Text) :
  healthy parse m w ->
  let w' := snd (runState (set stringify m st) w) in
  fst (runState (set stringify m st) w) = inr tt /\
  exists o,
    runState (get parse m) w' = (inr o, w') /\
    forall k, o k = merged m st k.
Proof.
  intros Hw w'. pose proof (set_healthy m st w Hw) as Hw'. fold w' in Hw'.
  destruct (set_run m st w Hw) as (fs1 & _ & _ & Hrun).
  split; [rewrite Hrun; reflexivity | ].
  destruct (get_run m w' Hw') as (o & Hget & Ho).
  exists o. split; [exact Hget | ].
  intros k. rewrite Ho. unfold w'. rewrite Hrun. cbn [snd set_files files].
  rewrite node_at_assign, String.eqb_refl.
  rewrite parse_stringify. reflexivity.
Qed.


(** X11. Defaults.  When the state path names nothing and nothing is in
    the way of its directory, [get] returns the defaults and creates
    nothing.  And, assuming that [JSON.parse] inverts
    [JSON.stringify], after [clear] on a healthy file system, which
    succeeds, [get] returns the defaults again, whatever was stored. *)
Theorem get_defaults (m : Manager V) (w : World Text) :
  (node_at (files w) (path m) = None ->
   clear_way (S (String.length (dirname (path m)))) (dirname (path m)) (files w) ->
   exists o, runState (get parse m) w = (inr o, w) /\
             forall k, o k = defaults m k) /\
  (healthy parse m w ->
   let w' := snd (runState (clear stringify m) w) in
   fst (runState (clear stringify m) w) = inr tt /\
   exists o, runState (get parse m) w' = (inr o, w') /\
             forall k, o k = defaults m k).
Proof.
  split.
  - intros Hnone Hway. rewrite get_eq, Hnone.
    destruct (clear_way_blocked _ _ _ Hway) as [-> | ->]; cbn;
      (eexists; split; [reflexivity | ];
       intros k; unfold spread, empty; destruct (defaults m k); reflexivity).
  - intros Hw. unfold clear.
    destruct (set_get m (spread empty (defaults m)) w Hw)
      as (Hok & o & Hget & Ho).
    cbn zeta. split; [exact Hok | ].
    exists o. split; [exact Hget | ].
    intros k. rewrite Ho. unfold merged, spread, lookup, empty.
    destruct (defaults m k); reflexivity.
Qed.

(** X12. Read, modify, write.  Assume that [JSON.parse] inverts
    [JSON.stringify].  On a healthy file system [update fn] applies [fn]
    to what [get] returns (the defaults when there is no file yet) and
    stores the result with [set], which succeeds: a [get] after it returns
    the properties of [fn current] over the defaults. *)
Theorem update_then_get (m : Manager V)
    (fn : (string -> option V) -> string -> option V) (w : World Text) :
  healthy parse m w ->
  exists current,
    runState (get parse m) w = (inr current, w) /\
    runState (update stringify parse m fn) w
    = runState (set stringify m (fn current)) w /\
    let w' := snd (runState (update stringify parse m fn) w) in
    fst (runState (update stringify parse m fn) w) = inr tt /\
    exists o, runState (get parse m) w' = (inr o, w') /\
              forall k, o k = merged m (fn current) k.
Proof.
  intros Hw. destruct (get_run m w Hw) as (current & Hget & _).
  exists current. split; [exact Hget | ].
  assert (Hup : runState (update stringify parse m fn) w
                = runState (set stringify m (fn current)) w).
  { unfold update. rewrite run_bind, Hget. reflexivity. }
  split; [exact Hup | ]. cbn zeta. rewrite Hup.
  destruct (set_get m (fn current) w Hw) as (Hok & Hex).
  split; [exact Hok | exact Hex].
Qed.

(** X13. Failures.  A state file that does not parse makes [get] fail
    with the [SyntaxError], and [update] with it, before anything is
    written; an error of [readFile] other than [ENOENT] is passed on the
    same way, while [ENOENT] gives the defaults; when the directory of
    the state path is a file, [get] fails with [ENOTDIR].  [set] fails in
    [mkdir], before anything is written, when the directory of the state
    path is a file ([EEXIST]) or cannot be accessed; and when the
    directory can be made but the temporary path cannot be written, [set]
    fails with that error, leaves what the state path names as it was,
    and leaves the directory made. *)
Theorem failures_propagate (m : Manager V)
    (fn : (string -> option V) -> string -> option V)
    (st : string -> option V) (w : World Text) :
  (forall c, files w (path m) = Some (File c) -> parse c = None ->
     runState (get parse m) w = (inl SyntaxError, w) /\
     runState (update stringify parse m fn) w = (inl SyntaxError, w)) /\
  (forall code, files w (path m) = Some (Broken code) ->
     (code =? "ENOENT")%string = false ->
     runState (get parse m) w = (inl (FsError code), w) /\
     runState (update stringify parse m fn) w = (inl (FsError code), w)) /\
  (files w (path m) = Some (Broken "ENOENT") ->
     exists o, runState (get parse m) w = (inr o, w) /\
               forall k, o k = defaults m k) /\
  (forall c, files w (dirname (path m)) = Some (File c) ->
     node_at (files w) (path m) = None ->
     runState (get parse m) w = (inl (FsError "ENOTDIR"), w)) /\
  (forall c, files w (dirname (path m)) = Some (File c) ->
     runState (set stringify m st) w = (inl (FsError "EEXIST"), w)) /\
  (forall code, files w (dirname (path m)) = Some (Broken code) ->
     runState (set stringify m st) w = (inl (FsError code), w)) /\
  (forall code,
     clear_way (S (String.length (dirname (path m)))) (dirname (path m)) (files w) ->
     dirname (tempPath m) = dirname (path m) ->
     files w (tempPath m) = Some (Broken code) ->
     let r := runState (set stringify m st) w in
     fst r = inl (FsError code) /\
     files (snd r) (path m) = files w (path m) /\
     node_at (files (snd r)) (dirname (path m)) = Some Dir).
Proof.
  split; [ | split; [ | split; [ | split; [ | split; [ | split]]]]].
  - intros c Hc Hp.
    assert (Hg : runState (get parse m) w = (inl SyntaxError, w)).
    { rewrite get_eq. unfold node_at, lookup. rewrite Hc, Hp. reflexivity. }
    split; [exact Hg | ]. unfold update. rewrite run_bind, Hg. reflexivity.
  - intros code Hc Hne.
    assert (Hg : runState (get parse m) w = (inl (FsError code), w)).
    { rewrite get_eq. unfold node_at, lookup. rewrite Hc, Hne. reflexivity. }
    split; [exact Hg | ]. unfold update. rewrite run_bind, Hg. reflexivity.
  - intros Hb. rewrite get_eq. unfold node_at, lookup. rewrite Hb. cbn.
    eexists. split; [reflexivity | ].
    intros k. unfold spread, empty. destruct (defaults m k); reflexivity.
  - intros c Hc Hnone.
    assert (Hn : node_at (files w) (dirname (path m)) = Some (File c))
      by (unfold node_at, lookup; rewrite Hc; reflexivity).
    rewrite get_eq, Hnone. cbn [blocked]. rewrite Hn. reflexivity.
  - intros c Hc.
    assert (Hn : node_at (files w) (dirname (path m)) = Some (File c))
      by (unfold node_at, lookup; rewrite Hc; reflexivity).
    unfold set. rewrite run_bind, mkdir_run by apply dirname_nonempty.
    cbn [mkdir_from]. rewrite Hn. reflexivity.
  - intros code Hc.
    assert (Hn : node_at (files w) (dirname (path m)) = Some (Broken code))
      by (unfold node_at, lookup; rewrite Hc; reflexivity).
    unfold set. rewrite run_bind, mkdir_run by apply dirname_nonempty.
    cbn [mkdir_from]. rewrite Hn. reflexivity.
  - intros code Hway Hd Hc. cbn zeta.
    destruct (set_temp_broken m st w code Hway Hd Hc) as (fs1 & Hdir & Hsame & ->).
    cbn [fst snd files set_files].
    split; [reflexivity | split; [apply Hsame; lia | exact Hdir]].
Qed.

End StateManagerFacts.

(** * Properties of HeartbeatManager *)

Section HeartbeatFacts.

Import Stdlib.Strings.String.
Import StateManager.
Import HeartbeatManager.

Context {Text : Type}.
Variable stringify : HeartbeatState -> Text.
Variable parse : Text -> option HeartbeatState.

(** What is written can be read back. *)
Hypothesis parse_stringify : forall o, parse (stringify o) = Some o.

Lemma existsb_same {A : Type} (f g : A -> bool) (l : list A) :
  (forall x, f x = g x) -> existsb f l = existsb g l.
Proof.
  intros H. induction l as [ | x l IH]; [reflexivity | ].
  cbn. rewrite H, IH. reflexivity.
Qed.

Lemma filter_none {A : Type} (f : A -> bool) (l : list A) :
  (forall x, In x l -> f x = false) -> filter f l = [].
Proof.
  induction l as [ | x l IH]; intros H; [reflexivity | ].
  cbn. rewrite (H x (or_introl eq_refl)). apply IH.
  intros y Hy. apply H. right. exact Hy.
Qed.

(** On a usable file system the state [get] returns has a [lastChecks]
    object. *)
Lemma hb_get (p : string) (w : World Text) :
  usable parse (constructor p) w ->
  exists (st : HeartbeatState) (r : string -> option Z),
    runState (get parse (constructor p)) w = (inr st, w) /\
    st "lastChecks"%string = Some (Times r) /\
    forall i, recorded parse (constructor p) w i = member r i.
Proof.
  intros [Hw Hnull]. destruct (get_run parse _ w Hw) as (o & Hget & Ho).
  assert (Hlc : exists r, o "lastChecks"%string = Some (Times r)).
  { rewrite Ho. destruct Hw as ((_ & Hp) & _). unfold well_formed in Hnull.
    destruct (node_at (files w) (path (constructor p))) as [[c | | code] | ];
      try contradiction; try (cbn; eauto; fail).
    destruct (parse c) as [st | ]; [ | contradiction].
    unfold merged, lookup in *.
    destruct (st "lastChecks"%string) as [[ | r] | ]; cbn; eauto.
    contradiction. }
  destruct Hlc as [r Hr]. exists o, r. repeat split; auto.
  intros i. unfold recorded. rewrite Hget. cbn [fst].
  unfold lastChecks_at, lookup. rewrite Hr. reflexivity.
Qed.

(** [usable] and [recorded] look at the files only. *)
Lemma usable_files (m : Manager LastChecks) (w1 w2 : World Text) :
  files w1 = files w2 -> usable parse m w1 -> usable parse m w2.
Proof. unfold usable, well_formed, healthy, readable. intros <-. auto. Qed.

Lemma recorded_files (m : Manager LastChecks) (w1 w2 : World Text) (j : string) :
  files w1 = files w2 -> recorded parse m w1 j = recorded parse m w2 j.
Proof.
  intros Hf. unfold recorded. rewrite !get_eq. cbn [fst]. rewrite Hf. reflexivity.
Qed.

(** Recording the time [t] for the check [i]. *)
Lemma hb_stamp (p i : string) (t : Z) (w : World Text) :
  usable parse (constructor p) w ->
  let r := runState (update stringify parse (constructor p) (stamp i t)) w in
  fst r = inr tt /\
  usable parse (constructor p) (snd r) /\
  clock (snd r) = clock w /\ invoked (snd r) = invoked w /\
  logged (snd r) = logged w /\
  forall j, recorded parse (constructor p) (snd r) j
            = if (j =? i)%string then Number t
              else recorded parse (constructor p) w j.
Proof.
  intros Hu. destruct (hb_get p w Hu) as (st & r0 & Hget & Hr0 & Hrec).
  destruct Hu as [Hw _].
  assert (Hup : runState (update stringify parse (constructor p) (stamp i t)) w
                = runState (set stringify (constructor p) (stamp i t st)) w)
    by (unfold update; rewrite run_bind, Hget; reflexivity).
  cbn zeta. rewrite Hup.
  pose proof (set_healthy stringify parse parse_stringify _ (stamp i t st) w Hw)
    as Hw'.
  destruct (set_get stringify parse parse_stringify _ (stamp i t st) w Hw)
    as (Hok & o & Hget' & Ho).
  destruct (set_run stringify parse _ (stamp i t st) w Hw) as (fs1 & _ & _ & Hrun).
  assert (Hlc : o "lastChecks"%string
                = Some (Times (assign i t (spread empty r0)))).
  { rewrite Ho. unfold merged, lookup, stamp, lookup. rewrite Hr0. reflexivity. }
  cbn zeta in Hget'. rewrite Hrun in Hget', Hw', Hok |- *. cbn [fst snd] in *.
  split; [reflexivity | split; [split; [exact Hw' | ] | ]].
  - unfold well_formed. cbn [snd files set_files].
    rewrite node_at_assign, String.eqb_refl, parse_stringify.
    unfold stamp, lookup. rewrite Hr0. cbn. discriminate.
  - cbn [snd clock invoked logged set_files].
    split; [reflexivity | split; [reflexivity | split; [reflexivity | ]]].
    intros j. unfold recorded at 1. rewrite Hget'. cbn [fst].
    unfold lastChecks_at, lookup. rewrite Hlc.
    unfold member, lookup, assign. destruct (j =? i)%string; [reflexivity | ].
    rewrite Hrec. unfold member, lookup, spread, empty.
    destruct (r0 j); reflexivity.
Qed.

(** The loop of [run] against the list it walks: [due0] decides from the
    state read at the start. *)
Lemma run_loop_spec (p : string) (st : HeartbeatState) (r0 : string -> option Z)
    (now : Z) :
  st "lastChecks"%string = Some (Times r0) ->
  forall (checks : list CheckConfig) (alerts : list string) (w : World Text),
  usable parse (constructor p) w ->
  let due0 := fun c => negb (less (minus now (or_zero (member r0 (id c))))
                                  (intervalMs c)) in
  let res := runState (run_loop stringify parse (constructor p) st now
                         checks alerts) w in
  fst res = inr (alerts ++ map alert_of
                   (filter (fun c => due0 c && alarming c) checks)) /\
  usable parse (constructor p) (snd res) /\
  clock (snd res) = clock w /\
  invoked (snd res) = invoked w ++ map id (filter due0 checks) /\
  logged (snd res)
  = logged w ++ map id (filter (fun c => due0 c && negb (resolved c)) checks) /\
  forall j, recorded parse (constructor p) (snd res) j
            = if existsb (fun c => due0 c && resolved c && (id c =? j)%string)
                         checks
              then Number now else recorded parse (constructor p) w j.
Proof.
  intros Hr0.
  induction checks as [ | c rest IH]; intros alerts w Hw; cbn zeta.
  - cbn. rewrite !app_nil_r. repeat split; auto; apply Hw.
  - cbn [run_loop]. unfold lastChecks_at, lookup. rewrite Hr0.
    cbn [filter map existsb].
    destruct (less (minus now (or_zero (member r0 (id c)))) (intervalMs c))
      eqn:Edue; cbn [negb andb orb].
    + apply (IH alerts w Hw).
    + rewrite run_bind.
      set (w1 := snd (runState (call_check (id c)) w)).
      assert (Hw1 : usable parse (constructor p) w1)
        by (apply (usable_files _ w); [reflexivity | exact Hw]).
      assert (Hrec1 : forall j, recorded parse (constructor p) w1 j
                                = recorded parse (constructor p) w j)
        by (intros j; apply recorded_files; reflexivity).
      unfold resolved, alarming. destruct (check c) as [b | ]; cbn [negb andb].
      * rewrite run_bind.
        destruct (hb_stamp p (id c) now w1 Hw1)
          as (Hok & Hw2 & Hc2 & Hi2 & Hl2 & Hrec2).
        cbn zeta in *.
        destruct (runState (update stringify parse (constructor p)
                              (stamp (id c) now)) w1) as [u w2].
        cbn [fst snd] in *. subst u.
        destruct (IH (if b then alerts ++ [alert_of c] else alerts) w2 Hw2)
          as (Ha & Hh & Hc & Hi & Hl & Hrec).
        cbn zeta in *.
        split; [rewrite Ha; destruct b; cbn [map]; rewrite <- ?app_assoc; reflexivity | ].
        split; [exact Hh | ].
        split; [rewrite Hc, Hc2; reflexivity | ].
        split; [rewrite Hi, Hi2; cbn; rewrite <- app_assoc; reflexivity | ].
        split; [rewrite Hl, Hl2; reflexivity | ].
        intros j. rewrite Hrec, Hrec2, Hrec1. rewrite (String.eqb_sym (id c) j).
        destruct (j =? id c)%string; cbn [orb];
          [destruct (existsb _ rest) | ]; reflexivity.
      * rewrite run_bind.
        set (w2 := snd (runState (console_error (id c)) w1)).
        assert (Hw2 : usable parse (constructor p) w2)
          by (apply (usable_files _ w1); [reflexivity | exact Hw1]).
        destruct (IH alerts w2 Hw2) as (Ha & Hh & Hc & Hi & Hl & Hrec).
        cbn zeta in *.
        split; [exact Ha | split; [exact Hh | ]].
        split; [rewrite Hc; reflexivity | ].
        split; [rewrite Hi; cbn; rewrite <- app_assoc; reflexivity | ].
        split; [rewrite Hl; cbn; rewrite <- app_assoc; reflexivity | ].
        intros j. rewrite Hrec. cbn [orb].
        rewrite (recorded_files _ w2 w1 j eq_refl). rewrite Hrec1. reflexivity.
Qed.

(** [run] up to its loop: one read of the state, one of the clock. *)
Lemma run_unfold (p : string) (checks : list CheckConfig) (w : World Text) :
  usable parse (constructor p) w ->
  exists (st : HeartbeatState) (r0 : string -> option Z),
    st "lastChecks"%string = Some (Times r0) /\
    (forall i, member r0 i = recorded parse (constructor p) w i) /\
    runState (run stringify parse (constructor p) checks) w
    = runState (run_loop stringify parse (constructor p) st
                  (fst (env_read (clock w))) checks [])
               (mkWorld (files w) (snd (env_read (clock w)))
                        (invoked w) (logged w)).
Proof.
  intros Hw. destruct (hb_get p w Hw) as (st & r0 & Hget & Hr0 & Hrec).
  exists st, r0. split; [exact Hr0 | split; [intros i; symmetry; apply Hrec | ]].
  unfold run. rewrite run_bind. unfold HeartbeatState in *. rewrite Hget.
  cbn [fst snd]. rewrite run_bind. reflexivity.
Qed.

(** The whole effect of [run]. *)
Lemma run_effect (p : string) (checks : list CheckConfig) (w : World Text) :
  usable parse (constructor p) w ->
  let m := constructor p in
  let t := fst (env_read (clock w)) in
  let res := runState (run stringify parse m checks) w in
  fst res = inr (map alert_of
                   (filter (fun c => due parse m w t c && alarming c) checks)) /\
  invoked (snd res) = invoked w ++ map id (filter (due parse m w t) checks) /\
  logged (snd res)
  = logged w ++ map id (filter (fun c => due parse m w t c && negb (resolved c))
                               checks) /\
  (forall j, recorded parse m (snd res) j
             = if existsb (fun c => due parse m w t c && resolved c
                                    && (id c =? j)%string) checks
               then Number t else recorded parse m w j) /\
  now (clock (snd res)) = t /\
  usable parse m (snd res).
Proof.
  intros Hw m t res.
  destruct (run_unfold p checks w Hw) as (st & r0 & Hr0 & Hrec0 & Hrun).
  unfold res, m. rewrite Hrun.
  destruct (run_loop_spec p st r0 t Hr0 checks []
              (mkWorld (files w) (snd (env_read (clock w))) (invoked w) (logged w)))
    as (Ha & Hh & Hc & Hi & Hl & Hrec).
  { apply (usable_files _ w); [reflexivity | exact Hw]. }
  cbn zeta in *.
  assert (Hdue : forall c, negb (less (minus t (or_zero (member r0 (id c))))
                                      (intervalMs c))
                           = due parse (constructor p) w t c)
    by (intros c; unfold due; rewrite Hrec0; reflexivity).
  assert (F : forall g : CheckConfig -> bool,
             filter (fun c => negb (less (minus t (or_zero (member r0 (id c))))
                                         (intervalMs c)) && g c) checks
             = filter (fun c => due parse (constructor p) w t c && g c) checks).
  { intros g. apply filter_ext. intros c. rewrite Hdue. reflexivity. }
  fold t. rewrite Ha, Hi, Hl, !F.
  rewrite (filter_ext _ _ Hdue checks).
  split; [reflexivity | split; [reflexivity | split; [reflexivity | split]]].
  - intros j. rewrite Hrec.
    rewrite (recorded_files (constructor p)
               (mkWorld (files w) (snd (env_read (clock w))) (invoked w) (logged w))
               w j eq_refl).
    rewrite (existsb_same
               (fun c => negb (less (minus t (or_zero (member r0 (id c))))
                                    (intervalMs c)) && resolved c
                         && (id c =? j)%string)
               (fun c => due parse (constructor p) w t c && resolved c
                         && (id c =? j)%string))
      by (intros c; rewrite Hdue; reflexivity).
    reflexivity.
  - split; [exact (f_equal now Hc) | exact Hh].
Qed.

(** X14. What [run] does.  Assume that [JSON.parse] inverts
    [JSON.stringify], a healthy file system, and a state file that, if
    there is one, does not hold [lastChecks: null].  Then [run] reads the
    state and the clock once; it calls exactly the checks that are due
    (in list order): those for which the file records a member of
    [Object.prototype] under their name, and those whose interval has
    passed since the time recorded for them, [0] when nothing is
    recorded.  It returns the alert of each called check that resolved to
    [true] (in list order), writes one console error per called check
    that rejected, and records the time of the run for the checks that
    resolved, and for no other. *)
Theorem run_spec (p : string) (checks : list CheckConfig) (w : World Text) :
  usable parse (constructor p) w ->
  let m := constructor p in
  let t := fst (env_read (clock w)) in
  let res := runState (run stringify parse m checks) w in
  fst res = inr (map alert_of
                   (filter (fun c => due parse m w t c && alarming c) checks)) /\
  invoked (snd res) = invoked w ++ map id (filter (due parse m w t) checks) /\
  logged (snd res)
  = logged w ++ map id (filter (fun c => due parse m w t c && negb (resolved c))
                               checks) /\
  (forall j, recorded parse m (snd res) j
             = if existsb (fun c => due parse m w t c && resolved c
                                    && (id c =? j)%string) checks
               then Number t else recorded parse m w j) /\
  now (clock (snd res)) = t /\
  usable parse m (snd res).
Proof. intros Hw. exact (run_effect p checks w Hw). Qed.

(** X15. Intervals are respected.  Assume that [JSON.parse] inverts
    [JSON.stringify], a healthy file system, and a state file that does
    not hold [lastChecks: null].  After a run, a second run whose checks
    were all called in the first one and resolved there, and whose
    intervals have not yet passed since the first run, calls no check,
    returns no alert, writes no console error and leaves what is recorded
    as it is. *)
Theorem run_respects_intervals (p : string) (checks1 checks2 : list CheckConfig)
    (w : World Text) :
  usable parse (constructor p) w ->
  let m := constructor p in
  let t1 := fst (env_read (clock w)) in
  let w1 := snd (runState (run stringify parse m checks1) w) in
  let t2 := fst (env_read (clock w1)) in
  let res2 := runState (run stringify parse m checks2) w1 in
  (forall c2, In c2 checks2 ->
     t2 - t1 < intervalMs c2 /\
     exists c1, In c1 checks1 /\ id c1 = id c2 /\
                due parse m w t1 c1 = true /\ resolved c1 = true) ->
  fst res2 = inr [] /\
  invoked (snd res2) = invoked w1 /\
  logged (snd res2) = logged w1 /\
  forall j, recorded parse m (snd res2) j = recorded parse m w1 j.
Proof.
  intros Hw m t1 w1 t2 res2 Hall.
  destruct (run_effect p checks1 w Hw) as (_ & _ & _ & Hrec1 & _ & Hw1).
  cbn zeta in Hrec1, Hw1. fold m t1 w1 in Hw1, Hrec1.
  assert (Hnot : forall c2, In c2 checks2 -> due parse m w1 t2 c2 = false).
  { intros c2 Hin. destruct (Hall c2 Hin) as (Hlt & c1 & Hin1 & Hid & Hd & Hr).
    unfold due at 1. rewrite Hrec1.
    assert (Hex : existsb (fun c => due parse m w t1 c && resolved c
                                    && (id c =? id c2)%string) checks1 = true).
    { apply existsb_exists. exists c1. split; [exact Hin1 | ].
      rewrite Hd, Hr, Hid, String.eqb_refl. reflexivity. }
    rewrite Hex. cbn [or_zero].
    destruct (Z.eqb_spec t1 0) as [E | E]; cbn [minus less negb];
      destruct (Z.ltb_spec (t2 - 0) (intervalMs c2));
      destruct (Z.ltb_spec (t2 - t1) (intervalMs c2)); try reflexivity; lia. }
  destruct (run_effect p checks2 w1 Hw1) as (Ha & Hi & Hl & Hrec & _).
  cbn zeta in Ha, Hi, Hl, Hrec. fold m t2 res2 in Ha, Hi, Hl, Hrec.
  assert (F1 : filter (due parse m w1 t2) checks2 = [])
    by (apply filter_none; exact Hnot).
  assert (F2 : forall g : CheckConfig -> bool,
             filter (fun c => due parse m w1 t2 c && g c) checks2 = []).
  { intros g. apply filter_none. intros c Hc. rewrite (Hnot c Hc). reflexivity. }
  rewrite Ha, Hi, Hl, F1, !F2. cbn. rewrite !app_nil_r.
  split; [reflexivity | split; [reflexivity | split; [reflexivity | ]]].
  intros j. rewrite Hrec.
  assert (Hex : existsb (fun c => due parse m w1 t2 c && resolved c
                                  && (id c =? j)%string) checks2 = false).
  { apply not_true_is_false. intros Hex. apply existsb_exists in Hex.
    destruct Hex as (c & Hc & Hx). rewrite (Hnot c Hc) in Hx. discriminate. }
  rewrite Hex. reflexivity.
Qed.

(** [getNextCheckTime] from what is recorded. *)
Lemma getNextCheckTime_run (p i : string) (interval : Z) (w : World Text) :
  usable parse (constructor p) w ->
  let last := recorded parse (constructor p) w i in
  let t := fst (env_read (clock w)) in
  runState (getNextCheckTime parse (constructor p) i interval) w =
  if falsy last then (inr 0, w)
  else (inr match last with
            | Number n => Z.max (interval - (t - n)) 0
            | _ => 0
            end,
        mkWorld (files w) (snd (env_read (clock w))) (invoked w) (logged w)).
Proof.
  intros Hw. destruct (hb_get p w Hw) as (st & r0 & Hget & Hr0 & Hrec).
  cbn zeta. rewrite Hrec. unfold getNextCheckTime. rewrite run_bind.
  unfold HeartbeatState in *. rewrite Hget. cbn [fst snd].
  unfold lastChecks_at, lookup. rewrite Hr0.
  destruct (member r0 i) as [ | n | ]; cbn [falsy]; [reflexivity | | ].
  - destruct (n =? 0); [reflexivity | ]. rewrite run_bind. cbn.
    destruct (Z.ltb_spec 0 (interval - (now (clock w) + elapse (clock w) (tick (clock w))
                                        - n)));
      (rewrite Z.max_l by lia) || (rewrite Z.max_r by lia); reflexivity.
  - rewrite run_bind. reflexivity.
Qed.

(** A run with one check calls it, or not. *)
Lemma run_one (p : string) (c : CheckConfig) (w : World Text) :
  usable parse (constructor p) w ->
  invoked (snd (runState (run stringify parse (constructor p) [c]) w))
  = if due parse (constructor p) w (fst (env_read (clock w))) c
    then invoked w ++ [id c] else invoked w.
Proof.
  intros Hw. destruct (run_effect p [c] w Hw) as (_ & Hi & _).
  cbn zeta in Hi. rewrite Hi. cbn [filter].
  destruct (due _ _ _ _ c); cbn; [reflexivity | apply app_nil_r].
Qed.

(** X16. Time until the next check.  Assume a healthy file system and a
    state file that does not hold [lastChecks: null].  Then
    [getNextCheckTime] never fails and never returns a negative number.
    When nothing, or the time [0], is recorded for the check it returns
    [0] without reading the clock.  Otherwise it reads the clock once
    and, for a recorded time, returns what is left of the interval; for a
    name that [Object.prototype] defines it returns [0].  Compared with a
    [run] of this one check at the same clock value: [run] calls the
    check or leaves it alone, and it calls it exactly when
    [getNextCheckTime] returns [0] and, if nothing (or [0]) is recorded,
    the clock value has reached the interval. *)
Theorem getNextCheckTime_spec (p i : string) (interval : Z)
    (o : CheckOutcome) (msg : option string) (w : World Text) :
  usable parse (constructor p) w ->
  let m := constructor p in
  let last := recorded parse m w i in
  let t := fst (env_read (clock w)) in
  let r := runState (getNextCheckTime parse m i interval) w in
  let called :=
    invoked (snd (runState (run stringify parse m [mkCheck i interval o msg]) w)) in
  exists v, fst r = inr v /\ 0 <= v /\
    (falsy last = true -> v = 0 /\ snd r = w) /\
    (falsy last = false ->
       now (clock (snd r)) = t /\ files (snd r) = files w /\
       v = match last with
           | Number n => Z.max (interval - (t - n)) 0
           | _ => 0
           end) /\
    (called = invoked w \/ called = invoked w ++ [i]) /\
    (called = invoked w ++ [i] <->
     v = 0 /\ (falsy last = true -> interval <= t)).
Proof.
  intros Hw m last t r called.
  assert (Hne : invoked w <> invoked w ++ [i]).
  { intros E. rewrite <- (app_nil_r (invoked w)) in E at 1.
    apply app_inv_head in E. discriminate. }
  unfold called, r, m. rewrite (run_one p _ w Hw).
  rewrite (getNextCheckTime_run p i interval w Hw).
  unfold due. cbn [id intervalMs]. fold m last t.
  destruct last as [ | n | ]; cbn [falsy or_zero minus less negb].
  - exists 0. cbn [fst snd].
    destruct (Z.ltb_spec (t - 0) interval); cbn [negb];
      repeat split; auto; try lia; try discriminate; try tauto;
      try (intros [_ H']; specialize (H' eq_refl); lia).
  - destruct (Z.eqb_spec n 0) as [-> | Hn]; cbn [minus less].
    + exists 0. cbn [fst snd].
      destruct (Z.ltb_spec (t - 0) interval); cbn [negb];
        repeat split; auto; try lia; try discriminate; try tauto;
        try (intros [_ H']; specialize (H' eq_refl); lia).
    + exists (Z.max (interval - (t - n)) 0). cbn [fst snd clock files].
      destruct (Z.ltb_spec (t - n) interval); cbn [negb];
        repeat split; auto; try lia; try discriminate; try tauto;
        try (intros [H' _]; lia).
  - exists 0. cbn [fst snd clock files].
    repeat split; auto; try lia; try discriminate; try tauto.
Qed.

(** X17. Forcing a check.  Assume that [JSON.parse] inverts
    [JSON.stringify], a healthy file system, and a state file that does
    not hold [lastChecks: null].  Then [resetCheck] succeeds, records the
    time [0] for the check and leaves what is recorded for every other
    check; after it [getNextCheckTime] returns [0] for the check without
    reading the clock, a [run] over any list that holds the check calls
    it when the clock value it reads is at least the interval of the
    check, and a [run] of the check alone leaves it alone when the clock
    value is less. *)
Theorem resetCheck_forces (p i : string) (interval : Z) (w : World Text) :
  usable parse (constructor p) w ->
  let m := constructor p in
  let r := runState (resetCheck stringify parse m i) w in
  let w1 := snd r in
  let t1 := fst (env_read (clock w1)) in
  fst r = inr tt /\
  recorded parse m w1 i = Number 0 /\
  (forall j, j <> i -> recorded parse m w1 j = recorded parse m w j) /\
  runState (getNextCheckTime parse m i interval) w1 = (inr 0, w1) /\
  (forall checks c, In c checks -> id c = i -> intervalMs c <= t1 ->
     exists called,
       invoked (snd (runState (run stringify parse m checks) w1))
       = invoked w1 ++ called /\ In i called) /\
  (forall c, id c = i -> t1 < intervalMs c ->
     invoked (snd (runState (run stringify parse m [c]) w1)) = invoked w1).
Proof.
  intros Hw m r w1 t1. unfold t1, w1, r, m, resetCheck.
  destruct (hb_stamp p i 0 w Hw) as (Hok & Hw' & _ & _ & _ & Hrec).
  cbn zeta in *.
  set (w' := snd (runState (update stringify parse (constructor p) (stamp i 0)) w))
    in *.
  assert (Hi : recorded parse (constructor p) w' i = Number 0)
    by (rewrite Hrec, String.eqb_refl; reflexivity).
  assert (Hdue : forall c t, id c = i ->
             due parse (constructor p) w' t c = negb (t <? intervalMs c)).
  { intros c t <-. unfold due. rewrite Hi. cbn. rewrite Z.sub_0_r. reflexivity. }
  split; [exact Hok | split; [exact Hi | split; [ | split; [ | split]]]].
  - intros j Hj. rewrite Hrec. apply String.eqb_neq in Hj. rewrite Hj. reflexivity.
  - rewrite (getNextCheckTime_run p i interval _ Hw'). cbn zeta. rewrite Hi.
    reflexivity.
  - intros checks c Hin Hid Hle.
    destruct (run_effect p checks w' Hw') as (_ & Hinv & _). cbn zeta in Hinv.
    eexists. split; [exact Hinv | ].
    rewrite <- Hid. apply in_map. apply filter_In. split; [exact Hin | ].
    rewrite (Hdue c _ Hid).
    destruct (Z.ltb_spec (fst (env_read (clock w'))) (intervalMs c));
      [lia | reflexivity].
  - intros c Hid Hlt. rewrite (run_one p c w' Hw'), (Hdue c _ Hid).
    destruct (Z.ltb_spec (fst (env_read (clock w'))) (intervalMs c));
      [reflexivity | lia].
Qed.

(** X18. A state file that does not parse.  [run] then rejects with the
    [SyntaxError] before it reads the clock or calls any check, and
    [resetCheck] and [getNextCheckTime] reject the same way; nothing is
    written, so the heartbeat stays out of order until the file is
    repaired or removed. *)
Theorem corrupt_state_file (p i : string) (interval : Z)
    (checks : list CheckConfig) (c : Text) (w : World Text) :
  files w p = Some (File c) -> parse c = None ->
  let m := constructor p in
  runState (run stringify parse m checks) w = (inl SyntaxError, w) /\
  runState (resetCheck stringify parse m i) w = (inl SyntaxError, w) /\
  runState (getNextCheckTime parse m i interval) w = (inl SyntaxError, w).
Proof.
  intros Hf Hp m.
  assert (Hg : runState (get parse m) w = (inl SyntaxError, w)).
  { rewrite get_eq. unfold node_at, lookup. cbn [path m constructor].
    rewrite Hf, Hp. reflexivity. }
  unfold run, resetCheck, update, getNextCheckTime.
  rewrite !run_bind. unfold HeartbeatState in *. rewrite Hg.
  repeat split.
Qed.

(** When the state cannot be saved, [update] fails after [get] and
    [mkdir], and what is recorded stays. *)
Lemma hb_stamp_fails (p i code : string) (t : Z) (w : World Text) :
  unwritable parse (constructor p) w code ->
  let r := runState (update stringify parse (constructor p) (stamp i t)) w in
  fst r = inl (FsError code) /\
  unwritable parse (constructor p) (snd r) code /\
  clock (snd r) = clock w /\ invoked (snd r) = invoked w /\
  logged (snd r) = logged w /\
  files (snd r) (path (constructor p)) = files w (path (constructor p)) /\
  forall j, recorded parse (constructor p) (snd r) j
            = recorded parse (constructor p) w j.
Proof.
  intros (Hr & Hwf & Ht & Hd). cbn zeta.
  destruct (get_readable parse _ w Hr) as (st & Hget & _).
  destruct Hr as (Hway & Hp).
  destruct (set_temp_broken stringify (constructor p) (stamp i t st) w code
              Hway Hd Ht) as (fs1 & Hdir & Hsame & Hset).
  assert (Hup : runState (update stringify parse (constructor p) (stamp i t)) w
                = (inl (FsError code), set_files fs1 w)).
  { unfold update. rewrite run_bind. unfold HeartbeatState in *.
    rewrite Hget. cbn [fst snd]. exact Hset. }
  rewrite Hup. cbn [fst snd files clock invoked logged set_files].
  assert (Hnode : node_at fs1 (path (constructor p))
                  = node_at (files w) (path (constructor p)))
    by (apply node_at_same, Hsame; lia).
  split; [reflexivity | split; [ | split; [reflexivity | split; [reflexivity | split;
    [reflexivity | split; [apply Hsame; lia | ]]]]]].
  - unfold unwritable, readable, well_formed.
    cbn [files set_files clear_way]. rewrite Hdir, Hnode.
    repeat split; auto.
    unfold lookup. rewrite Hsame; [exact Ht | ].
    unfold tempPath. rewrite string_length_append. lia.
  - intros j. unfold recorded. rewrite !get_eq. cbn [fst files set_files].
    rewrite Hnode, (blocked_dir _ _ _ Hdir).
    destruct (node_at (files w) (path (constructor p))) as [[c | | code'] | ];
      try reflexivity.
    destruct (clear_way_blocked _ _ _ Hway) as [-> | ->]; reflexivity.
Qed.

Lemma unwritable_files (m : Manager LastChecks) (w1 w2 : World Text)
    (code : string) :
  files w1 = files w2 -> unwritable parse m w1 code -> unwritable parse m w2 code.
Proof. unfold unwritable, well_formed, readable. intros <-. auto. Qed.

Lemma hb_get_unwritable (p code : string) (w : World Text) :
  unwritable parse (constructor p) w code ->
  exists (st : HeartbeatState) (r : string -> option Z),
    runState (get parse (constructor p)) w = (inr st, w) /\
    st "lastChecks"%string = Some (Times r) /\
    forall i, recorded parse (constructor p) w i = member r i.
Proof.
  intros (Hr & Hnull & _). destruct (get_readable parse _ w Hr) as (o & Hget & Ho).
  assert (Hlc : exists r, o "lastChecks"%string = Some (Times r)).
  { rewrite Ho. destruct Hr as (_ & Hp). unfold well_formed in Hnull.
    destruct (node_at (files w) (path (constructor p))) as [[c | | code'] | ];
      try contradiction; try (cbn; eauto; fail).
    destruct (parse c) as [st | ]; [ | contradiction].
    unfold merged, lookup in *.
    destruct (st "lastChecks"%string) as [[ | r] | ]; cbn; eauto.
    contradiction. }
  destruct Hlc as [r Hr']. exists o, r. repeat split; auto.
  intros i. unfold recorded. rewrite Hget. cbn [fst].
  unfold lastChecks_at, lookup. rewrite Hr'. reflexivity.
Qed.

(** The loop of [run] when the state cannot be saved. *)
Lemma run_loop_unwritable (p code : string) (st : HeartbeatState)
    (r0 : string -> option Z) (now : Z) :
  st "lastChecks"%string = Some (Times r0) ->
  forall (checks : list CheckConfig) (alerts : list string) (w : World Text),
  unwritable parse (constructor p) w code ->
  let due0 := fun c => negb (less (minus now (or_zero (member r0 (id c))))
                                  (intervalMs c)) in
  let res := runState (run_loop stringify parse (constructor p) st now
                         checks alerts) w in
  fst res = inr alerts /\
  unwritable parse (constructor p) (snd res) code /\
  clock (snd res) = clock w /\
  invoked (snd res) = invoked w ++ map id (filter due0 checks) /\
  logged (snd res) = logged w ++ map id (filter due0 checks) /\
  files (snd res) (path (constructor p)) = files w (path (constructor p)) /\
  forall j, recorded parse (constructor p) (snd res) j
            = recorded parse (constructor p) w j.
Proof.
  intros Hr0.
  induction checks as [ | c rest IH]; intros alerts w Hw; cbn zeta.
  - cbn. rewrite !app_nil_r. repeat split; auto; apply Hw.
  - cbn [run_loop]. unfold lastChecks_at, lookup. rewrite Hr0.
    cbn [filter map].
    destruct (less (minus now (or_zero (member r0 (id c)))) (intervalMs c))
      eqn:Edue; cbn [negb].
    + apply (IH alerts w Hw).
    + rewrite run_bind.
      set (w1 := snd (runState (call_check (id c)) w)).
      assert (Hw1 : unwritable parse (constructor p) w1 code)
        by (apply (unwritable_files _ w); [reflexivity | exact Hw]).
      assert (Hrec1 : forall j, recorded parse (constructor p) w1 j
                                = recorded parse (constructor p) w j)
        by (intros j; apply recorded_files; reflexivity).
      assert (Hlog : forall w2 : World Text,
                 unwritable parse (constructor p) w2 code ->
                 clock w2 = clock w -> invoked w2 = invoked w ++ [id c] ->
                 logged w2 = logged w ->
                 files w2 (path (constructor p)) = files w (path (constructor p)) ->
                 (forall j, recorded parse (constructor p) w2 j
                            = recorded parse (constructor p) w j) ->
                 let res := runState (console_error (id c) ;;
                                      run_loop stringify parse (constructor p) st
                                        now rest alerts) w2 in
                 fst res = inr alerts /\
                 unwritable parse (constructor p) (snd res) code /\
                 clock (snd res) = clock w /\
                 invoked (snd res)
                 = invoked w ++ id c :: map id (filter
                     (fun c0 => negb (less (minus now (or_zero (member r0 (id c0))))
                                           (intervalMs c0))) rest) /\
                 logged (snd res)
                 = logged w ++ id c :: map id (filter
                     (fun c0 => negb (less (minus now (or_zero (member r0 (id c0))))
                                           (intervalMs c0))) rest) /\
                 files (snd res) (path (constructor p))
                 = files w (path (constructor p)) /\
                 forall j, recorded parse (constructor p) (snd res) j
                           = recorded parse (constructor p) w j).
      { intros w2 Hw2 Hc2 Hi2 Hl2 Hf2 Hrec2. cbn zeta. rewrite run_bind.
        set (w3 := snd (runState (console_error (id c)) w2)).
        assert (Hw3 : unwritable parse (constructor p) w3 code)
          by (apply (unwritable_files _ w2); [reflexivity | exact Hw2]).
        destruct (IH alerts w3 Hw3) as (Ha & Hh & Hc & Hi & Hl & Hf & Hrec).
        cbn zeta in *.
        split; [exact Ha | split; [exact Hh | ]].
        split; [rewrite Hc; exact Hc2 | ].
        split; [rewrite Hi; cbn; rewrite Hi2, <- app_assoc; reflexivity | ].
        split; [rewrite Hl; cbn; rewrite Hl2, <- app_assoc; reflexivity | ].
        split; [rewrite Hf; exact Hf2 | ].
        intros j. rewrite Hrec.
        rewrite (recorded_files _ w3 w2 j eq_refl). apply Hrec2. }
      destruct (check c) as [b | ].
      * rewrite run_bind.
        destruct (hb_stamp_fails p (id c) code now w1 Hw1)
          as (Hfail & Hw2 & Hc2 & Hi2 & Hl2 & Hf2 & Hrec2).
        cbn zeta in *.
        destruct (runState (update stringify parse (constructor p)
                              (stamp (id c) now)) w1) as [u w2].
        cbn [fst snd] in *. subst u.
        apply (Hlog w2 Hw2); auto.
        intros j. rewrite Hrec2. apply Hrec1.
      * apply (Hlog w1 Hw1); auto.
Qed.

(** X20. When the state cannot be saved.  Assume that the state can be
    read and does not hold [lastChecks: null], but that the temporary
    path cannot be written.  Then [run] still calls every check that is
    due; for each of them, whether it resolved or rejected, the failure
    to save lands in the [catch]: one console error per called check, and
    no alert is returned, whatever the checks resolved to.  Nothing is
    recorded and the state file is not touched, so that a later run finds
    the same checks due. *)
Theorem run_without_saving (p code : string) (checks : list CheckConfig)
    (w : World Text) :
  unwritable parse (constructor p) w code ->
  let m := constructor p in
  let t := fst (env_read (clock w)) in
  let res := runState (run stringify parse m checks) w in
  fst res = inr [] /\
  invoked (snd res) = invoked w ++ map id (filter (due parse m w t) checks) /\
  logged (snd res) = logged w ++ map id (filter (due parse m w t) checks) /\
  files (snd res) (path m) = files w (path m) /\
  (forall j, recorded parse m (snd res) j = recorded parse m w j) /\
  (forall t' c, due parse m (snd res) t' c = due parse m w t' c) /\
  unwritable parse m (snd res) code.
Proof.
  intros Hw m t res.
  destruct (hb_get_unwritable p code w Hw) as (st & r0 & Hget & Hr0 & Hrec0).
  assert (Hrun : res = runState (run_loop stringify parse (constructor p) st t
                                   checks [])
                         (mkWorld (files w) (snd (env_read (clock w)))
                                  (invoked w) (logged w))).
  { unfold res, m, run. rewrite run_bind. unfold HeartbeatState in *. rewrite Hget.
    cbn [fst snd]. rewrite run_bind. reflexivity. }
  rewrite Hrun.
  destruct (run_loop_unwritable p code st r0 t Hr0 checks []
              (mkWorld (files w) (snd (env_read (clock w))) (invoked w) (logged w)))
    as (Ha & Hh & Hc & Hi & Hl & Hf & Hrec).
  { apply (unwritable_files _ w); [reflexivity | exact Hw]. }
  cbn zeta in *.
  assert (Hdue : forall c, negb (less (minus t (or_zero (member r0 (id c))))
                                      (intervalMs c))
                           = due parse (constructor p) w t c)
    by (intros c; unfold due; rewrite Hrec0; reflexivity).
  rewrite (filter_ext _ _ Hdue checks) in Hi, Hl.
  assert (Hrec' : forall j,
             recorded parse m
               (snd (runState (run_loop stringify parse (constructor p) st t checks [])
                       (mkWorld (files w) (snd (env_read (clock w)))
                                (invoked w) (logged w)))) j
             = recorded parse m w j).
  { intros j. unfold m. rewrite Hrec.
    apply (recorded_files (constructor p)
             (mkWorld (files w) (snd (env_read (clock w))) (invoked w) (logged w))
             w j eq_refl). }
  split; [exact Ha | split; [exact Hi | split; [exact Hl | split; [exact Hf | ]]]].
  split; [exact Hrec' | split; [ | exact Hh]].
  intros t' c. unfold due. rewrite Hrec'. reflexivity.
Qed.

(** X21. [lastChecks: null].  When the state file parses and holds
    [lastChecks: null], [getNextCheckTime] rejects with a [TypeError],
    and so does [run] on a list that is not empty, after reading the
    clock and before calling any check or writing anything.
    [resetCheck], assuming that [JSON.parse] inverts [JSON.stringify] and
    a healthy file system, succeeds and repairs the state: afterwards the
    time [0] is recorded for its check, nothing for any other name, and
    the file system is usable. *)
Theorem null_lastChecks (p i : string) (interval : Z) (c : Text)
    (st : HeartbeatState) (w : World Text) :
  files w p = Some (File c) -> parse c = Some st ->
  st "lastChecks"%string = Some Null ->
  let m := constructor p in
  runState (getNextCheckTime parse m i interval) w = (inl TypeError, w) /\
  (forall c0 rest,
     let res := runState (run stringify parse m (c0 :: rest)) w in
     fst res = inl TypeError /\
     invoked (snd res) = invoked w /\ logged (snd res) = logged w /\
     files (snd res) = files w /\
     now (clock (snd res)) = fst (env_read (clock w))) /\
  (healthy parse m w ->
   let r := runState (resetCheck stringify parse m i) w in
   fst r = inr tt /\
   usable parse m (snd r) /\
   recorded parse m (snd r) i = Number 0 /\
   forall j, j <> i -> recorded parse m (snd r) j = member empty j).
Proof.
  intros Hf Hp Hnull m.
  set (o := spread (spread empty (defaults m)) st).
  assert (Hg : runState (get parse m) w = (inr o, w)).
  { rewrite get_eq. unfold node_at, lookup. cbn [path m constructor].
    rewrite Hf, Hp. reflexivity. }
  assert (Ho : o "lastChecks"%string = Some Null)
    by (unfold o, spread; rewrite Hnull; reflexivity).
  split; [ | split].
  - unfold getNextCheckTime. rewrite run_bind. unfold HeartbeatState in *.
    rewrite Hg. cbn [fst snd]. unfold lastChecks_at, lookup. rewrite Ho. reflexivity.
  - intros c0 rest. cbn zeta. unfold run. rewrite run_bind.
    unfold HeartbeatState in *. rewrite Hg. cbn [fst snd]. rewrite run_bind.
    cbn [run_loop]. unfold lastChecks_at, lookup. rewrite Ho. cbn.
    repeat split.
  - intros Hw. cbn zeta. unfold resetCheck.
    assert (Hup : runState (update stringify parse m (stamp i 0)) w
                  = runState (set stringify m (stamp i 0 o)) w).
    { unfold update. rewrite run_bind. unfold HeartbeatState in *.
      rewrite Hg. reflexivity. }
    rewrite Hup.
    pose proof (set_healthy stringify parse parse_stringify _ (stamp i 0 o) w Hw)
      as Hw'.
    destruct (set_get stringify parse parse_stringify _ (stamp i 0 o) w Hw)
      as (Hok & o' & Hget' & Ho').
    destruct (set_run stringify parse _ (stamp i 0 o) w Hw) as (fs1 & _ & _ & Hrun).
    assert (Hlc : o' "lastChecks"%string
                  = Some (Times (assign i 0 (spread empty empty)))).
    { rewrite Ho'. unfold merged, lookup, stamp, lookup. rewrite Ho. reflexivity. }
    cbn zeta in Hget'. rewrite Hrun in Hget', Hw', Hok |- *. cbn [fst snd] in *.
    assert (Hrec : forall j,
               recorded parse m
                 (set_files (assign (path m) (File (stringify (stamp i 0 o)))
                               (assign (tempPath m) (File (stringify (stamp i 0 o)))
                                       fs1)) w) j
               = member (assign i 0 (spread empty empty)) j).
    { intros j. unfold recorded. rewrite Hget'. cbn [fst].
      unfold lastChecks_at, lookup. rewrite Hlc. reflexivity. }
    split; [reflexivity | split; [split; [exact Hw' | ] | split]].
    + unfold well_formed. cbn [files set_files].
      rewrite node_at_assign, String.eqb_refl, parse_stringify.
      unfold stamp, lookup. rewrite Ho. cbn. discriminate.
    + rewrite Hrec. unfold member, lookup, assign. rewrite String.eqb_refl.
      reflexivity.
    + intros j Hj. rewrite Hrec. unfold member, lookup, assign.
      apply String.eqb_neq in Hj. rewrite Hj. reflexivity.
Qed.

End HeartbeatFacts.


(** A queue of two slots with three tasks added and the first one through:
    [running] stays within the two slots. *)
Lemma queue_concurrency_bound_witness :
  let o := TaskQueue.mkOptions (Some 2) None in
  let evs := [TaskQueue.Add TaskQueue.Pending; TaskQueue.Add TaskQueue.Pending;
              TaskQueue.Add TaskQueue.Pending;
              TaskQueue.Settle 0 (inl 7 : Z + Z); TaskQueue.Resume 0] in
  (forall c, TaskQueue.opt_concurrency o = Some c -> 0 <= c) /\
  0 <= TaskQueue.running (TaskQueue.self (TaskQueue.reached o evs)) <= 2.
Proof.
  cbn zeta.
  assert (H : forall c, Some 2 = Some c -> 0 <= c) by (intros c [= <-]; lia).
  split; [exact H | ].
  exact (proj1 (queue_concurrency_bound (TaskQueue.mkOptions (Some 2) None)
                  [TaskQueue.Add TaskQueue.Pending; TaskQueue.Add TaskQueue.Pending;
                   TaskQueue.Add TaskQueue.Pending;
                   TaskQueue.Settle 0 (inl 7 : Z + Z); TaskQueue.Resume 0] H)).
Defined.

(** One slot, two tasks.  The first is settled once with a value and once
    with a failure: the two runs end in states that agree on everything
    but the outcome of the first task.  And when the first task throws
    instead, the run ends like the one in which its promise settles at
    once, with the failure on the promise of the first task. *)
Lemma failure_isolation_witness :
  let o := TaskQueue.mkOptions (Some 1) None in
  let pre := [TaskQueue.Add TaskQueue.Pending; TaskQueue.Add TaskQueue.Pending] in
  let ok := pre ++ [TaskQueue.Settle 0 (inl 7 : Z + Z); TaskQueue.Resume 0] in
  let ko := pre ++ [TaskQueue.Settle 0 (inr 13 : Z + Z); TaskQueue.Resume 0] in
  let thrown := TaskQueue.reached o
                  (TaskQueue.with_task 0 (TaskQueue.Throws 13) 0 ok) in
  let at_once := TaskQueue.reached o
                   (TaskQueue.settled_at_once 0 (inl 7)
                      (TaskQueue.with_task 0 TaskQueue.Pending 0 ok)) in
  (forall c, TaskQueue.opt_concurrency o = Some c -> 0 <= c) /\
  Forall2 (TaskQueue.same_but_result 0) ok ko /\
  TaskQueue.agree_except 0 (TaskQueue.reached o ok) (TaskQueue.reached o ko) /\
  TaskQueue.alike 0 thrown at_once /\
  In (0%nat, TaskQueue.Rejected 13) (TaskQueue.settled thrown) /\
  TaskQueue.started thrown = [0%nat; 1%nat].
Proof.
  cbn zeta.
  assert (H : forall c, Some 1 = Some c -> 0 <= c) by (intros c [= <-]; lia).
  assert (F : Forall2 (TaskQueue.same_but_result 0)
                ([TaskQueue.Add TaskQueue.Pending; TaskQueue.Add TaskQueue.Pending]
                 ++ [TaskQueue.Settle 0 (inl 7 : Z + Z); TaskQueue.Resume 0])
                ([TaskQueue.Add TaskQueue.Pending; TaskQueue.Add TaskQueue.Pending]
                 ++ [TaskQueue.Settle 0 (inr 13 : Z + Z); TaskQueue.Resume 0])).
  { cbn [app]. constructor; [left; reflexivity | ].
    constructor; [left; reflexivity | ].
    constructor; [right; exists (inl 7), (inr 13); split; reflexivity | ].
    constructor; [left; reflexivity | constructor]. }
  split; [exact H | split; [exact F | ]].
  destruct (failure_isolation (TaskQueue.mkOptions (Some 1) None) _ _ 0%nat H F)
    as (Hagree & _ & _ & _ & Hthrow & _).
  split; [exact Hagree | ].
  destruct (Hthrow 13 (inl 7)) as (Halike & Hdelivered & _).
  split; [exact Halike | ].
  match goal with
  | |- In _ (TaskQueue.settled ?t) /\ _ =>
      assert (E : TaskQueue.started t = [0%nat; 1%nat]) by (vm_compute; reflexivity)
  end.
  split; [apply Hdelivered; rewrite E; left; reflexivity | exact E].
Defined.

(** The isolation scenario of the specification: of three tasks run one at
    a time the second fails; all three outcomes are delivered to their own
    promises, the queue ends idle and [drain] returns at once. *)
Example failing_task_is_isolated :
  let evs := [TaskQueue.Add TaskQueue.Pending; TaskQueue.Add TaskQueue.Pending;
              TaskQueue.Add TaskQueue.Pending;
              TaskQueue.Settle 0 (inl 10 : Z + Z); TaskQueue.Resume 0;
              TaskQueue.Settle 1 (inr 500 : Z + Z); TaskQueue.Resume 1;
              TaskQueue.Settle 2 (inl 30 : Z + Z); TaskQueue.Resume 2] in
  let s := TaskQueue.reached TaskQueue.one_at_a_time evs in
  TaskQueue.settled s
  = [(0%nat, TaskQueue.Fulfilled 10); (1%nat, TaskQueue.Rejected 500);
     (2%nat, TaskQueue.Fulfilled 30)] /\
  TaskQueue.started s = [0%nat; 1%nat; 2%nat] /\
  TaskQueue.idle s /\
  fst (runState (TaskQueue.drain []) s) = Some [].
Proof. repeat split. Qed.

(** Two slots, four tasks: the third starts only when a slot is free. *)
Example two_slots_four_tasks :
  let o := TaskQueue.mkOptions (Some 2) (Some 1000) in
  let adds := [TaskQueue.Add TaskQueue.Pending; TaskQueue.Add TaskQueue.Pending;
               TaskQueue.Add TaskQueue.Pending; TaskQueue.Add TaskQueue.Pending] in
  let s1 := TaskQueue.reached o adds in
  let s2 := TaskQueue.reached o (adds ++ [TaskQueue.Settle 1 (inl 5 : Z + Z);
                                          TaskQueue.Resume 1]) in
  let s3 := TaskQueue.reached o (adds ++ [TaskQueue.Settle 1 (inl 5 : Z + Z);
                                          TaskQueue.Resume 1; TaskQueue.Timer 1]) in
  (TaskQueue.started s1 = [0%nat; 1%nat] /\ TaskQueue.running (TaskQueue.self s1) = 2) /\
  (TaskQueue.started s2 = [0%nat; 1%nat] /\ TaskQueue.running (TaskQueue.self s2) = 2) /\
  (TaskQueue.started s3 = [0%nat; 1%nat; 2%nat] /\
   TaskQueue.running (TaskQueue.self s3) = 2 /\
   fst (runState TaskQueue.size s3) = 1).
Proof. repeat split. Qed.

(** * Instances of the further properties *)

(** The refill test of the repository: four calls, three granted, within
    the budget of two tokens and one refill. *)
Lemma tryAcquire_rate_limit_witness :
  let w := RateLimiter.constructor RateLimiter.refill_cfg RateLimiter.pause_env in
  RateLimiter.valid_config RateLimiter.refill_cfg /\
  RateLimiter.bounded RateLimiter.refill_cfg (RateLimiter.this w) /\
  RateLimiter.steady w /\
  RateLimiter.grants (fst (runState (RateLimiter.tryAcquire_times 4) w)) <= 4.
Proof.
  cbn zeta.
  assert (Hv : RateLimiter.valid_config RateLimiter.refill_cfg)
    by (split; reflexivity).
  assert (Hb : RateLimiter.bounded RateLimiter.refill_cfg
                 (RateLimiter.this (RateLimiter.constructor RateLimiter.refill_cfg
                                      RateLimiter.pause_env)))
    by (split; [reflexivity | cbn; lia]).
  assert (Hs : RateLimiter.steady
                 (RateLimiter.constructor RateLimiter.refill_cfg RateLimiter.pause_env)).
  { split; [ | cbn; lia]. intros k. cbn. destruct (Nat.eqb k 6); lia. }
  split; [exact Hv | split; [exact Hb | split; [exact Hs | ]]].
  exact (tryAcquire_rate_limit RateLimiter.refill_cfg 4 _ Hv Hb Hs).
Defined.

Lemma admissions_spaced_witness :
  let w := RateLimiter.constructor RateLimiter.delay_cfg RateLimiter.still_env in
  let w' := snd (runState (RateLimiter.calls
                             [RateLimiter.TryAcquire; RateLimiter.Acquire 3]) w) in
  RateLimiter.steady w /\
  RateLimiter.lastAcquire (RateLimiter.this w)
  <= RateLimiter.lastAcquire (RateLimiter.this w').
Proof.
  cbn zeta.
  assert (Hs : RateLimiter.steady
                 (RateLimiter.constructor RateLimiter.delay_cfg RateLimiter.still_env)).
  { split; [ | cbn; lia]. intros k. cbn. lia. }
  split; [exact Hs | ].
  exact (proj1 (proj2 (proj2 (admissions_spaced
                                [RateLimiter.TryAcquire; RateLimiter.Acquire 3] _ Hs)))).
Defined.

Lemma burst_then_empty_witness :
  RateLimiter.valid_config RateLimiter.burst_cfg /\
  RateLimiter.still RateLimiter.still_env /\
  fst (runState (RateLimiter.tryAcquire_times 5)
         (RateLimiter.constructor RateLimiter.burst_cfg RateLimiter.still_env))
  = [true; true; true; false; false].
Proof.
  assert (Hv : RateLimiter.valid_config RateLimiter.burst_cfg)
    by (split; reflexivity).
  assert (Hst : RateLimiter.still RateLimiter.still_env) by (intros k; reflexivity).
  split; [exact Hv | split; [exact Hst | ]].
  exact (burst_then_empty RateLimiter.burst_cfg RateLimiter.still_env 2 Hv eq_refl Hst).
Defined.

Lemma getTokens_then_tryAcquire_witness :
  let w := RateLimiter.constructor RateLimiter.burst_cfg RateLimiter.still_env in
  RateLimiter.valid_config RateLimiter.burst_cfg /\
  RateLimiter.bounded RateLimiter.burst_cfg (RateLimiter.this w) /\
  fst (runState RateLimiter.tryAcquire (snd (runState RateLimiter.getTokens w)))
  = true.
Proof.
  cbn zeta.
  assert (Hv : RateLimiter.valid_config RateLimiter.burst_cfg)
    by (split; reflexivity).
  assert (Hb : RateLimiter.bounded RateLimiter.burst_cfg
                 (RateLimiter.this (RateLimiter.constructor RateLimiter.burst_cfg
                                      RateLimiter.still_env)))
    by (split; [reflexivity | cbn; lia]).
  split; [exact Hv | split; [exact Hb | ]].
  destruct (getTokens_then_tryAcquire RateLimiter.burst_cfg _ Hv Hb eq_refl)
    as (_ & _ & _ & Hgrant).
  apply Hgrant. cbn. lia.
Defined.

Lemma tryAcquire_after_interval_witness :
  let cfg := RateLimiter.mkConfig 2 200 None in
  RateLimiter.valid_config cfg /\
  RateLimiter.bounded cfg (RateLimiter.this RateLimiter.due_world) /\
  fst (runState RateLimiter.tryAcquire RateLimiter.due_world) = true.
Proof.
  cbn zeta.
  assert (Hv : RateLimiter.valid_config (RateLimiter.mkConfig 2 200 None))
    by (split; reflexivity).
  assert (Hb : RateLimiter.bounded (RateLimiter.mkConfig 2 200 None)
                 (RateLimiter.this RateLimiter.due_world))
    by (split; [reflexivity | cbn; lia]).
  split; [exact Hv | split; [exact Hb | ]].
  refine (proj1 (tryAcquire_after_interval (RateLimiter.mkConfig 2 200 None)
                   RateLimiter.due_world Hv Hb _ I)).
  cbn. lia.
Defined.

Lemma acquire_returns_witness :
  let w := RateLimiter.constructor RateLimiter.block_cfg RateLimiter.still_env in
  RateLimiter.valid_config RateLimiter.block_cfg /\
  RateLimiter.bounded RateLimiter.block_cfg (RateLimiter.this w) /\
  RateLimiter.honest w /\
  fst (runState (RateLimiter.acquire 3) w) = Some tt.
Proof.
  cbn zeta.
  assert (Hv : RateLimiter.valid_config RateLimiter.block_cfg)
    by (split; reflexivity).
  assert (Hb : RateLimiter.bounded RateLimiter.block_cfg
                 (RateLimiter.this (RateLimiter.constructor RateLimiter.block_cfg
                                      RateLimiter.still_env)))
    by (split; [reflexivity | cbn; lia]).
  assert (Hh : RateLimiter.honest
                 (RateLimiter.constructor RateLimiter.block_cfg RateLimiter.still_env))
    by (intros k; cbn; lia).
  split; [exact Hv | split; [exact Hb | split; [exact Hh | ]]].
  exact (acquire_returns RateLimiter.block_cfg 0 _ Hv Hb Hh).
Defined.

Lemma queue_can_drain_witness :
  let o := TaskQueue.mkOptions (Some 2) (Some 1000) in
  let evs := [TaskQueue.Add TaskQueue.Pending; TaskQueue.Add (TaskQueue.Throws 7);
              TaskQueue.Add TaskQueue.Pending] in
  (forall c, TaskQueue.opt_concurrency o = Some c -> 0 <= c) /\
  exists evs' : list (TaskQueue.Event Z Z),
    Forall TaskQueue.completes evs' /\
    TaskQueue.idle (TaskQueue.reached o (evs ++ evs')) /\
    exists ds, fst (runState (TaskQueue.drain [evs']) (TaskQueue.reached o evs))
               = Some ds.
Proof.
  cbn zeta.
  assert (H : forall c, Some 2 = Some c -> 0 <= c) by (intros c [= <-]; lia).
  split; [exact H | ].
  exact (queue_can_drain (TaskQueue.mkOptions (Some 2) (Some 1000))
           [TaskQueue.Add TaskQueue.Pending; TaskQueue.Add (TaskQueue.Throws 7);
            TaskQueue.Add TaskQueue.Pending] (inl 0) H).
Defined.

Lemma negative_concurrency_stalls_witness :
  let o := TaskQueue.mkOptions (Some (-1)) None in
  let s := TaskQueue.reached o [TaskQueue.Add TaskQueue.Pending;
                                TaskQueue.Add (TaskQueue.Pending : TaskQueue.TaskCall Z)]
           : TaskQueue.Sys Z Z in
  TaskQueue.opt_concurrency o = Some (-1) /\ -1 < 0 /\
  TaskQueue.started s = [] /\ fst (runState TaskQueue.size s) = 2.
Proof.
  cbn zeta. split; [reflexivity | split; [reflexivity | ]].
  destruct (negative_concurrency_stalls (Val := Z) (Err := Z)
              (TaskQueue.mkOptions (Some (-1)) None) (-1)
              [TaskQueue.Add TaskQueue.Pending; TaskQueue.Add TaskQueue.Pending]
              eq_refl eq_refl) as (Hst & _ & Hsize & _).
  split; [exact Hst | exact Hsize].
Defined.

Lemma delay_keeps_slot_witness :
  let o := TaskQueue.mkOptions (Some 1) (Some 1000) in
  let evs := [TaskQueue.Add TaskQueue.Pending; TaskQueue.Add TaskQueue.Pending] in
  let s := TaskQueue.reached o evs : TaskQueue.Sys Z Z in
  let s1 := snd (runState (TaskQueue.handle_all
                             [TaskQueue.Settle 0 (inl 5); TaskQueue.Resume 0]) s) in
  0 < TaskQueue.delayMs (TaskQueue.self s) /\
  TaskQueue.take_id 0 (TaskQueue.awaiting s) = Some [] /\
  TaskQueue.started s1 = [0%nat] /\ TaskQueue.running (TaskQueue.self s1) = 1.
Proof.
  cbn zeta. split; [reflexivity | split; [reflexivity | ]].
  destruct (delay_keeps_slot (Val := Z) (Err := Z)
              (TaskQueue.mkOptions (Some 1) (Some 1000))
              [TaskQueue.Add TaskQueue.Pending; TaskQueue.Add TaskQueue.Pending]
              0%nat (inl 5) [] eq_refl eq_refl) as (Hr & _ & Hs & _).
  split; [exact Hs | exact Hr].
Defined.


Lemma get_defaults_witness :
  let m := StateManager.count_manager in
  let w := StateManager.no_files in
  (forall o : String.string -> option Z,
     StateManager.ideal_parse (StateManager.ideal_stringify o) = Some o) /\
  exists o, runState (StateManager.get StateManager.ideal_parse m) w = (inr o, w) /\
            forall k, o k = StateManager.defaults m k.
Proof.
  cbn zeta.
  assert (Hps : forall o : String.string -> option Z,
             StateManager.ideal_parse (StateManager.ideal_stringify o) = Some o)
    by (intros o; reflexivity).
  split; [exact Hps | ].
  apply (proj1 (get_defaults StateManager.ideal_stringify StateManager.ideal_parse
                  Hps StateManager.count_manager StateManager.no_files)).
  - reflexivity.
  - vm_compute. exact I.
Defined.

Lemma update_then_get_witness :
  let m := StateManager.count_manager in
  let w := StateManager.no_files in
  let bump := StateManager.add_5 in
  (forall o : String.string -> option Z,
     StateManager.ideal_parse (StateManager.ideal_stringify o) = Some o) /\
  StateManager.healthy StateManager.ideal_parse m w /\
  exists current,
    runState (StateManager.get StateManager.ideal_parse m) w = (inr current, w) /\
    runState (StateManager.update StateManager.ideal_stringify
                StateManager.ideal_parse m bump) w
    = runState (StateManager.set StateManager.ideal_stringify m (bump current)) w.
Proof.
  cbn zeta.
  assert (Hps : forall o : String.string -> option Z,
             StateManager.ideal_parse (StateManager.ideal_stringify o) = Some o)
    by (intros o; reflexivity).
  assert (Hh : StateManager.healthy (Text := option (String.string -> option Z))
                 StateManager.ideal_parse StateManager.count_manager
                 StateManager.no_files)
    by (vm_compute; repeat split; discriminate).
  split; [exact Hps | split; [exact Hh | ]].
  destruct (update_then_get StateManager.ideal_stringify StateManager.ideal_parse
              Hps StateManager.count_manager StateManager.add_5
              StateManager.no_files Hh) as (current & Hget & Hup & _).
  exists current. split; [exact Hget | exact Hup].
Defined.

(** The tests of the repository, run on the model: a state set to 10 and
    updated by 5 reads 15; and on a new manager [get] returns the
    default. *)
Example updates_state_via_mutation_function :
  let m := StateManager.count_manager in
  let w0 : StateManager.World (option (String.string -> option Z)) :=
    StateManager.no_files in
  let w1 := snd (runState (StateManager.set StateManager.ideal_stringify m
                             StateManager.count_10) w0) in
  let w2 := snd (runState (StateManager.update StateManager.ideal_stringify
                             StateManager.ideal_parse m StateManager.add_5) w1) in
  let read w := match fst (runState (StateManager.get StateManager.ideal_parse m) w) with
                | inr o => StateManager.count o
                | inl _ => None
                end in
  read w0 = Some 0 /\ read w1 = Some 10 /\ read w2 = Some 15.
Proof. vm_compute. repeat split. Qed.

(** A file where the directory of the state path should be: [set] fails
    in [mkdir] and [get] in [readFile]. *)
Lemma failures_propagate_witness :
  let m := StateManager.count_manager in
  let w := StateManager.file_in_the_way (None : option (String.string -> option Z)) in
  StateManager.files w (StateManager.dirname (StateManager.path m))
  = Some (StateManager.File None) /\
  StateManager.node_at (StateManager.files w) (StateManager.path m) = None /\
  runState (StateManager.get StateManager.ideal_parse m) w
  = (inl StateManager.ENOTDIR, w) /\
  runState (StateManager.set StateManager.ideal_stringify m StateManager.count_42) w
  = (inl StateManager.EEXIST, w).
Proof.
  cbn zeta.
  destruct (failures_propagate StateManager.ideal_stringify StateManager.ideal_parse
              StateManager.count_manager StateManager.add_5 StateManager.count_42
              (StateManager.file_in_the_way None))
    as (_ & _ & _ & Hget & Hset & _).
  split; [reflexivity | split; [reflexivity | split]].
  - exact (Hget None eq_refl eq_refl).
  - exact (Hset None eq_refl).
Defined.

(** The checks of the example on a new state: the first raises its alert,
    the second fails, the third is not due. *)
Lemma run_spec_witness :
  let p := StateManager.path StateManager.count_manager in
  let w := StateManager.no_files in
  let res := runState (HeartbeatManager.run StateManager.ideal_stringify
                         StateManager.ideal_parse (HeartbeatManager.constructor p)
                         HeartbeatManager.sample_checks) w in
  (forall o : HeartbeatManager.HeartbeatState,
     StateManager.ideal_parse (StateManager.ideal_stringify o) = Some o) /\
  HeartbeatManager.usable StateManager.ideal_parse (HeartbeatManager.constructor p) w /\
  fst res = inr (map HeartbeatManager.alert_of
                   (firstn 1 HeartbeatManager.sample_checks)) /\
  StateManager.invoked (snd res)
  = map HeartbeatManager.id (firstn 2 HeartbeatManager.sample_checks).
Proof.
  cbn zeta.
  assert (Hps : forall o : HeartbeatManager.HeartbeatState,
             StateManager.ideal_parse (StateManager.ideal_stringify o) = Some o)
    by (intros o; reflexivity).
  assert (Hh : HeartbeatManager.usable
                 (Text := option HeartbeatManager.HeartbeatState)
                 StateManager.ideal_parse
                 (HeartbeatManager.constructor
                    (StateManager.path StateManager.count_manager))
                 StateManager.no_files)
    by (vm_compute; repeat split; discriminate).
  split; [exact Hps | split; [exact Hh | ]].
  destruct (run_spec StateManager.ideal_stringify StateManager.ideal_parse Hps
              (StateManager.path StateManager.count_manager)
              HeartbeatManager.sample_checks StateManager.no_files Hh)
    as (Halerts & Hinvoked & _).
  split; [exact Halerts | exact Hinvoked].
Defined.

Lemma run_respects_intervals_witness :
  let p := StateManager.path StateManager.count_manager in
  let m := HeartbeatManager.constructor p in
  let w := StateManager.no_files in
  let w1 := snd (runState (HeartbeatManager.run StateManager.ideal_stringify
                             StateManager.ideal_parse m
                             HeartbeatManager.email_check) w) in
  let res2 := runState (HeartbeatManager.run StateManager.ideal_stringify
                          StateManager.ideal_parse m
                          HeartbeatManager.email_check) w1 in
  (forall o : HeartbeatManager.HeartbeatState,
     StateManager.ideal_parse (StateManager.ideal_stringify o) = Some o) /\
  HeartbeatManager.usable StateManager.ideal_parse m w /\
  fst res2 = inr [] /\
  StateManager.invoked (snd res2) = StateManager.invoked w1.
Proof.
  cbn zeta.
  assert (Hps : forall o : HeartbeatManager.HeartbeatState,
             StateManager.ideal_parse (StateManager.ideal_stringify o) = Some o)
    by (intros o; reflexivity).
  assert (Hh : HeartbeatManager.usable
                 (Text := option HeartbeatManager.HeartbeatState)
                 StateManager.ideal_parse
                 (HeartbeatManager.constructor
                    (StateManager.path StateManager.count_manager))
                 StateManager.no_files)
    by (vm_compute; repeat split; discriminate).
  split; [exact Hps | split; [exact Hh | ]].
  destruct (run_respects_intervals StateManager.ideal_stringify
              StateManager.ideal_parse Hps
              (StateManager.path StateManager.count_manager)
              HeartbeatManager.email_check HeartbeatManager.email_check
              StateManager.no_files Hh) as (Halerts & Hinvoked & _).
  - intros c2 [<- | []]. split; [vm_compute; reflexivity | ].
    eexists. split; [left; reflexivity | ].
    split; [reflexivity | split; vm_compute; reflexivity].
  - split; [exact Halerts | exact Hinvoked].
Defined.

Lemma getNextCheckTime_spec_witness :
  let p := StateManager.path StateManager.count_manager in
  let m := HeartbeatManager.constructor p in
  let w := StateManager.no_files in
  HeartbeatManager.usable StateManager.ideal_parse m w /\
  exists v,
    fst (runState (HeartbeatManager.getNextCheckTime StateManager.ideal_parse m p 100)
           w) = inr v /\ 0 <= v.
Proof.
  cbn zeta.
  assert (Hh : HeartbeatManager.usable
                 (Text := option HeartbeatManager.HeartbeatState)
                 StateManager.ideal_parse
                 (HeartbeatManager.constructor
                    (StateManager.path StateManager.count_manager))
                 StateManager.no_files)
    by (vm_compute; repeat split; discriminate).
  split; [exact Hh | ].
  destruct (getNextCheckTime_spec StateManager.ideal_stringify
              StateManager.ideal_parse
              (fun o : HeartbeatManager.HeartbeatState => eq_refl)
              (StateManager.path StateManager.count_manager)
              (StateManager.path StateManager.count_manager) 100
              HeartbeatManager.Rejects None StateManager.no_files Hh)
    as (v & Hv & Hpos & _).
  exists v. split; [exact Hv | exact Hpos].
Defined.

Lemma resetCheck_forces_witness :
  let p := StateManager.path StateManager.count_manager in
  let m := HeartbeatManager.constructor p in
  let w := StateManager.no_files in
  (forall o : HeartbeatManager.HeartbeatState,
     StateManager.ideal_parse (StateManager.ideal_stringify o) = Some o) /\
  HeartbeatManager.usable StateManager.ideal_parse m w /\
  fst (runState (HeartbeatManager.resetCheck StateManager.ideal_stringify
                   StateManager.ideal_parse m p) w) = inr tt.
Proof.
  cbn zeta.
  assert (Hps : forall o : HeartbeatManager.HeartbeatState,
             StateManager.ideal_parse (StateManager.ideal_stringify o) = Some o)
    by (intros o; reflexivity).
  assert (Hh : HeartbeatManager.usable
                 (Text := option HeartbeatManager.HeartbeatState)
                 StateManager.ideal_parse
                 (HeartbeatManager.constructor
                    (StateManager.path StateManager.count_manager))
                 StateManager.no_files)
    by (vm_compute; repeat split; discriminate).
  split; [exact Hps | split; [exact Hh | ]].
  exact (proj1 (resetCheck_forces StateManager.ideal_stringify
                  StateManager.ideal_parse Hps
                  (StateManager.path StateManager.count_manager)
                  (StateManager.path StateManager.count_manager) 100
                  StateManager.no_files Hh)).
Defined.

Lemma corrupt_state_file_witness :
  let p := HeartbeatManager.corrupt_path in
  let w := HeartbeatManager.corrupt_files in
  StateManager.files w p = Some (StateManager.File None) /\
  StateManager.ideal_parse (None : option HeartbeatManager.HeartbeatState) = None /\
  runState (HeartbeatManager.run StateManager.ideal_stringify StateManager.ideal_parse
              (HeartbeatManager.constructor p) HeartbeatManager.sample_checks) w
  = (inl StateManager.SyntaxError, w).
Proof.
  cbn zeta. split; [reflexivity | split; [reflexivity | ]].
  exact (proj1 (corrupt_state_file StateManager.ideal_stringify
                  StateManager.ideal_parse HeartbeatManager.corrupt_path
                  HeartbeatManager.corrupt_path 100
                  HeartbeatManager.sample_checks None
                  HeartbeatManager.corrupt_files eq_refl eq_refl)).
Defined.

(** The temporary path cannot be written: the checks are called, their
    alerts are lost. *)
Lemma run_without_saving_witness :
  let p := HeartbeatManager.corrupt_path in
  let w := HeartbeatManager.locked_files in
  let res := runState (HeartbeatManager.run StateManager.ideal_stringify
                         StateManager.ideal_parse (HeartbeatManager.constructor p)
                         HeartbeatManager.sample_checks) w in
  HeartbeatManager.unwritable StateManager.ideal_parse
    (HeartbeatManager.constructor p) w HeartbeatManager.EACCES /\
  fst res = inr [] /\
  StateManager.invoked (snd res)
  = map HeartbeatManager.id (firstn 2 HeartbeatManager.sample_checks) /\
  StateManager.logged (snd res)
  = map HeartbeatManager.id (firstn 2 HeartbeatManager.sample_checks).
Proof.
  cbn zeta.
  assert (Hu : HeartbeatManager.unwritable
                 (Text := option HeartbeatManager.HeartbeatState)
                 StateManager.ideal_parse
                 (HeartbeatManager.constructor HeartbeatManager.corrupt_path)
                 HeartbeatManager.locked_files HeartbeatManager.EACCES)
    by (vm_compute; repeat split; discriminate).
  split; [exact Hu | ].
  destruct (run_without_saving StateManager.ideal_stringify StateManager.ideal_parse
              HeartbeatManager.corrupt_path _ HeartbeatManager.sample_checks
              HeartbeatManager.locked_files Hu) as (Ha & Hi & Hl & _).
  split; [exact Ha | split; [exact Hi | exact Hl]].
Defined.

(** [lastChecks: null] in the state file: [run] fails, [resetCheck]
    repairs. *)
Lemma null_lastChecks_witness :
  let p := HeartbeatManager.corrupt_path in
  let w := HeartbeatManager.null_files in
  (forall o : HeartbeatManager.HeartbeatState,
     StateManager.ideal_parse (StateManager.ideal_stringify o) = Some o) /\
  StateManager.healthy StateManager.ideal_parse (HeartbeatManager.constructor p) w /\
  runState (HeartbeatManager.getNextCheckTime StateManager.ideal_parse
              (HeartbeatManager.constructor p) p 100) w
  = (inl StateManager.TypeError, w) /\
  fst (runState (HeartbeatManager.resetCheck StateManager.ideal_stringify
                   StateManager.ideal_parse (HeartbeatManager.constructor p) p) w)
  = inr tt.
Proof.
  cbn zeta.
  assert (Hps : forall o : HeartbeatManager.HeartbeatState,
             StateManager.ideal_parse (StateManager.ideal_stringify o) = Some o)
    by (intros o; reflexivity).
  assert (Hh : StateManager.healthy
                 (Text := option HeartbeatManager.HeartbeatState)
                 StateManager.ideal_parse
                 (HeartbeatManager.constructor HeartbeatManager.corrupt_path)
                 HeartbeatManager.null_files)
    by (vm_compute; repeat split; discriminate).
  split; [exact Hps | split; [exact Hh | ]].
  destruct (null_lastChecks StateManager.ideal_stringify StateManager.ideal_parse Hps
              HeartbeatManager.corrupt_path HeartbeatManager.corrupt_path 100
              _ _ HeartbeatManager.null_files eq_refl eq_refl eq_refl)
    as (Hnext & _ & Hreset).
  split; [exact Hnext | exact (proj1 (Hreset Hh))].
Defined.

(** A check named like a member of [Object.prototype] is called although
    its interval has not passed, and [getNextCheckTime] reads the clock
    for it. *)
Example prototype_name_is_always_due :
  let m := HeartbeatManager.constructor HeartbeatManager.corrupt_path in
  let w : StateManager.World (option HeartbeatManager.HeartbeatState) :=
    StateManager.no_files in
  let res := runState (HeartbeatManager.run StateManager.ideal_stringify
                         StateManager.ideal_parse m
                         HeartbeatManager.toString_check) w in
  let next := runState (HeartbeatManager.getNextCheckTime StateManager.ideal_parse m
                          HeartbeatManager.toString 5000) w in
  StateManager.invoked (snd res) = [HeartbeatManager.toString] /\
  fst res = inr (map HeartbeatManager.alert_of HeartbeatManager.toString_check) /\
  fst next = inr 0 /\
  tick (StateManager.clock (snd next)) = 1%nat.
Proof. vm_compute. repeat split. Qed.
